(** * emla: extraction of metadata from e-mail message files

    A shallow embedding of the Go program [main.go] (the concurrent,
    go-message based variant, and the enmime based variant where the two
    differ) together with the properties its specification states.

    Go strings are byte sequences; they are modelled by [string], whose
    characters ([ascii]) are exactly the 256 byte values.  Slices are lists,
    maps used as sets are [gset]s, fallible calls return [option] or a sum.
    The packages the program imports ([html], [net/url], [net/mail],
    go-message, [os]) are not part of the repository: their results enter
    the model through the fields of [GoLibs] and of the reader records. *)

From Stdlib Require Import String Ascii List Bool Arith Lia.
From stdpp Require Import base list strings gmap.

Open Scope string_scope.
Open Scope list_scope.
Open Scope nat_scope.

(** The double-quote character, byte 34. *)
Definition dquote : ascii := "034"%char.

(** ** Package [strings] *)

Module strings.

(** The bytes of a string, as a list. *)
Definition bytes (s : string) : list ascii := list_ascii_of_string s.

(** [s[n:]], for [n] at most the length of [s]. *)
Fixpoint drop (n : nat) (s : string) : string :=
  match n, s with
  | S k, String _ s' => drop k s'
  | _, _ => s
  end.

(** [s[:n]], for [n] at most the length of [s]. *)
Fixpoint take (n : nat) (s : string) : string :=
  match n, s with
  | S k, String c s' => String c (take k s')
  | _, _ => ""
  end.

Definition HasPrefix (s pre : string) : bool := String.prefix pre s.

(** [strings.ReplaceAll(s, old, new)] for a non-empty [old]: the
    non-overlapping occurrences of [old], found from the left, are replaced.
    [skip] counts the bytes of an occurrence that are still to be passed
    over.  (An empty [old] makes Go insert [new] around every rune; no call
    of this program passes one, and the model leaves [s] as it is.) *)
Fixpoint replace_from (old new : string) (skip : nat) (s : string) : string :=
  match s with
  | "" => ""
  | String c s' =>
      match skip with
      | S k => replace_from old new k s'
      | O =>
          if String.prefix old s
          then new +:+ replace_from old new (String.length old - 1) s'
          else String c (replace_from old new 0 s')
      end
  end.

Definition ReplaceAll (s old new : string) : string :=
  match old with
  | "" => s
  | _ => replace_from old new 0 s
  end.

(** [strings.Split(s, sep)] for a non-empty [sep]: the pieces between the
    non-overlapping occurrences of [sep]; always at least one piece. *)
Fixpoint split_from (sep : string) (skip : nat) (s : string) : list string :=
  match s with
  | "" => [""]
  | String c s' =>
      match skip with
      | S k => split_from sep k s'
      | O =>
          if String.prefix sep s
          then "" :: split_from sep (String.length sep - 1) s'
          else match split_from sep 0 s' with
               | piece :: pieces => String c piece :: pieces
               | [] => [String c ""]
               end
      end
  end.

Definition Split (s sep : string) : list string :=
  match sep with
  | "" => [s]
  | _ => split_from sep 0 s
  end.

(** [strings.Join(elems, sep)]. *)
Fixpoint Join (elems : list string) (sep : string) : string :=
  match elems with
  | [] => ""
  | [e] => e
  | e :: rest => e +:+ sep +:+ Join rest sep
  end.

(** The UTF-8 encodings of the code points for which [unicode.IsSpace]
    holds: U+0009..U+000D, U+0020, U+0085, U+00A0, U+1680, U+2000..U+200A,
    U+2028, U+2029, U+202F, U+205F and U+3000. *)
Definition of_codes (l : list nat) : string :=
  string_of_list_ascii (map ascii_of_nat l).

Definition space_encodings : list string :=
  map of_codes
    ([ [9]; [10]; [11]; [12]; [13]; [32]; [194; 133]; [194; 160];
       [225; 154; 128] ]
     ++ map (fun k => [226; 128; 128 + k]) (seq 0 11)
     ++ [ [226; 128; 168]; [226; 128; 169]; [226; 128; 175];
          [226; 129; 159]; [227; 128; 128] ]).

(** Length of the member of [cut] that [s] starts with, if any. *)
Definition leading (cut : list string) (s : string) : option nat :=
  String.length <$> find (fun w => String.prefix w s) cut.

(** Strip, from the left, every leading member of [cut]. *)
Fixpoint trim_left_from (cut : list string) (skip : nat) (s : string) : string :=
  match s with
  | "" => ""
  | String _ s' =>
      match skip with
      | S k => trim_left_from cut k s'
      | O =>
          match leading cut s with
          | Some n => trim_left_from cut (n - 1) s'
          | None => s
          end
      end
  end.

Definition trim_left (cut : list string) (s : string) : string :=
  trim_left_from cut 0 s.

(** Stripping from the right is stripping the reversed string from the left
    with every member of [cut] reversed. *)
Definition trim_right (cut : list string) (s : string) : string :=
  String.rev (trim_left (map String.rev cut) (String.rev s)).

(** [strings.TrimSpace(s)]: leading and trailing Unicode white space
    removed. *)
Definition TrimSpace (s : string) : string :=
  trim_right space_encodings (trim_left space_encodings s).

(** [strings.Trim(s, cutset)] for a cut set of one-byte characters. *)
Definition Trim (s cutset : string) : string :=
  let cut := map (fun c => String c "") (bytes cutset) in
  trim_right cut (trim_left cut s).

End strings.

(** ** Package [regexp], for the pattern of [urlRegex]

    Patterns built from literal bytes, byte classes, concatenation, a greedy
    optional item and a greedy repetition [+] of a class.  Every byte the
    classes of [urlRegex] tell apart is an ASCII byte, so matching bytes and
    matching UTF-8 runes select the same substrings. *)

Module regexp.

Inductive Regexp : Type :=
| Lit (c : ascii)
| Class (p : ascii -> bool)
| Cat (r1 r2 : Regexp)
| Quest (r : Regexp)
| Plus (p : ascii -> bool).

(** The literal string [s] as a pattern followed by [r]. *)
Fixpoint lits (s : string) (r : Regexp) : Regexp :=
  match s with
  | "" => r
  | String c s' => Cat (Lit c) (lits s' r)
  end.

(** Greedy [p+] at the head of [s]: the longest run first, each shorter
    non-empty run after it.  [n] counts the bytes matched so far. *)
Fixpoint plus_from {A} (p : ascii -> bool) (n : nat) (s : string)
    (k : nat -> string -> option A) : option A :=
  match s with
  | "" => None
  | String c s' =>
      if p c
      then match plus_from p (S n) s' k with
           | Some a => Some a
           | None => k (S n) s'
           end
      else None
  end.

(** The backtracking matcher.  [k] is what remains to be matched; the first
    success in the order a backtracking engine tries the alternatives is the
    match that [regexp] reports (leftmost-first). *)
Fixpoint match_from {A} (r : Regexp) (n : nat) (s : string)
    (k : nat -> string -> option A) : option A :=
  match r with
  | Lit c =>
      match s with
      | String c' s' => if Ascii.eqb c c' then k (S n) s' else None
      | "" => None
      end
  | Class p =>
      match s with
      | String c' s' => if p c' then k (S n) s' else None
      | "" => None
      end
  | Cat r1 r2 => match_from r1 n s (fun n' s' => match_from r2 n' s' k)
  | Quest r1 =>
      match match_from r1 n s k with
      | Some a => Some a
      | None => k n s
      end
  | Plus p => plus_from p n s k
  end.

(** Length of the match of [r] that starts at the head of [s]. *)
Definition match_here (r : Regexp) (s : string) : option nat :=
  match_from r 0 s (fun n _ => Some n).

(** [re.FindAllString(s, -1)] for a pattern that matches no empty string:
    the successive non-overlapping matches, leftmost first.  [skip] counts
    the bytes of the last match that are still to be passed over. *)
Fixpoint find_all_from (r : Regexp) (skip : nat) (s : string) : list string :=
  match s with
  | "" => []
  | String _ s' =>
      match skip with
      | S k => find_all_from r k s'
      | O =>
          match match_here r s with
          | Some n => strings.take n s :: find_all_from r (n - 1) s'
          | None => find_all_from r 0 s'
          end
      end
  end.

Definition FindAllString (r : Regexp) (s : string) : list string :=
  find_all_from r 0 s.

(** The class [\s] of the package: tab, line feed, form feed, carriage
    return and space. *)
Definition perl_space (c : ascii) : bool :=
  match nat_of_ascii c with
  | 9 | 10 | 12 | 13 | 32 => true
  | _ => false
  end.

End regexp.

(** ** Package [unicode/utf8] *)

Module utf8.

(** The head byte of [s] lies between [lo] and [hi]. *)
Definition between (lo hi : nat) (s : string) : bool :=
  match s with
  | String c _ => (lo <=? nat_of_ascii c) && (nat_of_ascii c <=? hi)
  | "" => false
  end.

(** After the first byte of an encoding of [size] bytes come [size - 1]
    more, the first of them between [lo] and [hi], the others between 0x80
    and 0xBF. *)
Definition follows (size lo hi : nat) (s : string) : bool :=
  between lo hi s
  && forallb (fun i => between 128 191 (strings.drop i s)) (seq 1 (size - 2)).

(** The width of the rune that [utf8.DecodeRuneInString] reads at the head
    of [s]: the length of a well-formed encoding, and 1 for a byte that
    starts none. *)
Definition width (s : string) : nat :=
  match s with
  | "" => 0
  | String c rest =>
      let b := nat_of_ascii c in
      let sized size lo hi := if follows size lo hi rest then size else 1 in
      if b <? 194 then 1
      else if b <? 224 then sized 2 128 191
      else if b =? 224 then sized 3 160 191
      else if b =? 237 then sized 3 128 159
      else if b <? 240 then sized 3 128 191
      else if b =? 240 then sized 4 144 191
      else if b <? 244 then sized 4 128 191
      else if b =? 244 then sized 4 128 143
      else 1
  end.

End utf8.

(** ** Package [regexp], for the pattern of [parseAddress]

    Patterns with capturing groups, matched against the whole text (the
    pattern of [parseAddress] starts with [^] and ends with [$]).  The text
    is read rune by rune as the package reads it; a repetition is greedy and
    an optional item is tried before its absence, and the first success in
    that order is the match the package reports, with its groups. *)

Module submatch.

(** An item that takes one rune: the number of bytes it takes at the head of
    the text, if it matches there. *)
Definition Step : Type := string -> option nat.

(** A literal ASCII byte. *)
Definition byte (c : ascii) : Step :=
  fun s => match s with
           | String c' _ => if Ascii.eqb c c' then Some 1 else None
           | "" => None
           end.

(** The negated class of one ASCII byte: any other rune. *)
Definition rune_but (c : ascii) : Step :=
  fun s => match s with
           | String c' _ => if Ascii.eqb c c' then None else Some (utf8.width s)
           | "" => None
           end.

(** A class given by its ASCII bytes and by the encodings of its runes
    beyond ASCII. *)
Definition class (p : ascii -> bool) (wide : list string) : Step :=
  fun s => match s with
           | String c _ =>
               if p c then Some 1
               else option_map String.length
                      (List.find (fun w => String.prefix w s) wide)
           | "" => None
           end.

Inductive Regexp : Type :=
| One (step : Step)
| Many (step : Step) (min : nat)
| Quest (r : Regexp)
| Cat (r1 r2 : Regexp)
| Group (i : nat) (r : Regexp).

(** The groups set so far, the one set last first. *)
Definition Captures : Type := list (nat * string).

Definition group (caps : Captures) (i : nat) : string :=
  match List.find (fun c => fst c =? i) caps with
  | Some c => snd c
  | None => ""
  end.

(** Greedy repetition, at least [min] times: one more item first, then what
    follows.  An item takes at least one byte, so [fuel], the length of the
    text, is not used up before the text is. *)
Fixpoint many {A} (step : Step) (fuel min : nat) (s : string)
    (k : string -> option A) : option A :=
  let stop := if min =? 0 then k s else None in
  match fuel with
  | O => stop
  | S fuel' =>
      match step s with
      | Some (S w) =>
          match many step fuel' (min - 1) (strings.drop (S w) s) k with
          | Some a => Some a
          | None => stop
          end
      | _ => stop
      end
  end.

(** The backtracking matcher; [k] is what remains to be matched. *)
Fixpoint match_from {A} (r : Regexp) (s : string) (caps : Captures)
    (k : string -> Captures -> option A) : option A :=
  match r with
  | One step =>
      match step s with
      | Some w => k (strings.drop w s) caps
      | None => None
      end
  | Many step min => many step (String.length s) min s (fun rest => k rest caps)
  | Quest r1 =>
      match match_from r1 s caps k with
      | Some a => Some a
      | None => k s caps
      end
  | Cat r1 r2 => match_from r1 s caps (fun rest caps' => match_from r2 rest caps' k)
  | Group i r1 =>
      match_from r1 s caps
        (fun rest caps' =>
           k rest ((i, strings.take (String.length s - String.length rest) s) :: caps'))
  end.

(** What is left to match at the end of the pattern: the end of the text. *)
Definition at_end (rest : string) (caps : Captures) : option Captures :=
  if String.eqb rest "" then Some caps else None.

(** [re.FindStringSubmatch(s)] for the pattern that is [r] between [^] and
    [$], with [groups] groups: the text and its groups, or nothing.  A group
    that took no part in the match is empty. *)
Definition FindStringSubmatch (r : Regexp) (groups : nat) (s : string) : list string :=
  match match_from r s [] at_end with
  | Some caps => s :: map (group caps) (seq 1 groups)
  | None => []
  end.

(** Under the flag [(?i)] a class of letters holds both cases of each
    letter and the runes that fold to one: beyond ASCII these are the long s
    (U+017F) and the Kelvin sign (U+212A). *)
Definition lower (c : ascii) : bool :=
  (97 <=? nat_of_ascii c) && (nat_of_ascii c <=? 122).

Definition upper (c : ascii) : bool :=
  (65 <=? nat_of_ascii c) && (nat_of_ascii c <=? 90).

Definition digit (c : ascii) : bool :=
  (48 <=? nat_of_ascii c) && (nat_of_ascii c <=? 57).

Definition one_of (bytes : string) (c : ascii) : bool :=
  existsb (Ascii.eqb c) (strings.bytes bytes).

Definition folds_to_letter : list string :=
  [strings.of_codes [197; 191]; strings.of_codes [226; 132; 170]].

End submatch.

(** ** Package [html]: the document tree *)

Module html.

Inductive NodeType : Type :=
| ErrorNode | TextNode | DocumentNode | ElementNode | CommentNode
| DoctypeNode | RawNode.

Record Attribute : Type := mkAttribute {
  Namespace : string;
  Key : string;
  Val : string
}.

(** A node with its children from [FirstChild] along [NextSibling]. *)
#[warnings="-register-all"]
Inductive Node : Type :=
| mkNode (type : NodeType) (data : string) (attr : list Attribute)
         (children : list Node).

Definition Type_ (n : Node) : NodeType := let 'mkNode t _ _ _ := n in t.
Definition Data (n : Node) : string := let 'mkNode _ d _ _ := n in d.
Definition Attr (n : Node) : list Attribute := let 'mkNode _ _ a _ := n in a.
Definition Children (n : Node) : list Node := let 'mkNode _ _ _ c := n in c.

Definition NodeType_eqb (a b : NodeType) : bool :=
  match a, b with
  | ErrorNode, ErrorNode | TextNode, TextNode | DocumentNode, DocumentNode
  | ElementNode, ElementNode | CommentNode, CommentNode
  | DoctypeNode, DoctypeNode | RawNode, RawNode => true
  | _, _ => false
  end.

End html.

(** ** Results of the imported packages *)

Definition error : Type := string.

(** A Go pair [(value, err)]: the value when [err == nil], the error
    otherwise. *)
Inductive Res (A : Type) : Type :=
| Ok (a : A)
| Err (e : error).

Arguments Ok {A} a.
Arguments Err {A} e.

Definition is_Ok {A} (r : Res A) : bool :=
  match r with Ok _ => true | Err _ => false end.

(** [net/url]: of a parsed URL the program reads [Host] only. *)
Record URL : Type := mkURL { Host : string }.

(** [mail.Address]. *)
Record MailAddress : Type := mkMailAddress { Name : string; Address : string }.

(** go-message: what the calls on a message header return.  [h_Date] for a
    header without a Date field is the zero time and no error; an error is
    what a field that does not parse gives. *)
Record Header (Time : Type) : Type := mkHeader {
  h_Subject : Res string;
  h_AddressList : string -> Res (list MailAddress);
  h_Date : Res Time;
  h_Get : string -> string
}.

Arguments mkHeader {Time}.
Arguments h_Subject {Time}.
Arguments h_AddressList {Time}.
Arguments h_Date {Time}.
Arguments h_Get {Time}.

(** go-message: a body part, with [p.Header.Get] and the outcome of
    [io.ReadAll(p.Body)]. *)
Record Part : Type := mkPart {
  p_Header_Get : string -> string;
  p_Body : Res string
}.

(** go-message: a mail reader.  [r_Parts] lists what the successive calls of
    [NextPart] return; once it is exhausted [NextPart] returns [io.EOF]. *)
Record Reader (Time : Type) : Type := mkReader {
  r_Header : Header Time;
  r_Parts : list (Res Part)
}.

Arguments mkReader {Time}.
Arguments r_Header {Time}.
Arguments r_Parts {Time}.

(** enmime: of an envelope the program reads the root header, the decoded
    header and the HTML body. *)
Record Envelope : Type := mkEnvelope {
  Root_Header_Get : string -> string;
  GetHeader : string -> string;
  HTML : string
}.

(** The imported packages and the file system, as the program sees them.
    [os_Open] is the file tree at one moment; [pool_fs] and [sequential_fs]
    let the calls of the program change it while a batch runs. *)
Class GoLibs : Type := {
  File : Type;
  Time : Type;
  os_Open : string -> Res File;
  mail_CreateReader : File -> Res (Reader Time);
  enmime_ReadEnvelope : File -> Res Envelope;
  Time_Format : Time -> string -> string;
  mail_ParseDate : string -> Res Time;
  mail_ParseAddress : string -> Res MailAddress;
  html_Parse : string -> Res html.Node;
  url_Parse : string -> Res URL;
  filepath_Base : string -> string;
  filepath_Dir : string -> string;
  filepath_Ext : string -> string;
  filepath_Join : string -> string -> string;
  filepath_Rel : string -> string -> Res string
}.

(** ** The program: [main.go], concurrent variant *)

Record EmailRecord : Type := mkEmailRecord {
  URLDomains : string;
  Folder : string;
  Subject : string;
  FromName : string;
  FromEmail : string;
  ToName : string;
  ToEmail : string;
  SentDate : string;
  IP : string;
  URLs : string;
  OriginalFile : string
}.

(** [EmailRecord{}]. *)
Definition EmailRecord_zero : EmailRecord :=
  mkEmailRecord "" "" "" "" "" "" "" "" "" "" "".

(** [urlRegex]: the literal http, an optional s, the literal ://, then one or
    more bytes that are neither white space ([\s]) nor a double or a single
    quote. *)
Definition url_char (c : ascii) : bool :=
  negb (regexp.perl_space c || Ascii.eqb c dquote || Ascii.eqb c "'"%char).

Definition urlRegex : regexp.Regexp :=
  regexp.lits "http"
    (regexp.Cat (regexp.Quest (regexp.Lit "s"%char))
       (regexp.lits "://" (regexp.Plus url_char))).

(** [formatTime]. *)
Definition formatTime (sentDate : string) : string :=
  if String.eqb sentDate "" then "unknown"
  else
    match strings.Split sentDate " " with
    | datePart :: part1 :: _ =>
        let timePart := strings.ReplaceAll part1 ":" "" in
        datePart +:+ "_" +:+ timePart
    | _ => sentDate
    end.

(** [sanitizeFilename]. *)
Definition invalidChars : list string :=
  ["/"; "\"; ":"; "*"; "?"; String dquote ""; "<"; ">"; "|"].

Definition sanitizeFilename (name : string) : string :=
  fold_left (fun name char => strings.ReplaceAll name char "_") invalidChars name.

(** [sanitizeFilename(fmt.Sprintf("%s %s.eml", newTime, record.Subject))], the
    name [renameFile] and [renameFileTo] both derive. *)
Definition newName (record : EmailRecord) : string :=
  let newTime := formatTime (SentDate record) in
  sanitizeFilename (newTime +:+ " " +:+ Subject record +:+ ".eml").

(** [crawler], the closure of [extractUrls]: [urls] is the slice it appends
    to, passed in and handed back. *)
Fixpoint crawler (n : html.Node) (urls : list string) : list string :=
  let urls :=
    if html.NodeType_eqb (html.Type_ n) html.ElementNode && String.eqb (html.Data n) "a"
    then
      fold_left
        (fun urls attr =>
           if String.eqb (html.Key attr) "href" && strings.HasPrefix (html.Val attr) "http"
           then urls ++ [html.Val attr]
           else urls)
        (html.Attr n) urls
    else urls
  in
  fold_left (fun urls c => crawler c urls) (html.Children n) urls.

(** The loop of [extractUrls] over [urls], with the map [unique] as a set. *)
Fixpoint unique_loop (urls : list string) (unique : gset string)
    (result : list string) : list string :=
  match urls with
  | [] => result
  | u :: rest =>
      if decide (u ∈ unique)
      then unique_loop rest unique result
      else unique_loop rest ({[u]} ∪ unique) (result ++ [u])
  end.

(** What the caller asked for on the command line. *)
Record Options : Type := mkOptions {
  htmlOutDir : string;
  renameByHeader : bool;
  renameByHeaderTo : string;
  inputRoot : string
}.

(** The calls of a worker that touch the file system, in the order made. *)
Inductive Call : Type :=
| call_writeHtmlFile (filePath inputRoot htmlOutDir htmlContent : string)
| call_renameFileTo (filePath inputRoot outputDir : string) (record : EmailRecord)
| call_renameFile (filePath : string) (record : EmailRecord).

(** [type task] and [type result]. *)
Record task : Type := mkTask { path : string }.

Record result : Type := mkResult { record : EmailRecord; err : option error }.

(** The part of a worker's loop body after [processEmlFile] succeeded: the
    HTML dump, then the copy or the rename. *)
Definition sideEffects (o : Options) (filePath : string) (rec : EmailRecord)
    (htmlContent : string) : list Call :=
  (if negb (String.eqb (htmlOutDir o) "")
   then [call_writeHtmlFile filePath (inputRoot o) (htmlOutDir o) htmlContent]
   else [])
  ++
  (if negb (String.eqb (renameByHeaderTo o) "")
   then [call_renameFileTo filePath (inputRoot o) (renameByHeaderTo o) rec]
   else if renameByHeader o
        then [call_renameFile filePath rec]
        else []).

Section Program.

Context `{GoLibs}.

(** [extractUrls]. *)
Definition extractUrls (htmlContent : string) : list string :=
  if String.eqb (strings.TrimSpace htmlContent) "" then []
  else
    match html_Parse htmlContent with
    | Err _ => regexp.FindAllString urlRegex htmlContent
    | Ok doc => unique_loop (crawler doc []) ∅ []
    end.

(** The loop of [processEmlFile] that fills [urlDomains]. *)
Definition urlDomains_of (urls : list string) : list string :=
  fold_left
    (fun urlDomains u =>
       match url_Parse u with
       | Ok parsed => urlDomains ++ [Host parsed]
       | Err _ => urlDomains
       end)
    urls [].

(** The loop of [processEmlFile] over the parts of the message. *)
Fixpoint htmlContent_of (parts : list (Res Part)) : Res string :=
  match parts with
  | [] => Ok ""
  | Err e :: _ => Err e
  | Ok p :: rest =>
      let ct := p_Header_Get p "Content-Type" in
      if strings.HasPrefix ct "text/html"
      then match p_Body p with
           | Err _ => htmlContent_of rest
           | Ok body => Ok body
           end
      else htmlContent_of rest
  end.

(** The first address of a header field, if the list parsed and has one. *)
Definition first_address (l : Res (list MailAddress)) : string * string :=
  match l with
  | Ok (a :: _) => (Name a, Address a)
  | _ => ("", "")
  end.

(** [processEmlFile]. *)
Definition processEmlFile (filePath : string) : Res (EmailRecord * string) :=
  match os_Open filePath with
  | Err e => Err e
  | Ok f =>
  match mail_CreateReader f with
  | Err e => Err e
  | Ok mr =>
      let h := r_Header mr in
      let subject := match h_Subject h with Ok s => s | Err _ => "" end in
      let '(fromName, fromEmail) := first_address (h_AddressList h "From") in
      let '(toName, toEmail) := first_address (h_AddressList h "To") in
      let sentDate :=
        match h_Date h with
        | Ok date => Time_Format date "2006-01-02 15:04:05"
        | Err _ => ""
        end in
      let originIP := h_Get h "X-Originating-IP" in
      match htmlContent_of (r_Parts mr) with
      | Err e => Err e
      | Ok htmlContent =>
          let urls := extractUrls htmlContent in
          let urlList := strings.Join urls (String "010" "") in
          let urlDomains := urlDomains_of urls in
          let folder := filepath_Base (filepath_Dir filePath) in
          let originalFile := filepath_Base filePath in
          Ok ({| Folder := folder;
                 Subject := subject;
                 FromName := fromName;
                 FromEmail := fromEmail;
                 ToName := toName;
                 ToEmail := toEmail;
                 SentDate := sentDate;
                 IP := strings.ReplaceAll originIP "," (String "010" "");
                 URLs := urlList;
                 URLDomains := strings.Join urlDomains (String "010" "");
                 OriginalFile := originalFile |},
              htmlContent)
      end
  end
  end.

(** [renameFile]: the path handed to [os.Rename] as the new one. *)
Definition renameFile_newPath (filePath : string) (rec : EmailRecord) : string :=
  filepath_Join (filepath_Dir filePath) (newName rec).

(** [renameFileTo]: the path the copy is created at. *)
Definition renameFileTo_newPath (filePath inputRoot outputDir : string)
    (rec : EmailRecord) : Res string :=
  match filepath_Rel inputRoot filePath with
  | Err e => Err e
  | Ok relPath =>
      Ok (filepath_Join outputDir (filepath_Join (filepath_Dir relPath) (newName rec)))
  end.

(** The body of the loop of a worker, for one task: the result it sends and
    the file-system calls it makes before sending. *)
Definition worker_body (o : Options) (t : task) : result * list Call :=
  match processEmlFile (path t) with
  | Err e => (mkResult EmailRecord_zero (Some e), [])
  | Ok (rec, htmlContent) =>
      (mkResult rec None, sideEffects o (path t) rec htmlContent)
  end.

End Program.

(** ** [processFilesConcurrently]: the worker pool

    The goroutines are the main one and [workerCount] workers; they share the
    buffered channels [tasks] and [results] (capacity [len(paths)] each) and
    the wait group.  One step is one channel operation or one run of the loop
    body by one goroutine; any goroutine whose next operation does not block
    may take the next step.  A worker that has not been started yet behaves
    as one that waits on [tasks], so all workers exist from the first
    state on.

    Every loop body here reads the file tree through [os_Open] of the
    imported packages, that is the tree as it is when the batch starts;
    [pool_fs] below makes the tree part of the state. *)

Module pool.

Inductive Worker : Type :=
| Idle                  (* at [for t := range tasks] *)
| Running (t : task)    (* received [t], the loop body still to run *)
| Sending (r : result)  (* at [results <- r] *)
| Exited.               (* after [wg.Done()] *)

Inductive Main : Type :=
| Enqueue (rest : list string)  (* in the loop that sends the tasks *)
| Waiting                      (* [tasks] closed, at [wg.Wait()] *)
| Draining                     (* [results] closed, in the last loop *)
| Finished.                    (* returned [records] *)

Record State : Type := mkState {
  main : Main;
  tasks : list task;
  tasks_closed : bool;
  workers : list Worker;
  wg : nat;
  results : list result;
  sent : list result;      (* every result sent so far, in order of arrival *)
  calls : list Call;       (* every file-system call made so far *)
  records : list EmailRecord
}.

Inductive Actor : Type :=
| MainG
| WorkerG (i : nat).

(** [wg.Add(workerCount)] panics on a negative count; otherwise the loop
    starts [workerCount] workers. *)
Definition start (paths : list string) (workerCount : Z) : option State :=
  if (workerCount <? 0)%Z then None
  else
    let n := Z.to_nat workerCount in
    Some (mkState (Enqueue paths) [] false (replicate n Idle) n [] [] [] []).

Section Steps.

Context `{GoLibs}.
Variable o : Options.
Variable cap : nat.

Definition step_main (s : State) : option State :=
  match main s with
  | Enqueue (p :: rest) =>
      if length (tasks s) <? cap
      then Some (mkState (Enqueue rest) (tasks s ++ [mkTask p]) (tasks_closed s)
                   (workers s) (wg s) (results s) (sent s) (calls s) (records s))
      else None
  | Enqueue [] =>
      Some (mkState Waiting (tasks s) true (workers s) (wg s) (results s)
              (sent s) (calls s) (records s))
  | Waiting =>
      if wg s =? 0
      then Some (mkState Draining (tasks s) (tasks_closed s) (workers s) (wg s)
                   (results s) (sent s) (calls s) (records s))
      else None
  | Draining =>
      match results s with
      | res :: rest =>
          Some (mkState Draining (tasks s) (tasks_closed s) (workers s) (wg s) rest
                  (sent s) (calls s)
                  (match err res with
                   | Some _ => records s
                   | None => records s ++ [record res]
                   end))
      | [] =>
          Some (mkState Finished (tasks s) (tasks_closed s) (workers s) (wg s) []
                  (sent s) (calls s) (records s))
      end
  | Finished => None
  end.

Definition step_worker (i : nat) (s : State) : option State :=
  match workers s !! i with
  | Some Idle =>
      match tasks s with
      | t :: rest =>
          Some (mkState (main s) rest (tasks_closed s) (<[i := Running t]> (workers s))
                  (wg s) (results s) (sent s) (calls s) (records s))
      | [] =>
          if tasks_closed s
          then Some (mkState (main s) [] true (<[i := Exited]> (workers s))
                       (wg s - 1) (results s) (sent s) (calls s) (records s))
          else None
      end
  | Some (Running t) =>
      let '(r, cs) := worker_body o t in
      Some (mkState (main s) (tasks s) (tasks_closed s) (<[i := Sending r]> (workers s))
              (wg s) (results s) (sent s) (calls s ++ cs) (records s))
  | Some (Sending r) =>
      if length (results s) <? cap
      then Some (mkState (main s) (tasks s) (tasks_closed s) (<[i := Idle]> (workers s))
                   (wg s) (results s ++ [r]) (sent s ++ [r]) (calls s) (records s))
      else None
  | Some Exited | None => None
  end.

Definition step_of (a : Actor) (s : State) : option State :=
  match a with
  | MainG => step_main s
  | WorkerG i => step_worker i s
  end.

(** One step of some goroutine. *)
Definition step (s s' : State) : Prop := exists a, step_of a s = Some s'.

(** The states a run can pass through. *)
Inductive reachable (s0 : State) : State -> Prop :=
| reach_start : reachable s0 s0
| reach_step s s' : reachable s0 s -> step s s' -> reachable s0 s'.

(** Run the goroutines in the order a schedule names them; a goroutine that
    is blocked when named is passed over. *)
Fixpoint run (schedule : list Actor) (s : State) : State :=
  match schedule with
  | [] => s
  | a :: rest =>
      match step_of a s with
      | Some s' => run rest s'
      | None => run rest s
      end
  end.

End Steps.

(** [processFilesConcurrently] returns [recs] on some run. *)
Definition processFilesConcurrently `{GoLibs} (paths : list string)
    (workerCount : Z) (o : Options) (recs : list EmailRecord) : Prop :=
  exists s0 s,
    start paths workerCount = Some s0 /\
    reachable o (length paths) s0 s /\
    main s = Finished /\ records s = recs.

End pool.

(** ** The enmime based variant ([walkDirectory], [scanDirectoryOnce]) *)

Module Sequential.

(** The pattern of [parseAddress] (main.go 191), its parts in the order of
    the source.  Under the flag [(?i)] and between [^] and [$]: an optional
    group of an optional double quote, the first capture (any runes but a
    double quote), an optional double quote and white space; then an
    optional [<], the second capture (one or more bytes of a local part,
    [@], one or more bytes of a domain, a dot, two letters or more), and an
    optional [>]. *)
Definition letter_byte (c : ascii) : bool := submatch.lower c || submatch.upper c.

Definition local_byte (c : ascii) : bool :=
  letter_byte c || submatch.digit c || submatch.one_of "._%+-" c.

Definition domain_byte (c : ascii) : bool :=
  letter_byte c || submatch.digit c || submatch.one_of ".-" c.

Definition quote : submatch.Regexp := submatch.One (submatch.byte dquote).

Definition white_space : submatch.Step := submatch.class regexp.perl_space [].

Definition local_part : submatch.Step :=
  submatch.class local_byte submatch.folds_to_letter.

Definition domain : submatch.Step :=
  submatch.class domain_byte submatch.folds_to_letter.

Definition letters : submatch.Step :=
  submatch.class letter_byte submatch.folds_to_letter.

Definition behind_name : submatch.Regexp :=
  submatch.Cat (submatch.Quest quote) (submatch.Many white_space 0).

Definition name_part : submatch.Regexp :=
  submatch.Cat (submatch.Quest quote)
    (submatch.Cat (submatch.Group 1 (submatch.Many (submatch.rune_but dquote) 0))
       behind_name).

Definition addr_spec : submatch.Regexp :=
  submatch.Cat (submatch.Many local_part 1)
    (submatch.Cat (submatch.One (submatch.byte "@"))
       (submatch.Cat (submatch.Many domain 1)
          (submatch.Cat (submatch.One (submatch.byte "."))
             (submatch.Many letters 2)))).

Definition address_part : submatch.Regexp :=
  submatch.Cat (submatch.Quest (submatch.One (submatch.byte "<")))
    (submatch.Cat (submatch.Group 2 addr_spec)
       (submatch.Quest (submatch.One (submatch.byte ">")))).

Definition address_regexp : submatch.Regexp :=
  submatch.Cat (submatch.Quest name_part) address_part.

Section Program.

Context `{GoLibs}.

(** [parseAddress]. *)
Definition parseAddress (input : string) : string * string :=
  match mail_ParseAddress input with
  | Ok addr => (Name addr, Address addr)
  | Err _ =>
      match submatch.FindStringSubmatch address_regexp 2 (strings.TrimSpace input) with
      | [_; match1; match2] => (strings.TrimSpace match1, strings.TrimSpace match2)
      | _ => ("", strings.Trim input (String " " (String dquote "")))
      end
  end.

(** [processEmlFile]. *)
Definition processEmlFile (filePath : string) : Res (EmailRecord * string) :=
  match os_Open filePath with
  | Err e => Err e
  | Ok file =>
  match enmime_ReadEnvelope file with
  | Err e => Err e
  | Ok env =>
      let '(fromName, fromEmail) := parseAddress (Root_Header_Get env "From") in
      let '(toName, toEmail) := parseAddress (Root_Header_Get env "To") in
      let subject := GetHeader env "Subject" in
      let originIP := strings.Trim (Root_Header_Get env "X-Originating-IP") "[]" in
      let dateStr := Root_Header_Get env "Date" in
      let sentDate :=
        if negb (String.eqb dateStr "")
        then match mail_ParseDate dateStr with
             | Ok t => Time_Format t "2006-01-02 15:04:05"
             | Err _ => ""
             end
        else "" in
      let urls := extractUrls (HTML env) in
      let urlList := strings.Join urls (String "010" "") in
      let urlDomains := urlDomains_of urls in
      let folder := filepath_Base (filepath_Dir filePath) in
      let originalFile := filepath_Base filePath in
      Ok ({| Folder := folder;
             Subject := subject;
             FromName := fromName;
             FromEmail := fromEmail;
             ToName := toName;
             ToEmail := toEmail;
             SentDate := sentDate;
             IP := strings.ReplaceAll originIP "," (String "010" "");
             URLs := urlList;
             URLDomains := strings.Join urlDomains (String "010" "");
             OriginalFile := originalFile |},
          HTML env)
  end
  end.

(** What [walkDirectory] and [scanDirectoryOnce] do for one file that
    [shouldProcessFile] accepts: the record appended, if any, and the
    file-system calls made. *)
Definition visit_file (o : Options) (filePath : string) : option EmailRecord * list Call :=
  match processEmlFile filePath with
  | Err _ => (None, [])
  | Ok (rec, htmlContent) => (Some rec, sideEffects o filePath rec htmlContent)
  end.

End Program.

End Sequential.

(** ** A small world to run the model in

    Three message files and one that is no message, a parser that knows the
    document of the specification's example, and a URL parser that rejects a
    URL holding a space and otherwise reads the host between the double
    slash and the next slash. *)

Module Sample.

(** The body of the end-to-end example of the specification. *)
Definition example_body : string :=
  "<a href=" +:+ String dquote "http://a.com/x" +:+ String dquote ">x</a>"
  +:+ "<a href=" +:+ String dquote "http://a.com/x" +:+ String dquote ">dup</a>"
  +:+ "<a href=" +:+ String dquote "mailto:y@z.com" +:+ String dquote ">skip</a>".

Definition element (name : string) (attr : list html.Attribute)
    (children : list html.Node) : html.Node :=
  html.mkNode html.ElementNode name attr children.

Definition text (s : string) : html.Node := html.mkNode html.TextNode s [] [].

Definition anchor (href label : string) : html.Node :=
  element "a" [html.mkAttribute "" "href" href] [text label].

(** The tree [html.Parse] builds for [example_body]: the document, its
    [html] element, an empty [head], and the three anchors in [body]. *)
Definition example_doc : html.Node :=
  html.mkNode html.DocumentNode "" []
    [element "html" []
       [element "head" [] [];
        element "body" []
          [anchor "http://a.com/x" "x";
           anchor "http://a.com/x" "dup";
           anchor "mailto:y@z.com" "skip"]]].

Definition empty_doc : html.Node :=
  html.mkNode html.DocumentNode "" []
    [element "html" [] [element "head" [] []; element "body" [] []]].

(** A text the sample parser gives up on. *)
Definition broken_body : string :=
  "#see http://a.com/x and 'https://b.org/y?q=1' or http://a.com/x" +:+ String "010" "http:// https://".

Definition sample_html_Parse (s : string) : Res html.Node :=
  if String.eqb s example_body then Ok example_doc
  else if String.prefix "#" s then Err "html: cannot read"
  else Ok empty_doc.

(** The bytes of [s] before the first [c]. *)
Fixpoint before (c : ascii) (s : string) : string :=
  match s with
  | "" => ""
  | String x s' => if Ascii.eqb x c then "" else String x (before c s')
  end.

(** [s] after the first occurrence of a double slash, if there is one. *)
Fixpoint after_slashes (s : string) : option string :=
  match s with
  | "" => None
  | String x s' =>
      if String.prefix "//" s then Some (strings.drop 1 s') else after_slashes s'
  end.

Definition has_byte (c : ascii) (s : string) : bool :=
  existsb (Ascii.eqb c) (strings.bytes s).

Definition sample_url_Parse (u : string) : Res URL :=
  if has_byte " " u then Err "parse: invalid character in host name"
  else match after_slashes u with
       | Some rest => Ok (mkURL (before "/" rest))
       | None => Ok (mkURL "")
       end.

(** The zero time, formatted: what [h.Date()] of go-message answers, with a
    nil error, for a header without a Date field. *)
Definition zero_time : string := "0001-01-01 00:00:00".

(** The header of a sample message.  An empty [date] stands for a message
    without a Date field, a [date] that starts with a question mark for a
    Date field that does not parse. *)
Definition sample_header (subject date ip : string) : Header string :=
  mkHeader (Ok subject)
    (fun key => if String.eqb key "From"
                then Ok [mkMailAddress "Ann" "ann@a.com"]
                else if String.eqb key "To"
                     then Err "mail: missing '@' or angle-addr"
                     else Ok [])
    (if String.eqb date "" then Ok zero_time
     else if String.prefix "?" date then Err "mail: header could not be parsed"
          else Ok date)
    (fun key => if String.eqb key "X-Originating-IP" then ip
                else if String.eqb key "Date" then date
                     else if String.eqb key "To" then "Bob bob@b.org" else "").

Definition html_part (body : string) : Res Part :=
  Ok (mkPart (fun _ => "text/html; charset=utf-8") (Ok body)).

Definition plain_part (body : string) : Res Part :=
  Ok (mkPart (fun _ => "text/plain") (Ok body)).

Definition sample_CreateReader (f : string) : Res (Reader string) :=
  if String.eqb f "A"
  then Ok (mkReader (sample_header "Re: Q1" "2024-03-26 15:30:15" "[10.0.0.1]")
             [plain_part "x"; html_part example_body])
  else if String.eqb f "B"
  then Ok (mkReader (sample_header "hello" "" "[10.0.0.1],[10.0.0.2]")
             [html_part broken_body])
  else if String.eqb f "C"
  then Ok (mkReader (sample_header "no html" "2024-01-02 03:04:05" "") [plain_part "x"])
  else if String.eqb f "D"
  then Ok (mkReader (sample_header "late" "?yesterday" "") [plain_part "x"])
  else Err "mail: not a message".

Definition sample_ReadEnvelope (f : string) : Res Envelope :=
  if String.eqb f "A"
  then Ok (mkEnvelope
             (fun key =>
                if String.eqb key "From" then "Ann <ann@a.com>"
                else if String.eqb key "X-Originating-IP" then "[10.0.0.1]"
                else "")
             (fun _ => "Re: Q1") example_body)
  else Err "enmime: not a message".

Definition sample_Open (p : string) : Res string :=
  if String.eqb p "in/a.eml" then Ok "A"
  else if String.eqb p "in/b.eml" then Ok "B"
  else if String.eqb p "in/c.eml" then Ok "C"
  else if String.eqb p "in/d.eml" then Ok "D"
  else if String.eqb p "in/bad.eml" then Ok "BAD"
  else Err "open: no such file".

Definition sample_ParseAddress (s : string) : Res MailAddress :=
  if String.eqb s "Ann <ann@a.com>" then Ok (mkMailAddress "Ann" "ann@a.com")
  else Err "mail: no angle-addr".

Definition libs : GoLibs := {|
  File := string;
  Time := string;
  os_Open := sample_Open;
  mail_CreateReader := sample_CreateReader;
  enmime_ReadEnvelope := sample_ReadEnvelope;
  Time_Format := fun t _ => t;
  mail_ParseDate := fun s => Ok s;
  mail_ParseAddress := sample_ParseAddress;
  html_Parse := sample_html_Parse;
  url_Parse := sample_url_Parse;
  filepath_Base := fun p => p;
  filepath_Dir := fun p => before "/" p;
  filepath_Ext := fun _ => ".eml";
  filepath_Join := fun a b => a +:+ "/" +:+ b;
  filepath_Rel := fun _ p => Ok p
|}.

Definition no_options : Options := mkOptions "" false "" "in".
Definition both_renames : Options := mkOptions "" true "out" "in".

End Sample.

(** ** Notions the properties are stated with *)

(** The bytes [sanitizeFilename] replaces. *)
Definition invalid_byte (c : ascii) : bool :=
  existsb (fun char => String.eqb char (String c "")) invalidChars.

Definition sanitize_byte (c : ascii) : ascii :=
  if invalid_byte c then "_"%char else c.

(** An anchor element, and the values of its [href] attributes that start
    with http. *)
Definition is_anchor (n : html.Node) : bool :=
  html.NodeType_eqb (html.Type_ n) html.ElementNode && String.eqb (html.Data n) "a".

Definition http_href (attr : html.Attribute) : option string :=
  if String.eqb (html.Key attr) "href" && strings.HasPrefix (html.Val attr) "http"
  then Some (html.Val attr)
  else None.

(** The links of a document in document order: those of a node, then those
    of its children from left to right. *)
Fixpoint anchor_hrefs (n : html.Node) : list string :=
  (if is_anchor n then omap http_href (html.Attr n) else [])
  ++ concat (map anchor_hrefs (html.Children n)).

(** A list without its repetitions: every value stays where it occurs
    first. *)
Fixpoint first_occurrences (l : list string) : list string :=
  match l with
  | [] => []
  | x :: l' => x :: List.filter (fun y => negb (String.eqb y x)) (first_occurrences l')
  end.

(** Length of the longest run of bytes in [p] at the head of [s]. *)
Fixpoint run_length (p : ascii -> bool) (s : string) : nat :=
  match s with
  | String c s' => if p c then S (run_length p s') else 0
  | "" => 0
  end.

(** [m] is a URL match at the head of [s]: one of the two schemes with its
    colon and slashes, then the longest run of bytes that are neither white
    space nor quotes, which is not empty. *)
Definition url_match_here (s m : string) : Prop :=
  exists scheme run rest,
    (scheme = "http://" \/ scheme = "https://")
    /\ m = scheme +:+ run
    /\ s = m +:+ rest
    /\ run <> ""
    /\ Forall (fun c => url_char c = true) (strings.bytes run)
    /\ match rest with
       | "" => True
       | String c _ => url_char c = false
       end.

(** The matches of a text in textual order: where no match starts the scan
    moves on by one byte, where one starts it is recorded and the scan goes
    on behind it. *)
Inductive url_scan : string -> list string -> Prop :=
| scan_end : url_scan "" []
| scan_skip c s ms :
    (forall m, ~ url_match_here (String c s) m) ->
    url_scan s ms ->
    url_scan (String c s) ms
| scan_match m rest ms :
    url_match_here (m +:+ rest) m ->
    url_scan rest ms ->
    url_scan (m +:+ rest) (m :: ms).

(** The scheme a text starts with, and the length of the URL match at its
    head. *)
Definition scheme_at (s : string) : option string :=
  if String.prefix "https://" s then Some "https://"
  else if String.prefix "http://" s then Some "http://"
  else None.

Definition url_at (s : string) : option nat :=
  match scheme_at s with
  | Some scheme =>
      match run_length url_char (strings.drop (String.length scheme) s) with
      | 0 => None
      | S k => Some (String.length scheme + S k)
      end
  | None => None
  end.

(** The calls that rename in place and the calls that copy to a target. *)
Definition is_renameFile (c : Call) : bool :=
  match c with call_renameFile _ _ => true | _ => false end.

Definition is_renameFileTo (c : Call) : bool :=
  match c with call_renameFileTo _ _ _ _ => true | _ => false end.

(** [c] is one of the bytes of [cutset]. *)
Definition in_cutset (cutset : string) (c : ascii) : bool :=
  existsb (Ascii.eqb c) (strings.bytes cutset).

(** [s] without its leading bytes in [p]. *)
Fixpoint strip (p : ascii -> bool) (s : string) : string :=
  match s with
  | "" => ""
  | String c s' => if p c then strip p s' else s
  end.

(** [t] is [s] with bytes of [cutset] taken off at both ends, as many as
    there are. *)
Definition trimmed_of (cutset s t : string) : Prop :=
  (exists pre post,
      s = pre +:+ t +:+ post
      /\ Forall (fun c => in_cutset cutset c = true) (strings.bytes pre)
      /\ Forall (fun c => in_cutset cutset c = true) (strings.bytes post))
  /\ match t with "" => True | String c _ => in_cutset cutset c = false end
  /\ match String.rev t with "" => True | String c _ => in_cutset cutset c = false end.

(** Notions for the pattern of [parseAddress]. *)

(** An ASCII byte. *)
Definition is_ascii (c : ascii) : bool := nat_of_ascii c <? 128.

(** A text of ASCII bytes that holds no double quote: what the first group
    of the pattern can take, byte by byte. *)
Definition plain_text (s : string) : Prop :=
  Forall (fun c => is_ascii c = true /\ c <> dquote) (strings.bytes s).

(** The bytes of [s] all satisfy [p]. *)
Definition all_bytes (p : ascii -> bool) (s : string) : Prop :=
  Forall (fun c => p c = true) (strings.bytes s).

(** Notions for the worker pool. *)

Module pool_spec.

Import pool.

Section Spec.

Context `{GoLibs}.
Variable o : Options.

(** The result a worker sends for a path. *)
Definition result_of (p : string) : result := fst (worker_body o (mkTask p)).

(** The records of the results that carry no error, in the order given. *)
Definition successes (l : list result) : list EmailRecord :=
  omap (fun r => match err r with None => Some (record r) | Some _ => None end) l.

(** The number of paths on which the pipeline fails. *)
Definition failures (paths : list string) : nat :=
  length (List.filter (fun p => negb (is_Ok (processEmlFile p))) paths).

(** The paths the main goroutine still has to send. *)
Definition pending (m : Main) : list string :=
  match m with Enqueue rest => rest | _ => [] end.

(** The result a worker has in hand. *)
Definition owed_of (w : Worker) : list result :=
  match w with
  | Running t => [result_of (path t)]
  | Sending r => [r]
  | Idle | Exited => []
  end.

(** The results that are still to be sent. *)
Definition owed (s : State) : list result :=
  map result_of (pending (main s))
  ++ map (fun t => result_of (path t)) (tasks s)
  ++ concat (map owed_of (workers s)).

Definition alive (w : Worker) : bool :=
  match w with Exited => false | _ => true end.

(** A bound on the number of steps a state is away from the end. *)
Definition main_weight (m : Main) : nat :=
  match m with
  | Enqueue rest => 5 * length rest + 3
  | Waiting => 2
  | Draining => 1
  | Finished => 0
  end.

Definition worker_weight (w : Worker) : nat :=
  match w with
  | Running _ => 4
  | Sending _ => 3
  | Idle => 1
  | Exited => 0
  end.

Definition measure (s : State) : nat :=
  main_weight (main s) + 4 * length (tasks s)
  + list_sum (map worker_weight (workers s)) + length (results s).

Variable paths : list string.
Variable n : nat.

(** What holds in every state of a run that started with [n] workers. *)
Record Inv (s : State) : Prop := mkInv {
  inv_perm : Permutation (sent s ++ owed s) (map result_of paths);
  inv_drained :
    exists drained, sent s = drained ++ results s /\ records s = successes drained;
  inv_wg : wg s = length (List.filter alive (workers s));
  inv_closed : tasks_closed s = false <-> exists rest, main s = Enqueue rest;
  inv_exit :
    (exists i, workers s !! i = Some Exited) -> tasks s = [] /\ tasks_closed s = true;
  inv_done :
    main s = Draining \/ main s = Finished -> Forall (fun w => w = Exited) (workers s);
  inv_fin : main s = Finished -> results s = [];
  inv_len : length (workers s) = n;
  inv_cap : length (tasks s) + length (pending (main s)) <= length paths
}.

End Spec.

End pool_spec.

Section UrlNotions.

Context `{GoLibs}.

(** The host of [u], when [u] parses. *)
Definition host_of (u : string) : option string :=
  match url_Parse u with
  | Ok parsed => Some (Host parsed)
  | Err _ => None
  end.

Definition parses (u : string) : bool := is_Ok (url_Parse u).

End UrlNotions.

(** Sample inputs for the worker pool and the file name derivation. *)

Module SampleRun.

Definition batch : list string := ["in/a.eml"; "in/bad.eml"; "in/c.eml"].

(** Main sends everything and closes, the workers take turns, main drains. *)
Definition fair (workerCount : nat) : list pool.Actor :=
  repeat pool.MainG 4
  ++ concat (repeat (map pool.WorkerG (seq 0 workerCount)) 12)
  ++ repeat pool.MainG 6.

(** The second worker runs ahead of the first. *)
Definition second_first : list pool.Actor :=
  repeat pool.MainG 4
  ++ [pool.WorkerG 0] ++ repeat (pool.WorkerG 1) 6
  ++ concat (repeat [pool.WorkerG 1; pool.WorkerG 0] 12)
  ++ repeat pool.MainG 6.

Definition records_of (workerCount : Z) (schedule : list pool.Actor) : list string :=
  match pool.start batch workerCount with
  | Some s0 =>
      map OriginalFile
        (pool.records (pool.run (H := Sample.libs) Sample.no_options (length batch)
                         schedule s0))
  | None => []
  end.

Definition dated : EmailRecord :=
  mkEmailRecord "" "in" "Re: Q1" "" "" "" "" "2024-03-26 15:30:15" "" "" "a.eml".

Definition dated_elsewhere : EmailRecord :=
  mkEmailRecord "a.com" "out" "Re: Q1" "Ann" "ann@a.com" "" ""
    "2024-03-26 15:30:15" "10.0.0.1" "http://a.com/x" "b.eml".

Definition quoted_junk : string := " " +:+ String dquote "junk" +:+ String dquote " ".

End SampleRun.


(** ** The rest of the program

    The functions around the pipeline: which files are candidates, how the
    paths are collected, the sequential go-message variant that the
    concurrent one replaced, and what the three file-system procedures ask
    of the operating system. *)

(** [strings.HasSuffix] and [strings.TrimSuffix]. *)
Definition HasSuffix (s suffix : string) : bool :=
  (String.length suffix <=? String.length s)
  && String.eqb (strings.drop (String.length s - String.length suffix) s) suffix.

Definition TrimSuffix (s suffix : string) : string :=
  if HasSuffix s suffix
  then strings.take (String.length s - String.length suffix) s
  else s.

(** ** Package [path/filepath]: [Match] for a star and a literal

    [filepath.Match(pattern, name)] for a pattern that is one star followed
    by the literal [chunk], on a system whose separator is the slash: the
    literal is tried on the whole name first, then behind every byte that a
    star may pass, and a star passes no separator.  The last chunk of a
    pattern has to take the name to its end. *)

Module filepath.

Definition Separator : ascii := "/"%char.

(** The loop [for i := 0; i < len(name) && name[i] != Separator; i++]: [name]
    is what is left from index [i] on, and the chunk is tried on
    [name[i+1:]]. *)
Fixpoint match_behind_star (chunk name : string) : bool :=
  match name with
  | "" => false
  | String c rest =>
      if Ascii.eqb c Separator then false
      else if String.eqb rest chunk then true
      else match_behind_star chunk rest
  end.

Definition Match_star (chunk name : string) : bool :=
  if String.eqb name chunk then true else match_behind_star chunk name.

End filepath.

(** [shouldProcessFile]: [filepath.Match] with the pattern of a star and
    .eml; the pattern is well formed, so the error that is dropped is
    always nil. *)
Definition shouldProcessFile (name : string) : bool :=
  filepath.Match_star ".eml" name.

(** [os.DirEntry], as far as the program reads it. *)
Record DirEntry : Type := mkDirEntry { d_Name : string; d_IsDir : bool }.


(** What a procedure asks of the operating system.  Permissions are the
    numbers 0755 = 493 and 0644 = 420. *)
Inductive SysCall : Type :=
| sys_MkdirAll (path : string) (perm : nat)
| sys_WriteFile (path content : string) (perm : nat)
| sys_Rename (oldpath newpath : string)
| sys_Open (path : string)
| sys_Create (path : string)
| sys_Copy (dst src : string)
| sys_Close (path : string).

(** The answers of the operating system: the error of a call, if it fails. *)
Definition OS : Type := SysCall -> option error.

Section Around.

Context `{GoLibs}.

(** [collectFilePathsNonRecursive]; [readDir] is what [os.ReadDir(root)]
    returns. *)
Definition collectFilePathsNonRecursive (readDir : Res (list DirEntry))
    (root : string) : Res (list string) :=
  match readDir with
  | Err e => Err e
  | Ok entries =>
      Ok (fold_left
            (fun paths entry =>
               if negb (d_IsDir entry) && shouldProcessFile (d_Name entry)
               then paths ++ [filepath_Join root (d_Name entry)]
               else paths)
            entries [])
  end.



(** [writeHtmlFile]: the calls made and the error returned. *)
Definition writeHtmlFile (os : OS) (filePath inputRoot htmlOutDir htmlContent : string)
    : list SysCall * option error :=
  match filepath_Rel inputRoot filePath with
  | Err e => ([], Some e)
  | Ok relPath =>
      let newRelPath := TrimSuffix relPath (filepath_Ext relPath) +:+ ".html" in
      let outPath := filepath_Join htmlOutDir newRelPath in
      let mkdir := sys_MkdirAll (filepath_Dir outPath) 493 in
      match os mkdir with
      | Some e => ([mkdir], Some e)
      | None =>
          let write := sys_WriteFile outPath htmlContent 420 in
          ([mkdir; write], os write)
      end
  end.

(** [renameFile]. *)
Definition renameFile (os : OS) (filePath : string) (rec : EmailRecord)
    : list SysCall * option error :=
  let rename := sys_Rename filePath (renameFile_newPath filePath rec) in
  ([rename], os rename).

(** [renameFileTo].  The deferred [Close] calls run when the function
    returns, the last deferred first; their errors are dropped. *)
Definition renameFileTo (os : OS) (filePath inputRoot outputDir : string)
    (rec : EmailRecord) : list SysCall * option error :=
  match renameFileTo_newPath filePath inputRoot outputDir rec with
  | Err e => ([], Some e)
  | Ok newPath =>
      let mkdir := sys_MkdirAll (filepath_Dir newPath) 493 in
      match os mkdir with
      | Some e => ([mkdir], Some e)
      | None =>
          let open := sys_Open filePath in
          match os open with
          | Some e => ([mkdir; open], Some e)
          | None =>
              let create := sys_Create newPath in
              match os create with
              | Some e => ([mkdir; open; create; sys_Close filePath], Some e)
              | None =>
                  let copy := sys_Copy newPath filePath in
                  ([mkdir; open; create; copy; sys_Close newPath; sys_Close filePath],
                   os copy)
              end
          end
      end
  end.

(** What a call of a worker does with the operating system; the worker logs
    the error and goes on. *)
Definition perform (os : OS) (c : Call) : list SysCall :=
  match c with
  | call_writeHtmlFile filePath inputRoot htmlOutDir htmlContent =>
      fst (writeHtmlFile os filePath inputRoot htmlOutDir htmlContent)
  | call_renameFileTo filePath inputRoot outputDir rec =>
      fst (renameFileTo os filePath inputRoot outputDir rec)
  | call_renameFile filePath rec => fst (renameFile os filePath rec)
  end.

End Around.

(** ** The sequential go-message variant

    Its [processEmlFile] is that of the concurrent variant without the
    buffered reader. *)

Module SequentialGoMessage.

Section Program.

Context `{GoLibs}.

(** The function of [walkDirectory] for a file that [shouldProcessFile]
    accepts, in the file tree of [os_Open]. *)
Definition visit_file (o : Options) (filePath : string)
    (acc : list EmailRecord * list Call) : list EmailRecord * list Call :=
  match processEmlFile filePath with
  | Err _ => acc
  | Ok (rec, htmlContent) =>
      (fst acc ++ [rec], snd acc ++ sideEffects o filePath rec htmlContent)
  end.



End Program.

End SequentialGoMessage.

(** ** Notions for the further properties *)

(** [s] holds the byte [c]. *)
Definition has_byte (c : ascii) (s : string) : Prop := In c (strings.bytes s).

(** A part that the loop of [processEmlFile] passes over: it is not HTML, or
    its body cannot be read. *)
Definition passed_over (p : Part) : bool :=
  negb (strings.HasPrefix (p_Header_Get p "Content-Type") "text/html")
  || negb (is_Ok (p_Body p)).

(** More notions for the worker pool. *)

Module pool_more.

Import pool pool_spec.

Section Spec.

Context `{GoLibs}.
Variable o : Options.

(** The file-system calls a worker makes for a path. *)
Definition calls_of (p : string) : list Call := snd (worker_body o (mkTask p)).

(** The calls a worker still has to make for the task in its hand. *)
Definition calls_owed_of (w : Worker) : list Call :=
  match w with
  | Running t => calls_of (path t)
  | Idle | Sending _ | Exited => []
  end.



(** The paths [collectFilePathsNonRecursive] collects from the entries of
    [root]. *)
Definition candidates (root : string) (entries : list DirEntry) : list string :=
  omap (fun entry =>
          if negb (d_IsDir entry) && shouldProcessFile (d_Name entry)
          then Some (filepath_Join root (d_Name entry))
          else None)
    entries.

End Spec.

End pool_more.

(** The handles that are open after the calls of [trace], the one opened
    last first, when [handles] were open before; [None] when a handle is
    closed that is not the one opened last.  A handle is opened by a call
    of [os.Open] or [os.Create] that succeeds. *)
Fixpoint open_handles (os : OS) (trace : list SysCall) (handles : list string)
    : option (list string) :=
  match trace with
  | [] => Some handles
  | c :: rest =>
      match c with
      | sys_Open p | sys_Create p =>
          open_handles os rest
            (match os c with None => p :: handles | Some _ => handles end)
      | sys_Close p =>
          match handles with
          | q :: others =>
              if String.eqb p q then open_handles os rest others else None
          | [] => None
          end
      | _ => open_handles os rest handles
      end
  end.

(** The call changes what is stored under [p]: it writes, creates or renames
    it. *)
Definition overwrites (p : string) (c : SysCall) : bool :=
  match c with
  | sys_WriteFile q _ _ | sys_Create q | sys_Copy q _ => String.eqb p q
  | sys_Rename q q' => String.eqb p q || String.eqb p q'
  | sys_MkdirAll _ _ | sys_Open _ | sys_Close _ => false
  end.

(** The system calls a worker makes after [processEmlFile] succeeded. *)
Definition worker_syscalls `{GoLibs} (os : OS) (o : Options) (filePath : string)
    (rec : EmailRecord) (htmlContent : string) : list SysCall :=
  concat (map (perform os) (sideEffects o filePath rec htmlContent)).

(** A second small world: one flat directory, with [filepath.Rel],
    [filepath.Dir] and [filepath.Join] as they work on a file that lies
    directly in the root. *)

Module SampleFlat.

Definition flat_Rel (root p : string) : Res string :=
  if String.prefix (root +:+ "/") p
  then Ok (strings.drop (String.length root + 1) p)
  else Err "Rel: can't make relative".

Definition flat_Dir (p : string) : string :=
  if Sample.has_byte "/" p then Sample.before "/" p else ".".

Definition flat_Join (a b : string) : string :=
  if String.eqb a "." then b else a +:+ "/" +:+ b.

Definition libs : GoLibs := {|
  File := string;
  Time := string;
  os_Open := Sample.sample_Open;
  mail_CreateReader := Sample.sample_CreateReader;
  enmime_ReadEnvelope := Sample.sample_ReadEnvelope;
  Time_Format := fun t _ => t;
  mail_ParseDate := fun s => Ok s;
  mail_ParseAddress := Sample.sample_ParseAddress;
  html_Parse := Sample.sample_html_Parse;
  url_Parse := Sample.sample_url_Parse;
  filepath_Base := fun p => p;
  filepath_Dir := flat_Dir;
  filepath_Ext := fun _ => ".eml";
  filepath_Join := flat_Join;
  filepath_Rel := flat_Rel
|}.

(** A record without a date, and the file a run with renaming in place
    has made of its message. *)
Definition undated : EmailRecord :=
  mkEmailRecord "" "in" "hello" "" "" "" "" "" "" "" "unknown hello.eml".

Definition renamed : string := "in/unknown hello.eml".

(** An operating system on which every call succeeds. *)
Definition willing : OS := fun _ => None.

(** The first worker has taken a task and processed it. *)
Definition one_result_ready : list pool.Actor :=
  [pool.MainG; pool.WorkerG 0; pool.WorkerG 0].

End SampleFlat.

(** A directory listing and a walk for the sample world. *)

Module SampleDir.

Definition entries : list DirEntry :=
  [mkDirEntry "a.eml" false; mkDirEntry "old.eml" true;
   mkDirEntry "notes.txt" false; mkDirEntry "bad.eml" false;
   mkDirEntry "c.eml" false].

Definition with_html : Options := mkOptions "html" false "" "in".


(** An operating system that cannot create files. *)
Definition read_only : OS :=
  fun c => match c with
           | sys_Create _ => Some "create: read-only file system"
           | _ => None
           end.

End SampleDir.

(** ** The pool in a file tree that its own calls change

    [pool] runs every pipeline against one file tree, the one the batch
    starts in.  Here the file tree is part of the state: a worker reads the
    tree as it is when its loop body runs, and the file-system calls of the
    body change it for whoever reads next.  The operating system enters as
    the states [World] of the tree, what [os.Open] returns in a state
    ([look]) and the state a call leaves behind ([effect]).  The channels,
    the wait group and the steps of the goroutines are those of [pool]; a
    loop body is one step, as there. *)

Module pool_fs.

Import pool.

Section Run.

Context `{GoLibs}.
Variable World : Type.
Variable look : World -> string -> Res File.
Variable effect : World -> Call -> World.

(** The imported packages, with [os.Open] reading the tree [w]. *)
Definition libs_in (w : World) : GoLibs := {|
  File := File;
  Time := Time;
  os_Open := look w;
  mail_CreateReader := mail_CreateReader;
  enmime_ReadEnvelope := enmime_ReadEnvelope;
  Time_Format := Time_Format;
  mail_ParseDate := mail_ParseDate;
  mail_ParseAddress := mail_ParseAddress;
  html_Parse := html_Parse;
  url_Parse := url_Parse;
  filepath_Base := filepath_Base;
  filepath_Dir := filepath_Dir;
  filepath_Ext := filepath_Ext;
  filepath_Join := filepath_Join;
  filepath_Rel := filepath_Rel
|}.

(** The goroutines and channels, the file tree, and for every loop body
    that has run, its path and the tree it found. *)
Record Batch : Type := mkBatch {
  st : State;
  world : World;
  log : list (string * World)
}.

Variable o : Options.
Variable cap : nat.

(** The task whose loop body the goroutine runs in its next step. *)
Definition in_hand (a : Actor) (s : State) : option task :=
  match a with
  | WorkerG i =>
      match workers s !! i with
      | Some (Running t) => Some t
      | _ => None
      end
  | MainG => None
  end.

(** One step of a goroutine: the step of [pool] in the tree as it is; a
    loop body leaves the tree as its calls, in their order, make it. *)
Definition step_of (a : Actor) (b : Batch) : option Batch :=
  match pool.step_of (H := libs_in (world b)) o cap a (st b) with
  | None => None
  | Some s' =>
      match in_hand a (st b) with
      | Some t =>
          Some (mkBatch s'
                  (fold_left effect
                     (snd (worker_body (H := libs_in (world b)) o t)) (world b))
                  (log b ++ [(path t, world b)]))
      | None => Some (mkBatch s' (world b) (log b))
      end
  end.

Definition step (b b' : Batch) : Prop := exists a, step_of a b = Some b'.

Inductive reachable (b0 : Batch) : Batch -> Prop :=
| reach_start : reachable b0 b0
| reach_step b b' : reachable b0 b -> step b b' -> reachable b0 b'.

Fixpoint run (schedule : list Actor) (b : Batch) : Batch :=
  match schedule with
  | [] => b
  | a :: rest =>
      match step_of a b with
      | Some b' => run rest b'
      | None => run rest b
      end
  end.

End Run.

Arguments mkBatch {_} _ _ _.
Arguments st {_} _.
Arguments world {_} _.
Arguments log {_} _.

Section Batch.

Context `{GoLibs}.
Variable World : Type.
Variable look : World -> string -> Res File.
Variable effect : World -> Call -> World.

Definition start (paths : list string) (workerCount : Z) (w0 : World)
    : option (Batch World) :=
  match pool.start paths workerCount with
  | Some s0 => Some (mkBatch s0 w0 [])
  | None => None
  end.

(** [processFilesConcurrently] returns [recs] on some run that starts in the
    tree [w0]. *)
Definition processFilesConcurrently (paths : list string) (workerCount : Z)
    (o : Options) (w0 : World) (recs : list EmailRecord) : Prop :=
  exists b0 b,
    start paths workerCount w0 = Some b0 /\
    reachable World look effect o (length paths) b0 b /\
    main (st b) = Finished /\ records (st b) = recs.

End Batch.

End pool_fs.

(** ** The sequential go-message variant in a changing file tree

    [scanDirectoryOnce] reads the directory once and then takes the entries
    in their order; each file is read in the tree that the calls for the
    files before it have left. *)

Module sequential_fs.

Section Program.

Context `{GoLibs}.
Variable World : Type.
Variable look : World -> string -> Res File.
Variable effect : World -> Call -> World.
Variable o : Options.

(** The body of the loop for a file that [shouldProcessFile] accepts: the
    records, the calls made, and the tree. *)
Definition visit_file (filePath : string)
    (acc : list EmailRecord * list Call * World)
    : list EmailRecord * list Call * World :=
  let '(recs, calls, w) := acc in
  match processEmlFile (H := pool_fs.libs_in World look w) filePath with
  | Err _ => acc
  | Ok (rec, htmlContent) =>
      (recs ++ [rec],
       calls ++ sideEffects o filePath rec htmlContent,
       fold_left effect (sideEffects o filePath rec htmlContent) w)
  end.

(** [scanDirectoryOnce]; [readDir] is what [os.ReadDir(inputRoot)]
    returns. *)
Definition scanDirectoryOnce (readDir : Res (list DirEntry)) (w0 : World)
    : Res (list EmailRecord * list Call * World) :=
  match readDir with
  | Err e => Err e
  | Ok entries =>
      Ok (fold_left
            (fun acc entry =>
               if d_IsDir entry then acc
               else if shouldProcessFile (d_Name entry)
                    then visit_file (filepath_Join (inputRoot o) (d_Name entry)) acc
                    else acc)
            entries ([], [], w0))
  end.

End Program.

End sequential_fs.

(** Notions for the pool in a changing file tree. *)

Module pool_fs_spec.

Import pool pool_spec pool_fs.

(** A worker that has a task or a result in hand. *)
Definition busy (w : Worker) : nat :=
  match w with
  | Running _ | Sending _ => 1
  | Idle | Exited => 0
  end.

(** The number of paths that have no result on the result channel yet. *)
Definition owing (s : State) : nat :=
  length (pending (main s)) + length (tasks s) + list_sum (map busy (workers s)).

(** What holds of the goroutines and channels in every state of a run over
    [paths] with [n] workers, whatever the pipelines return. *)
Record Shape (paths : list string) (n : nat) (s : State) : Prop := mkShape {
  sh_count : length (sent s) + owing s = length paths;
  sh_drained :
    exists drained, sent s = drained ++ results s /\ records s = successes drained;
  sh_wg : wg s = length (List.filter alive (workers s));
  sh_closed : tasks_closed s = false <-> exists rest, main s = Enqueue rest;
  sh_exit :
    (exists i, workers s !! i = Some Exited) -> tasks s = [] /\ tasks_closed s = true;
  sh_done :
    main s = Draining \/ main s = Finished -> Forall (fun w => w = Exited) (workers s);
  sh_fin : main s = Finished -> results s = [];
  sh_len : length (workers s) = n;
  sh_cap : length (tasks s) + length (pending (main s)) <= length paths
}.

(** The path a worker has in hand, and the result it has in hand. *)
Definition hand (w : Worker) : list string :=
  match w with Running t => [path t] | _ => [] end.

Definition outbound (w : Worker) : list result :=
  match w with Sending r => [r] | _ => [] end.

Section Spec.

Context `{GoLibs}.
Variable World : Type.
Variable look : World -> string -> Res File.
Variable effect : World -> Call -> World.
Variable o : Options.

(** The record of the pipeline on [p] in the tree [w], if it succeeds. *)
Definition pipeline_record (w : World) (p : string) : option EmailRecord :=
  match processEmlFile (H := libs_in World look w) p with
  | Ok (rec, _) => Some rec
  | Err _ => None
  end.

(** The pipeline fails on [p] in the tree [w]. *)
Definition pipeline_fails (w : World) (p : string) : bool :=
  negb (is_Ok (processEmlFile (H := libs_in World look w) p)).

(** The calls a worker makes for [p] in the tree [w]: none when the
    pipeline fails, its side effects otherwise. *)
Definition pipeline_calls (w : World) (p : string) : list Call :=
  match processEmlFile (H := libs_in World look w) p with
  | Ok (rec, htmlContent) => sideEffects o p rec htmlContent
  | Err _ => []
  end.

(** The result a worker sends for [p] in the tree [w]. *)
Definition outcome (e : string * World) : result :=
  match processEmlFile (H := libs_in World look (snd e)) (fst e) with
  | Ok (rec, _) => mkResult rec None
  | Err err => mkResult EmailRecord_zero (Some err)
  end.

(** The records of the loop bodies of a log, and the number of those whose
    pipeline failed. *)
Definition log_records (l : list (string * World)) : list EmailRecord :=
  omap (fun e => pipeline_record (snd e) (fst e)) l.

Definition log_failures (l : list (string * World)) : nat :=
  length (List.filter (fun e => pipeline_fails (snd e) (fst e)) l).

(** The records of the pipeline on the paths in one tree, and the number
    of paths on which it fails there. *)
Definition records_in (w : World) (paths : list string) : list EmailRecord :=
  omap (pipeline_record w) paths.

Definition failures_in (w : World) (paths : list string) : nat :=
  length (List.filter (pipeline_fails w) paths).

(** No call that the batch makes for one of its paths changes what a path
    of the batch holds. *)
Definition undisturbed (w0 : World) (paths : list string) : Prop :=
  forall w q c p,
    In q paths -> In c (pipeline_calls w0 q) -> In p paths ->
    look (effect w c) p = look w p.

(** The calls of the loop bodies of a log, in the order of the log. *)
Definition log_calls (l : list (string * World)) : list Call :=
  concat (map (fun e => pipeline_calls (snd e) (fst e)) l).

(** The loop bodies run one after the other on [ps], from the tree [w] on:
    each with the tree it finds, and the tree that is left at the end. *)
Fixpoint replay (w : World) (ps : list string) : list (string * World) * World :=
  match ps with
  | [] => ([], w)
  | p :: rest =>
      let '(l, w') := replay (fold_left effect (pipeline_calls w p) w) rest in
      ((p, w) :: l, w')
  end.

(** Every path of the batch is accounted for once: it has run, or it is in
    a worker's hand, on the task channel, or still to be sent; and the
    results that were sent or are about to be are those of the loop bodies
    that have run. *)
Record Ledger (paths : list string) (b : Batch World) : Prop := mkLedger {
  led_paths :
    Permutation
      (map fst (log b) ++ concat (map hand (workers (st b)))
       ++ map path (tasks (st b)) ++ pending (main (st b)))
      paths;
  led_sent :
    Permutation (sent (st b) ++ concat (map outbound (workers (st b))))
      (map outcome (log b))
}.

End Spec.

End pool_fs_spec.

(** A file tree for the sample world: a path holds a file or nothing, a
    rename moves a file over whatever the new path holds, a copy creates the
    new path empty and fills it from the source, and a written file holds
    what was written.  Every call on a file that is there succeeds. *)

Module SampleWorld.

Definition World : Type := string -> Res string.

Definition look (w : World) (p : string) : Res string := w p.

Definition put (w : World) (p : string) (f : Res string) : World :=
  fun q => if String.eqb q p then f else w q.

Definition rename (w : World) (oldpath newpath : string) : World :=
  match w oldpath with
  | Err _ => w
  | Ok f =>
      if String.eqb oldpath newpath then w
      else put (put w oldpath (Err "open: no such file or directory")) newpath (Ok f)
  end.

Definition copy (w : World) (src dst : string) : World :=
  match w src with
  | Err _ => w
  | Ok f => if String.eqb src dst then put w dst (Ok "") else put w dst (Ok f)
  end.

Definition effect (w : World) (c : Call) : World :=
  match c with
  | call_writeHtmlFile filePath inputRoot htmlOutDir htmlContent =>
      match filepath_Rel (GoLibs := Sample.libs) inputRoot filePath with
      | Ok relPath =>
          put w
            (filepath_Join (GoLibs := Sample.libs) htmlOutDir
               (TrimSuffix relPath (filepath_Ext (GoLibs := Sample.libs) relPath)
                +:+ ".html"))
            (Ok htmlContent)
      | Err _ => w
      end
  | call_renameFileTo filePath inputRoot outputDir rec =>
      match renameFileTo_newPath (H := Sample.libs) filePath inputRoot outputDir rec with
      | Ok newPath => copy w filePath newPath
      | Err _ => w
      end
  | call_renameFile filePath rec =>
      rename w filePath (renameFile_newPath (H := Sample.libs) filePath rec)
  end.








End SampleWorld.

(** * Properties *)

(** ** Strings *)

Lemma app_String (c : ascii) (s t : string) : String c s +:+ t = String c (s +:+ t).
Proof. reflexivity. Qed.

Lemma app_empty_l (t : string) : "" +:+ t = t.
Proof. reflexivity. Qed.

Lemma app_empty_r (s : string) : s +:+ "" = s.
Proof. induction s as [|c s IH]; [reflexivity|]. rewrite app_String, IH. reflexivity. Qed.

Lemma app_assoc_string (s t u : string) : (s +:+ t) +:+ u = s +:+ (t +:+ u).
Proof.
  induction s as [|c s IH]; [reflexivity|].
  rewrite !app_String, IH. reflexivity.
Qed.

Lemma bytes_app (s t : string) :
  strings.bytes (s +:+ t) = strings.bytes s ++ strings.bytes t.
Proof.
  induction s as [|c s IH]; [reflexivity|].
  rewrite app_String. cbn. f_equal. exact IH.
Qed.

Lemma prefix_empty (s : string) : String.prefix "" s = true.
Proof. destruct s; reflexivity. Qed.

Lemma prefix_byte (a c : ascii) (s : string) :
  String.prefix (String a "") (String c s) = Ascii.eqb a c.
Proof.
  cbn. destruct (ascii_dec a c) as [->|Hne].
  - rewrite prefix_empty, Ascii.eqb_refl. reflexivity.
  - symmetry. apply Ascii.eqb_neq. exact Hne.
Qed.

(** Replacing a one-byte [old] works byte by byte. *)
Lemma ReplaceAll_byte_cons (a c : ascii) (new s : string) :
  strings.ReplaceAll (String c s) (String a "") new
  = (if Ascii.eqb a c then new else String c "")
    +:+ strings.ReplaceAll s (String a "") new.
Proof.
  unfold strings.ReplaceAll.
  change (strings.replace_from (String a "") new 0 (String c s))
    with (if String.prefix (String a "") (String c s)
          then new +:+ strings.replace_from (String a "") new 0 s
          else String c (strings.replace_from (String a "") new 0 s)).
  rewrite prefix_byte. destruct (Ascii.eqb a c); reflexivity.
Qed.

Lemma ReplaceAll_byte_nil (a : ascii) (new : string) :
  strings.ReplaceAll "" (String a "") new = "".
Proof. reflexivity. Qed.

(** A string without the byte [a] is left as it is. *)
Lemma ReplaceAll_byte_absent (a : ascii) (new s : string) :
  ~ In a (strings.bytes s) -> strings.ReplaceAll s (String a "") new = s.
Proof.
  induction s as [|c s IH]; intros Hnot; [reflexivity|].
  rewrite ReplaceAll_byte_cons.
  destruct (Ascii.eqb_spec a c) as [->|Hne].
  - exfalso. apply Hnot. left. reflexivity.
  - rewrite IH; [reflexivity|]. intros Hin. apply Hnot. right. exact Hin.
Qed.

(** Splitting at a one-byte separator that does not occur gives one piece. *)
Lemma Split_byte_absent (a : ascii) (s : string) :
  ~ In a (strings.bytes s) -> strings.Split s (String a "") = [s].
Proof.
  unfold strings.Split.
  induction s as [|c s IH]; intros Hnot; [reflexivity|].
  change (strings.split_from (String a "") 0 (String c s))
    with (if String.prefix (String a "") (String c s)
          then "" :: strings.split_from (String a "") 0 s
          else match strings.split_from (String a "") 0 s with
               | piece :: pieces => String c piece :: pieces
               | [] => [String c ""]
               end).
  rewrite prefix_byte.
  destruct (Ascii.eqb_spec a c) as [->|Hne].
  - exfalso. apply Hnot. left. reflexivity.
  - rewrite IH; [reflexivity|]. intros Hin. apply Hnot. right. exact Hin.
Qed.

(** ** [sanitizeFilename] *)

Lemma sanitizeFilename_nil : sanitizeFilename "" = "".
Proof. reflexivity. Qed.

Lemma ReplaceAll_underscore_cons (a c : ascii) (s : string) :
  strings.ReplaceAll (String c s) (String a "") "_"
  = String (if Ascii.eqb a c then "_"%char else c)
      (strings.ReplaceAll s (String a "") "_").
Proof. rewrite ReplaceAll_byte_cons. destruct (Ascii.eqb a c); reflexivity. Qed.

Lemma sanitize_byte_steps (c : ascii) :
  fold_left (fun x a => if Ascii.eqb a x then "_"%char else x)
    ["/"; "\"; ":"; "*"; "?"; dquote; "<"; ">"; "|"]%char c
  = sanitize_byte c.
Proof. destruct c as [[] [] [] [] [] [] [] []]; reflexivity. Qed.

Lemma sanitizeFilename_cons (c : ascii) (s : string) :
  sanitizeFilename (String c s) = String (sanitize_byte c) (sanitizeFilename s).
Proof.
  rewrite <- sanitize_byte_steps.
  unfold sanitizeFilename, invalidChars. cbn [fold_left].
  rewrite !ReplaceAll_underscore_cons. reflexivity.
Qed.

Lemma sanitize_byte_valid (c : ascii) : invalid_byte (sanitize_byte c) = false.
Proof. destruct c as [[] [] [] [] [] [] [] []]; reflexivity. Qed.

Lemma sanitize_byte_fixed (c : ascii) :
  invalid_byte c = false -> sanitize_byte c = c.
Proof. unfold sanitize_byte. intros ->. reflexivity. Qed.

Lemma sanitizeFilename_bytes (s : string) :
  strings.bytes (sanitizeFilename s) = map sanitize_byte (strings.bytes s).
Proof.
  induction s as [|c s IH]; [reflexivity|].
  rewrite sanitizeFilename_cons. cbn. f_equal. exact IH.
Qed.

Lemma sanitizeFilename_app (s t : string) :
  sanitizeFilename (s +:+ t) = sanitizeFilename s +:+ sanitizeFilename t.
Proof.
  induction s as [|c s IH]; [reflexivity|].
  rewrite app_String, !sanitizeFilename_cons, app_String, IH. reflexivity.
Qed.

Lemma sanitizeFilename_idempotent (name : string) :
  sanitizeFilename (sanitizeFilename name) = sanitizeFilename name.
Proof.
  induction name as [|c s IH]; [reflexivity|].
  rewrite !sanitizeFilename_cons, IH.
  rewrite (sanitize_byte_fixed _ (sanitize_byte_valid c)). reflexivity.
Qed.

Lemma sanitizeFilename_clean (name : string) (c : ascii) :
  In c (strings.bytes (sanitizeFilename name)) -> invalid_byte c = false.
Proof.
  rewrite sanitizeFilename_bytes. intros Hin.
  apply in_map_iff in Hin as (x & <- & _). apply sanitize_byte_valid.
Qed.

Lemma invalid_byte_In (c : ascii) :
  In (String c "") invalidChars -> invalid_byte c = true.
Proof.
  intros Hin. unfold invalid_byte. apply existsb_exists.
  exists (String c ""). split; [exact Hin|apply String.eqb_refl].
Qed.

(** ** Claim C4 *)

(** C4. The derived file name is a function of the sent date and the subject
    of the record alone: two records that agree on both get the same name.
    Sanitizing a sanitized name changes nothing, so it leaves the derived name
    as it is; and no byte of the derived name is one of the nine characters
    of [invalidChars] (slash, backslash, colon, star, question mark, double
    quote, the two angle brackets and the bar). *)
Theorem newName_deterministic_idempotent_clean (r1 r2 : EmailRecord) :
  SentDate r1 = SentDate r2 ->
  Subject r1 = Subject r2 ->
  newName r1 = newName r2
  /\ (forall name, sanitizeFilename (sanitizeFilename name) = sanitizeFilename name)
  /\ sanitizeFilename (newName r1) = newName r1
  /\ (forall c, In (String c "") invalidChars -> ~ In c (strings.bytes (newName r1))).
Proof.
  intros Hdate Hsubject. repeat split.
  - unfold newName. rewrite Hdate, Hsubject. reflexivity.
  - exact sanitizeFilename_idempotent.
  - unfold newName. apply sanitizeFilename_idempotent.
  - intros c Hinv Hin. unfold newName in Hin.
    apply sanitizeFilename_clean in Hin.
    apply invalid_byte_In in Hinv. congruence.
Qed.

(** ** Claim C10 *)

(** C10. A sent date that is not empty and holds no space comes back from
    [formatTime] as it went in: splitting it at the space gives one piece, so
    neither the branch that returns the word unknown nor the branch that joins
    date and time with an underscore is taken. *)
Theorem formatTime_without_space (sentDate : string) :
  sentDate <> "" ->
  ~ In " "%char (strings.bytes sentDate) ->
  strings.Split sentDate " " = [sentDate] /\ formatTime sentDate = sentDate.
Proof.
  intros Hne Hnospace.
  pose proof (Split_byte_absent " " sentDate Hnospace) as Hsplit.
  split; [exact Hsplit|].
  unfold formatTime. rewrite Hsplit.
  destruct (String.eqb_spec sentDate ""); [contradiction|reflexivity].
Qed.

(** ** Claim C5 *)

Lemma formatTime_empty : formatTime "" = "unknown".
Proof. reflexivity. Qed.

Lemma newName_unknown (rec : EmailRecord) :
  SentDate rec = "" ->
  newName rec = "unknown " +:+ sanitizeFilename (Subject rec +:+ ".eml").
Proof.
  intros Hdate. unfold newName. rewrite Hdate, formatTime_empty.
  change ("unknown" +:+ " " +:+ Subject rec +:+ ".eml")
    with ("unknown " +:+ (Subject rec +:+ ".eml")).
  rewrite sanitizeFilename_app. reflexivity.
Qed.

(** What [processEmlFile] returns once the file opened and the reader was
    created: the error of [NextPart], or the record. *)
Lemma processEmlFile_opened `{GoLibs} (filePath : string) (f : File)
    (mr : Reader Time) :
  os_Open filePath = Ok f ->
  mail_CreateReader f = Ok mr ->
  (forall e, htmlContent_of (r_Parts mr) = Err e -> processEmlFile filePath = Err e)
  /\ (forall htmlContent, htmlContent_of (r_Parts mr) = Ok htmlContent ->
      exists rec,
        processEmlFile filePath = Ok (rec, htmlContent)
        /\ SentDate rec
           = match h_Date (r_Header mr) with
             | Ok date => Time_Format date "2006-01-02 15:04:05"
             | Err _ => ""
             end
        /\ Subject rec = match h_Subject (r_Header mr) with Ok s => s | Err _ => "" end
        /\ IP rec
           = strings.ReplaceAll (h_Get (r_Header mr) "X-Originating-IP") ","
               (String "010" "")
        /\ URLs rec = strings.Join (extractUrls htmlContent) (String "010" "")
        /\ URLDomains rec
           = strings.Join (urlDomains_of (extractUrls htmlContent)) (String "010" "")).
Proof.
  intros Hopen Hreader. unfold processEmlFile. rewrite Hopen, Hreader.
  destruct (first_address (h_AddressList (r_Header mr) "From")) as [fromName fromEmail].
  destruct (first_address (h_AddressList (r_Header mr) "To")) as [toName toEmail].
  split.
  - intros e ->. reflexivity.
  - intros htmlContent ->. eexists. split; [reflexivity|]. cbn. repeat split.
Qed.

(** What the enmime based [processEmlFile] returns once the file opened
    and the envelope was read. *)
Lemma Sequential_processed `{GoLibs} (filePath : string) (file : File)
    (env : Envelope) :
  os_Open filePath = Ok file ->
  enmime_ReadEnvelope file = Ok env ->
  exists rec,
    Sequential.processEmlFile filePath = Ok (rec, HTML env)
    /\ SentDate rec
       = (if negb (String.eqb (Root_Header_Get env "Date") "")
          then match mail_ParseDate (Root_Header_Get env "Date") with
               | Ok t => Time_Format t "2006-01-02 15:04:05"
               | Err _ => ""
               end
          else "")
    /\ IP rec
       = strings.ReplaceAll
           (strings.Trim (Root_Header_Get env "X-Originating-IP") "[]") ","
           (String "010" "").
Proof.
  intros Hopen Henv. unfold Sequential.processEmlFile. rewrite Hopen, Henv.
  destruct (Sequential.parseAddress (Root_Header_Get env "From")).
  destruct (Sequential.parseAddress (Root_Header_Get env "To")).
  eexists. repeat split.
Qed.

(** C5 (the code departs from it). The concurrent variant asks the header
    for the date and formats whatever comes back without an error.  For a
    message without a Date field go-message answers [h.Date()] with the zero
    time and a nil error, and the zero time formats as 0001-01-01 00:00:00:
    the record of such a message has that text as its [SentDate], not the
    empty string, and the derived name starts with 0001-01-01_000000, not
    with the word unknown.  The rest of the claim holds: when [h.Date()]
    reports an error, as for a Date field that does not parse, the file is
    processed with an empty [SentDate] and the word unknown; and the enmime
    based variant, which tests the field for emptiness before it parses it,
    gives the empty [SentDate] and the word unknown for an absent field as
    for one that does not parse. *)
Theorem absent_date_gives_zero_time `{GoLibs} (filePath : string) (f : File)
    (mr : Reader Time) (htmlContent : string) :
  os_Open filePath = Ok f ->
  mail_CreateReader f = Ok mr ->
  htmlContent_of (r_Parts mr) = Ok htmlContent ->
  (forall zero,
      h_Date (r_Header mr) = Ok zero ->
      Time_Format zero "2006-01-02 15:04:05" = "0001-01-01 00:00:00" ->
      exists rec,
        processEmlFile filePath = Ok (rec, htmlContent)
        /\ SentDate rec = "0001-01-01 00:00:00"
        /\ SentDate rec <> ""
        /\ formatTime (SentDate rec) = "0001-01-01_000000"
        /\ formatTime (SentDate rec) <> "unknown"
        /\ newName rec
           = sanitizeFilename ("0001-01-01_000000 " +:+ Subject rec +:+ ".eml"))
  /\ (forall e,
        h_Date (r_Header mr) = Err e ->
        exists rec,
          processEmlFile filePath = Ok (rec, htmlContent)
          /\ SentDate rec = ""
          /\ formatTime (SentDate rec) = "unknown"
          /\ newName rec = "unknown " +:+ sanitizeFilename (Subject rec +:+ ".eml"))
  /\ (forall file env,
        os_Open filePath = Ok file ->
        enmime_ReadEnvelope file = Ok env ->
        Root_Header_Get env "Date" = ""
        \/ (exists e, mail_ParseDate (Root_Header_Get env "Date") = Err e) ->
        exists rec,
          Sequential.processEmlFile filePath = Ok (rec, HTML env)
          /\ SentDate rec = ""
          /\ formatTime (SentDate rec) = "unknown"
          /\ newName rec = "unknown " +:+ sanitizeFilename (Subject rec +:+ ".eml")).
Proof.
  intros Hopen Hreader Hparts.
  destruct (processEmlFile_opened filePath f mr Hopen Hreader) as [_ Hok].
  destruct (Hok htmlContent Hparts) as (rec & Hrec & Hsent & _).
  split; [|split].
  - intros zero Hdate Hformat. rewrite Hdate, Hformat in Hsent.
    exists rec. split; [exact Hrec|]. split; [exact Hsent|].
    unfold newName. rewrite Hsent.
    split; [discriminate|]. split; [reflexivity|]. split; [discriminate|reflexivity].
  - intros e Hdate. rewrite Hdate in Hsent.
    exists rec. split; [exact Hrec|]. split; [exact Hsent|].
    split; [rewrite Hsent; reflexivity|apply newName_unknown; exact Hsent].
  - intros file env Hopen' Henv Hdate.
    destruct (Sequential_processed filePath file env Hopen' Henv)
      as (rec' & Hrec' & Hsent' & _).
    assert (SentDate rec' = "") as Hempty.
    { rewrite Hsent'. destruct Hdate as [->|[e ->]]; [reflexivity|].
      destruct (negb _); reflexivity. }
    exists rec'. split; [exact Hrec'|]. split; [exact Hempty|].
    split; [rewrite Hempty; reflexivity|apply newName_unknown; exact Hempty].
Qed.

(** ** Claim C1 *)

Section Domains.

Context `{GoLibs}.

Lemma omap_host_cons (u : string) (urls : list string) :
  omap host_of (u :: urls)
  = match url_Parse u with
    | Ok parsed => Host parsed :: omap host_of urls
    | Err _ => omap host_of urls
    end.
Proof.
  change (omap host_of (u :: urls))
    with (match host_of u with
          | Some d => d :: omap host_of urls
          | None => omap host_of urls
          end).
  destruct (url_Parse u) as [parsed|e] eqn:Hu.
  - assert (host_of u = Some (Host parsed)) as ->
      by (unfold host_of; rewrite Hu; reflexivity).
    reflexivity.
  - assert (host_of u = None) as -> by (unfold host_of; rewrite Hu; reflexivity).
    reflexivity.
Qed.

Lemma urlDomains_loop (urls acc : list string) :
  fold_left
    (fun urlDomains u =>
       match url_Parse u with
       | Ok parsed => urlDomains ++ [Host parsed]
       | Err _ => urlDomains
       end)
    urls acc
  = acc ++ omap host_of urls.
Proof.
  revert acc. induction urls as [|u urls IH]; intros acc; cbn [fold_left].
  - cbn. rewrite app_nil_r. reflexivity.
  - rewrite IH, omap_host_cons.
    destruct (url_Parse u) as [parsed|e]; [|reflexivity].
    rewrite <- app_assoc. reflexivity.
Qed.

Lemma urlDomains_of_omap (urls : list string) :
  urlDomains_of urls = omap host_of urls.
Proof. unfold urlDomains_of. rewrite urlDomains_loop. reflexivity. Qed.

Lemma hosts_of_parsed (urls : list string) :
  Forall2 (fun d u => exists parsed, url_Parse u = Ok parsed /\ d = Host parsed)
    (omap host_of urls) (List.filter parses urls).
Proof.
  induction urls as [|u urls IH]; [constructor|].
  rewrite omap_host_cons. cbn [List.filter]. unfold parses at 1.
  destruct (url_Parse u) as [parsed|e] eqn:Hu; cbn [is_Ok].
  - constructor; [|exact IH]. exists parsed. split; [exact Hu|reflexivity].
  - exact IH.
Qed.

Lemma hosts_length (urls : list string) :
  length (omap host_of urls) = length (List.filter parses urls).
Proof. apply (Forall2_length _ _ _ (hosts_of_parsed urls)). Qed.

Lemma filter_length_lt {A} (f : A -> bool) (l : list A) :
  length (List.filter f l) < length l <-> exists x, In x l /\ f x = false.
Proof.
  induction l as [|a l IH]; cbn.
  - split; [lia|]. intros (x & [] & _).
  - pose proof (List.filter_length_le f l) as Hle.
    destruct (f a) eqn:Ha; cbn.
    + rewrite <- Nat.succ_lt_mono, IH. split.
      * intros (x & Hin & Hx). exists x. split; [right; exact Hin|exact Hx].
      * intros (x & [->|Hin] & Hx); [congruence|]. exists x. split; assumption.
    + split; [|lia]. intros _. exists a. split; [left; reflexivity|exact Ha].
Qed.

End Domains.

Lemma processEmlFile_Ok `{GoLibs} (filePath : string) (rec : EmailRecord)
    (htmlContent : string) :
  processEmlFile filePath = Ok (rec, htmlContent) ->
  exists f mr,
    os_Open filePath = Ok f /\ mail_CreateReader f = Ok mr
    /\ htmlContent_of (r_Parts mr) = Ok htmlContent.
Proof.
  intros Hrun. destruct (os_Open filePath) as [f|e] eqn:Hopen.
  2:{ unfold processEmlFile in Hrun. rewrite Hopen in Hrun. discriminate. }
  destruct (mail_CreateReader f) as [mr|e] eqn:Hreader.
  2:{ unfold processEmlFile in Hrun. rewrite Hopen, Hreader in Hrun. discriminate. }
  exists f, mr. split; [first [reflexivity|assumption]|]. split; [first [reflexivity|assumption]|].
  destruct (processEmlFile_opened filePath f mr Hopen Hreader) as [Herr Hok].
  destruct (htmlContent_of (r_Parts mr)) as [h|e] eqn:Hparts.
  - destruct (Hok h eq_refl) as (rec' & Hrec' & _). congruence.
  - rewrite (Herr e eq_refl) in Hrun. discriminate.
Qed.

(** C1. The list of domains that [processEmlFile] builds from the URL list
    is never longer than the URL list.  Its elements are, in order, the hosts
    of the URLs that parse: the i-th domain is the host of the i-th URL among
    those that [url.Parse] accepts.  The domain list is shorter than the URL
    list exactly when some URL of the list does not parse; such a URL has no
    entry among the domains, while the record of every processed file still
    lists all the URLs that [extractUrls] returned. *)
Theorem urlDomains_follow_urls `{GoLibs} (urls : list string) :
  length (urlDomains_of urls) <= length urls
  /\ Forall2 (fun d u => exists parsed, url_Parse u = Ok parsed /\ d = Host parsed)
       (urlDomains_of urls) (List.filter parses urls)
  /\ (length (urlDomains_of urls) <> length urls
      <-> exists u, In u urls /\ parses u = false)
  /\ (forall filePath rec htmlContent,
        processEmlFile filePath = Ok (rec, htmlContent) ->
        URLs rec = strings.Join (extractUrls htmlContent) (String "010" "")
        /\ URLDomains rec
           = strings.Join (urlDomains_of (extractUrls htmlContent)) (String "010" "")).
Proof.
  rewrite urlDomains_of_omap.
  pose proof (hosts_length urls) as Hlen.
  pose proof (List.filter_length_le parses urls) as Hle.
  split; [lia|]. split; [apply hosts_of_parsed|]. split; [split|].
  - intros Hne. apply filter_length_lt. lia.
  - intros Hex. apply filter_length_lt in Hex. lia.
  - intros filePath rec htmlContent Hrun.
    destruct (processEmlFile_Ok _ _ _ Hrun) as (f & mr & Hopen & Hreader & Hparts).
    destruct (processEmlFile_opened filePath f mr Hopen Hreader) as [_ Hok].
    destruct (Hok _ Hparts) as (rec' & Hrec' & _ & _ & _ & Hurls & Hdomains).
    assert (rec' = rec) as <- by congruence.
    split; assumption.
Qed.

(** ** Claim C2 *)

(** Induction over a document tree. *)
Lemma Node_induction (P : html.Node -> Prop) :
  (forall type data attr children,
      Forall P children -> P (html.mkNode type data attr children)) ->
  forall n, P n.
Proof.
  intros Hstep.
  fix IH 1. intros [type data attr children]. apply Hstep.
  induction children as [|c children IHc]; constructor.
  - apply IH.
  - exact IHc.
Qed.

Lemma crawler_attrs (attrs : list html.Attribute) (urls : list string) :
  fold_left
    (fun urls attr =>
       if String.eqb (html.Key attr) "href" && strings.HasPrefix (html.Val attr) "http"
       then urls ++ [html.Val attr]
       else urls)
    attrs urls
  = urls ++ omap http_href attrs.
Proof.
  revert urls. induction attrs as [|a attrs IH]; intros urls; cbn [fold_left].
  - cbn. rewrite app_nil_r. reflexivity.
  - rewrite IH.
    change (omap http_href (a :: attrs))
      with (match http_href a with
            | Some u => u :: omap http_href attrs
            | None => omap http_href attrs
            end).
    unfold http_href at 2.
    destruct (String.eqb (html.Key a) "href" && strings.HasPrefix (html.Val a) "http").
    + rewrite <- app_assoc. reflexivity.
    + reflexivity.
Qed.

Lemma crawler_children (children : list html.Node) (urls : list string) :
  Forall (fun c => forall urls, crawler c urls = urls ++ anchor_hrefs c) children ->
  fold_left (fun urls c => crawler c urls) children urls
  = urls ++ concat (map anchor_hrefs children).
Proof.
  intros Hall. revert urls.
  induction Hall as [|c children Hc _ IH]; intros urls; cbn [fold_left map concat].
  - rewrite app_nil_r. reflexivity.
  - rewrite IH, Hc, <- app_assoc. reflexivity.
Qed.

(** [crawler] appends the links of the tree in document order. *)
Lemma crawler_anchor_hrefs (n : html.Node) (urls : list string) :
  crawler n urls = urls ++ anchor_hrefs n.
Proof.
  revert urls. induction n as [type data attr children IH] using Node_induction.
  intros urls.
  change (crawler (html.mkNode type data attr children) urls)
    with (fold_left (fun urls c => crawler c urls) children
            (if is_anchor (html.mkNode type data attr children)
             then fold_left
                    (fun urls attr =>
                       if String.eqb (html.Key attr) "href"
                          && strings.HasPrefix (html.Val attr) "http"
                       then urls ++ [html.Val attr]
                       else urls)
                    attr urls
             else urls)).
  rewrite (crawler_children _ _ IH).
  change (anchor_hrefs (html.mkNode type data attr children))
    with ((if is_anchor (html.mkNode type data attr children)
           then omap http_href attr else [])
          ++ concat (map anchor_hrefs children)).
  destruct (is_anchor (html.mkNode type data attr children)).
  - rewrite crawler_attrs, <- app_assoc. reflexivity.
  - rewrite app_nil_l. reflexivity.
Qed.

Lemma filter_filter_comm {A} (p q : A -> bool) (l : list A) :
  List.filter p (List.filter q l) = List.filter q (List.filter p l).
Proof.
  induction l as [|a l IH]; [reflexivity|]. cbn.
  destruct (q a) eqn:Hq, (p a) eqn:Hp; cbn; rewrite ?Hq, ?Hp, IH; reflexivity.
Qed.

Lemma filter_absorb {A} (p q : A -> bool) (l : list A) :
  (forall a, q a = false -> p a = false) ->
  List.filter p (List.filter q l) = List.filter p l.
Proof.
  intros Hpq. induction l as [|a l IH]; [reflexivity|]. cbn.
  destruct (q a) eqn:Hq; cbn.
  - rewrite IH. reflexivity.
  - rewrite (Hpq a Hq). exact IH.
Qed.

Lemma first_occurrences_filter (p : string -> bool) (l : list string) :
  first_occurrences (List.filter p l) = List.filter p (first_occurrences l).
Proof.
  induction l as [|x l IH]; [reflexivity|]. cbn [List.filter first_occurrences].
  destruct (p x) eqn:Hp; cbn [List.filter first_occurrences]; rewrite ?Hp, IH.
  - rewrite filter_filter_comm. reflexivity.
  - symmetry. apply filter_absorb. intros a Ha.
    apply negb_false_iff, String.eqb_eq in Ha. subst a. exact Hp.
Qed.

Lemma first_occurrences_In (l : list string) (u : string) :
  In u (first_occurrences l) <-> In u l.
Proof.
  induction l as [|x l IH]; [reflexivity|]. cbn.
  rewrite filter_In, IH, negb_true_iff, String.eqb_neq.
  destruct (String.eqb_spec x u) as [->|Hne]; [tauto|].
  split; [tauto|]. intros [Hx|Hin]; [tauto|]. right. split; [exact Hin|congruence].
Qed.

Lemma first_occurrences_NoDup (l : list string) : List.NoDup (first_occurrences l).
Proof.
  induction l as [|x l IH]; cbn; constructor.
  - rewrite filter_In, negb_true_iff, String.eqb_neq. tauto.
  - apply List.NoDup_filter. exact IH.
Qed.

Lemma filter_not_in_union (u : string) (unique : gset string) (urls : list string) :
  List.filter (fun v => bool_decide (v ∉ {[u]} ∪ unique)) urls
  = List.filter (fun v => bool_decide (v ∉ unique))
      (List.filter (fun y => negb (String.eqb y u)) urls).
Proof.
  induction urls as [|v urls IH]; [reflexivity|]. cbn [List.filter].
  destruct (String.eqb_spec v u) as [->|Hne]; cbn [negb List.filter].
  - rewrite bool_decide_eq_false_2
      by (intros Hc; apply Hc, elem_of_union_l, elem_of_singleton; reflexivity).
    exact IH.
  - rewrite IH.
    rewrite (bool_decide_ext (v ∉ {[u]} ∪ unique) (v ∉ unique)).
    2:{ rewrite not_elem_of_union, not_elem_of_singleton. tauto. }
    reflexivity.
Qed.

(** The loop over [urls] keeps, after [result], the first occurrence of every
    value that [unique] does not hold yet. *)
Lemma unique_loop_first_occurrences (urls : list string) (unique : gset string)
    (result : list string) :
  unique_loop urls unique result
  = result ++ first_occurrences (List.filter (fun u => bool_decide (u ∉ unique)) urls).
Proof.
  revert unique result.
  induction urls as [|u urls IH]; intros unique result; cbn [unique_loop List.filter].
  - rewrite app_nil_r. reflexivity.
  - destruct (decide (u ∈ unique)) as [Hin|Hnot].
    + rewrite bool_decide_eq_false_2 by (intros Hc; apply Hc; exact Hin). apply IH.
    + rewrite bool_decide_eq_true_2 by exact Hnot.
      rewrite IH, <- app_assoc. cbn [first_occurrences app]. do 2 f_equal.
      rewrite <- first_occurrences_filter, filter_filter_comm.
      f_equal. apply filter_not_in_union.
Qed.

Lemma filter_all {A} (p : A -> bool) (l : list A) :
  (forall a, p a = true) -> List.filter p l = l.
Proof.
  intros Hp. induction l as [|a l IH]; [reflexivity|]. cbn. rewrite Hp, IH. reflexivity.
Qed.

Lemma extractUrls_primary `{GoLibs} (htmlContent : string) (doc : html.Node) :
  strings.TrimSpace htmlContent <> "" ->
  html_Parse htmlContent = Ok doc ->
  extractUrls htmlContent = first_occurrences (anchor_hrefs doc).
Proof.
  intros Hblank Hparse. unfold extractUrls. rewrite Hparse.
  destruct (String.eqb_spec (strings.TrimSpace htmlContent) ""); [contradiction|].
  rewrite unique_loop_first_occurrences, crawler_anchor_hrefs, !app_nil_l.
  rewrite filter_all; [reflexivity|].
  intros a. apply bool_decide_eq_true_2. set_solver.
Qed.

(** C2. On the path through the document tree (the text is not blank and
    [html.Parse] returns a tree), [extractUrls] returns the links of the
    tree, which are the values that start with http of the [href] attributes
    of the elements named a, taken in document order, with every value kept
    where it occurs first: the result has no duplicates and holds exactly the
    collected values.  For the three anchors of the example body this is the
    one URL http://a.com/x, and its domain list is a.com. *)
Theorem extractUrls_dom_path `{GoLibs} (htmlContent : string) (doc : html.Node) :
  strings.TrimSpace htmlContent <> "" ->
  html_Parse htmlContent = Ok doc ->
  extractUrls htmlContent = first_occurrences (anchor_hrefs doc)
  /\ List.NoDup (extractUrls htmlContent)
  /\ (forall u, In u (extractUrls htmlContent) <-> In u (anchor_hrefs doc))
  /\ (htmlContent = Sample.example_body ->
      doc = Sample.example_doc ->
      extractUrls htmlContent = ["http://a.com/x"]
      /\ (forall parsed,
            url_Parse "http://a.com/x" = Ok parsed ->
            Host parsed = "a.com" ->
            urlDomains_of (extractUrls htmlContent) = ["a.com"])).
Proof.
  intros Hblank Hparse.
  pose proof (extractUrls_primary htmlContent doc Hblank Hparse) as Heq.
  rewrite Heq. split; [reflexivity|].
  split; [apply first_occurrences_NoDup|].
  split; [intros u; apply first_occurrences_In|].
  intros -> ->. split; [reflexivity|].
  intros parsed Hurl Hhost.
  change (first_occurrences (anchor_hrefs Sample.example_doc)) with ["http://a.com/x"].
  unfold urlDomains_of. cbn [fold_left]. rewrite Hurl, Hhost. reflexivity.
Qed.

(** ** Claim C6 *)

Lemma prefix_cons (a c : ascii) (p s : string) :
  String.prefix (String a p) (String c s) = Ascii.eqb a c && String.prefix p s.
Proof.
  cbn. destruct (ascii_dec a c) as [->|Hne].
  - rewrite Ascii.eqb_refl. reflexivity.
  - apply Ascii.eqb_neq in Hne. rewrite Hne. reflexivity.
Qed.

Lemma prefix_nil_r (a : ascii) (p : string) : String.prefix (String a p) "" = false.
Proof. reflexivity. Qed.

Lemma prefix_split (p s : string) :
  String.prefix p s = true -> s = p +:+ strings.drop (String.length p) s.
Proof.
  revert s. induction p as [|a p IH]; intros s Hp; [reflexivity|].
  destruct s as [|c s]; [discriminate|].
  rewrite prefix_cons in Hp. apply andb_true_iff in Hp as [Hac Hp].
  apply Ascii.eqb_eq in Hac as ->. rewrite app_String. cbn. f_equal. apply IH, Hp.
Qed.

Lemma prefix_app (p rest : string) : String.prefix p (p +:+ rest) = true.
Proof.
  induction p as [|a p IH]; [apply prefix_empty|].
  rewrite app_String, prefix_cons, Ascii.eqb_refl. exact IH.
Qed.

Lemma drop_app_length (p rest : string) :
  strings.drop (String.length p) (p +:+ rest) = rest.
Proof.
  induction p as [|a p IH]; [destruct rest; reflexivity|].
  rewrite app_String. cbn. exact IH.
Qed.

Lemma take_app_length (p rest : string) :
  strings.take (String.length p) (p +:+ rest) = p.
Proof.
  induction p as [|a p IH]; [destruct rest; reflexivity|].
  rewrite app_String. cbn. f_equal. exact IH.
Qed.

Lemma take_drop (n : nat) (s : string) : strings.take n s +:+ strings.drop n s = s.
Proof.
  revert s. induction n as [|n IH]; intros [|c s]; try reflexivity.
  cbn. rewrite app_String. f_equal. apply IH.
Qed.

Lemma take_length (n : nat) (s : string) :
  n <= String.length s -> String.length (strings.take n s) = n.
Proof.
  revert s. induction n as [|n IH]; intros [|c s] Hn; cbn in *; try lia; try reflexivity.
  f_equal. apply IH. lia.
Qed.

Lemma drop_length (n : nat) (s : string) :
  String.length (strings.drop n s) = String.length s - n.
Proof.
  revert s. induction n as [|n IH]; intros [|c s]; cbn; try reflexivity; try lia.
  apply IH.
Qed.

Lemma drop_drop (n m : nat) (s : string) :
  strings.drop n (strings.drop m s) = strings.drop (m + n) s.
Proof.
  revert s. induction m as [|m IH]; intros s; [reflexivity|].
  destruct s as [|c s]; [destruct n; reflexivity|]. cbn. apply IH.
Qed.

Lemma length_app_string (s t : string) :
  String.length (s +:+ t) = String.length s + String.length t.
Proof.
  induction s as [|c s IH]; [reflexivity|]. rewrite app_String. cbn. rewrite IH. reflexivity.
Qed.

(** A literal in front of a pattern. *)
Lemma match_lits {A} (p : string) (r : regexp.Regexp) (n : nat) (s : string)
    (k : nat -> string -> option A) :
  regexp.match_from (regexp.lits p r) n s k
  = if String.prefix p s
    then regexp.match_from r (n + String.length p) (strings.drop (String.length p) s) k
    else None.
Proof.
  revert n s. induction p as [|a p IH]; intros n s.
  - rewrite prefix_empty. cbn. rewrite Nat.add_0_r. destruct s; reflexivity.
  - destruct s as [|c s]; [reflexivity|].
    rewrite prefix_cons. cbn [regexp.lits regexp.match_from].
    destruct (Ascii.eqb a c); [|reflexivity]. rewrite IH. cbn.
    replace (n + S (String.length p)) with (S n + String.length p) by lia.
    reflexivity.
Qed.

(** A greedy repetition in front of nothing takes the longest run. *)
Lemma plus_from_run (p : ascii -> bool) (n : nat) (s : string) :
  regexp.plus_from p n s (fun n' _ => Some n')
  = match run_length p s with
    | 0 => None
    | S k => Some (n + S k)
    end.
Proof.
  revert n. induction s as [|c s IH]; intros n; [reflexivity|]. cbn.
  destruct (p c); [|reflexivity]. rewrite IH.
  destruct (run_length p s) as [|k]; f_equal; lia.
Qed.

Lemma match_here_url_at (s : string) : regexp.match_here urlRegex s = url_at s.
Proof.
  unfold regexp.match_here, urlRegex, url_at, scheme_at.
  rewrite match_lits.
  destruct s as [|c1 [|c2 [|c3 [|c4 t]]]]; try reflexivity;
    rewrite ?prefix_cons, ?prefix_nil_r, ?andb_false_r; try reflexivity.
  rewrite prefix_empty, !andb_true_r.
  destruct (Ascii.eqb "h" c1); [|reflexivity].
  destruct (Ascii.eqb "t" c2); [|reflexivity].
  destruct (Ascii.eqb "t" c3); [|reflexivity].
  destruct (Ascii.eqb "p" c4); [|reflexivity].
  cbn [andb String.length regexp.match_from].
  change (strings.drop 4 (String c1 (String c2 (String c3 (String c4 t))))) with t.
  change (@regexp.match_from nat (regexp.Plus url_char))
    with (@regexp.plus_from nat url_char).
  rewrite !match_lits.
  change (@regexp.match_from nat (regexp.Plus url_char))
    with (@regexp.plus_from nat url_char).
  destruct t as [|c5 t]; [reflexivity|].
  rewrite !prefix_cons.
  destruct (Ascii.eqb_spec "s" c5) as [<-|Hs].
  - change (Ascii.eqb ":" "s") with false. cbn [andb].
    rewrite match_lits.
    change (@regexp.match_from nat (regexp.Plus url_char))
      with (@regexp.plus_from nat url_char).
    rewrite !plus_from_run.
    change (strings.drop (String.length "https://")
              (String c1 (String c2 (String c3 (String c4 (String "s" t))))))
      with (strings.drop (String.length "://") t).
    destruct (String.prefix "://" t) eqn:Ht; [|reflexivity].
    destruct (run_length url_char _); reflexivity.
  - cbn [andb].
    rewrite !plus_from_run.
    change (strings.drop (String.length "http://")
              (String c1 (String c2 (String c3 (String c4 (String c5 t))))))
      with (strings.drop (String.length "://") (String c5 t)).
    destruct (Ascii.eqb ":" c5 && String.prefix "//" t); [|reflexivity].
    destruct (run_length url_char _); reflexivity.
Qed.

Lemma run_length_le (p : ascii -> bool) (s : string) :
  run_length p s <= String.length s.
Proof. induction s as [|c s IH]; cbn; [lia|]. destruct (p c); lia. Qed.

Lemma run_length_take (p : ascii -> bool) (s : string) :
  Forall (fun c => p c = true) (strings.bytes (strings.take (run_length p s) s)).
Proof.
  induction s as [|c s IH]; cbn; [constructor|].
  destruct (p c) eqn:Hc; cbn; constructor; assumption.
Qed.

Lemma run_length_drop (p : ascii -> bool) (s : string) :
  match strings.drop (run_length p s) s with
  | "" => True
  | String c _ => p c = false
  end.
Proof.
  induction s as [|c s IH]; cbn; [exact I|].
  destruct (p c) eqn:Hc; cbn; assumption.
Qed.

Lemma run_length_app (p : ascii -> bool) (run rest : string) :
  Forall (fun c => p c = true) (strings.bytes run) ->
  match rest with "" => True | String c _ => p c = false end ->
  run_length p (run +:+ rest) = String.length run.
Proof.
  intros Hrun Hrest. induction run as [|c run IH].
  - rewrite app_empty_l. destruct rest as [|c rest]; [reflexivity|]. cbn. rewrite Hrest.
    reflexivity.
  - cbn in Hrun. apply Forall_cons in Hrun as [Hc Hrun].
    rewrite app_String. cbn. rewrite Hc, (IH Hrun). reflexivity.
Qed.

Lemma take_app_plus (p t : string) (n : nat) :
  strings.take (String.length p + n) (p +:+ t) = p +:+ strings.take n t.
Proof.
  induction p as [|a p IH]; [reflexivity|].
  rewrite !app_String. cbn. f_equal. exact IH.
Qed.

(** [url_at] finds the match at the head that [url_match_here] describes. *)
Lemma url_at_Some (s : string) (n : nat) :
  url_at s = Some n ->
  url_match_here s (strings.take n s) /\ 0 < n <= String.length s.
Proof.
  unfold url_at. intros Hat.
  destruct (scheme_at s) as [scheme|] eqn:Hscheme; [|discriminate].
  set (t := strings.drop (String.length scheme) s) in *.
  destruct (run_length url_char t) as [|k] eqn:Hrun; [discriminate|].
  injection Hat as <-.
  assert (String.prefix scheme s = true
          /\ (scheme = "http://" \/ scheme = "https://")) as [Hpre Hsch].
  { unfold scheme_at in Hscheme.
    destruct (String.prefix "https://" s) eqn:H1.
    - injection Hscheme as <-. split; [exact H1|right; reflexivity].
    - destruct (String.prefix "http://" s) eqn:H2; [|discriminate].
      injection Hscheme as <-. split; [exact H2|left; reflexivity]. }
  pose proof (prefix_split _ _ Hpre) as Hs. fold t in Hs.
  pose proof (run_length_le url_char t) as Hle.
  assert (strings.take (String.length scheme + S k) s
          = scheme +:+ strings.take (S k) t) as Htake.
  { rewrite Hs at 1. apply take_app_plus. }
  split.
  - exists scheme, (strings.take (S k) t), (strings.drop (S k) t).
    split; [exact Hsch|]. split; [exact Htake|].
    split; [rewrite Htake, app_assoc_string, take_drop; exact Hs|].
    split; [destruct t; [discriminate|discriminate]|].
    rewrite <- Hrun. split; [apply run_length_take|apply run_length_drop].
  - pose proof (f_equal String.length Hs) as Hl.
    rewrite length_app_string in Hl. lia.
Qed.

Lemma url_match_here_at (s m : string) :
  url_match_here s m -> url_at s = Some (String.length m).
Proof.
  intros (scheme & run & rest & Hsch & -> & -> & Hne & Hrun & Hrest).
  unfold url_at.
  assert (scheme_at ((scheme +:+ run) +:+ rest) = Some scheme) as ->.
  { unfold scheme_at.
    destruct Hsch as [->| ->]; rewrite !app_assoc_string, !app_String, !prefix_cons;
      cbn [Ascii.eqb Bool.eqb andb]; rewrite ?app_String, ?prefix_cons, ?prefix_empty;
      reflexivity. }
  rewrite app_assoc_string, drop_app_length, (run_length_app _ _ _ Hrun Hrest).
  rewrite length_app_string.
  destruct run as [|c run]; [contradiction|]. reflexivity.
Qed.

Lemma url_at_None (s : string) : url_at s = None -> forall m, ~ url_match_here s m.
Proof. intros Hnone m Hm. apply url_match_here_at in Hm. congruence. Qed.

Lemma url_match_here_unique (s m m' : string) :
  url_match_here s m -> url_match_here s m' -> m = m'.
Proof.
  intros Hm Hm'.
  pose proof (url_match_here_at _ _ Hm) as Hn.
  pose proof (url_match_here_at _ _ Hm') as Hn'.
  assert (String.length m = String.length m') as Hlen by congruence.
  destruct Hm as (_ & _ & rest & _ & _ & -> & _).
  destruct Hm' as (_ & _ & rest' & _ & _ & Heq & _).
  rewrite <- (take_app_length m rest), <- (take_app_length m' rest'), <- Heq, Hlen.
  reflexivity.
Qed.

(** Passing over the rest of a match, byte by byte, is dropping it. *)
Lemma find_all_from_skip (r : regexp.Regexp) (skip : nat) (s : string) :
  regexp.find_all_from r skip s = regexp.find_all_from r 0 (strings.drop skip s).
Proof.
  revert s. induction skip as [|k IH]; intros s; [destruct s; reflexivity|].
  destruct s as [|c s]; [reflexivity|]. cbn. apply IH.
Qed.

Lemma FindAllString_urlRegex_scan (s : string) :
  url_scan s (regexp.FindAllString urlRegex s).
Proof.
  unfold regexp.FindAllString.
  remember (String.length s) as len eqn:Hlen.
  revert s Hlen. induction len as [len IH] using lt_wf_ind. intros s Hlen.
  destruct s as [|c s]; [constructor|].
  cbn [regexp.find_all_from]. rewrite match_here_url_at.
  destruct (url_at (String c s)) as [n|] eqn:Hat.
  - apply url_at_Some in Hat as [Hmatch Hn].
    rewrite find_all_from_skip.
    replace (strings.drop (n - 1) s) with (strings.drop n (String c s))
      by (destruct n; [lia|]; cbn; f_equal; lia).
    rewrite <- (take_drop n (String c s)) at 1.
    apply scan_match.
    + rewrite take_drop. exact Hmatch.
    + apply (IH (String.length (strings.drop n (String c s)))); [|reflexivity].
      rewrite drop_length, Hlen. lia.
  - apply scan_skip; [apply url_at_None, Hat|].
    apply (IH (String.length s)); [|reflexivity]. rewrite Hlen. cbn. lia.
Qed.

Lemma url_match_here_length (s m : string) :
  url_match_here s m -> 0 < String.length m.
Proof.
  intros (scheme & run & _ & Hsch & -> & _). rewrite length_app_string.
  destruct Hsch as [->| ->]; cbn; lia.
Qed.

(** What a scan of [s] must look like, read off the head of [s]. *)
Lemma url_scan_inv (s : string) (ms : list string) :
  url_scan s ms ->
  match s with
  | "" => ms = []
  | String _ s' =>
      match url_at s with
      | None => url_scan s' ms
      | Some n => exists ms', ms = strings.take n s :: ms' /\ url_scan (strings.drop n s) ms'
      end
  end.
Proof.
  intros [|c s' ms' Hno Hrest|m rest ms' Hm Hrest].
  - reflexivity.
  - destruct (url_at (String c s')) as [n|] eqn:Hat; [|exact Hrest].
    apply url_at_Some in Hat as [Hmatch _]. exfalso. exact (Hno _ Hmatch).
  - pose proof (url_match_here_length _ _ Hm) as Hlen.
    rewrite (url_match_here_at _ _ Hm), take_app_length, drop_app_length.
    destruct m as [|c m]; [cbn in Hlen; lia|]. rewrite app_String.
    exists ms'. split; [reflexivity|exact Hrest].
Qed.

Lemma url_scan_unique (s : string) (ms ms' : list string) :
  url_scan s ms -> url_scan s ms' -> ms = ms'.
Proof.
  remember (String.length s) as len eqn:Hlen.
  revert s Hlen ms ms'. induction len as [len IH] using lt_wf_ind.
  intros s Hlen ms ms' Hscan Hscan'.
  apply url_scan_inv in Hscan. apply url_scan_inv in Hscan'.
  destruct s as [|c s]; [congruence|].
  destruct (url_at (String c s)) as [n|] eqn:Hat.
  - destruct Hscan as (l & -> & Hl). destruct Hscan' as (l' & -> & Hl').
    f_equal. apply url_at_Some in Hat as [_ Hn].
    apply (IH (String.length (strings.drop n (String c s)))) with (s := strings.drop n (String c s));
      [rewrite drop_length, Hlen; lia|reflexivity|exact Hl|exact Hl'].
  - apply (IH (String.length s)) with (s := s);
      [rewrite Hlen; cbn; lia|reflexivity|exact Hscan|exact Hscan'].
Qed.

(** C6. When the text is not blank and [html.Parse] fails, [extractUrls]
    returns what [urlRegex.FindAllString] finds in the raw text, and that is
    the scan of the text for URL matches: each match is http:// or https://
    followed by the longest run, not empty, of bytes that are neither white
    space nor quotes; the matches come in textual order, none is left out
    and none is dropped as a repetition, so the list can hold the same URL
    twice, as it does for the sample text. *)
Theorem extractUrls_fallback `{GoLibs} (htmlContent : string) (e : error) :
  strings.TrimSpace htmlContent <> "" ->
  html_Parse htmlContent = Err e ->
  extractUrls htmlContent = regexp.FindAllString urlRegex htmlContent
  /\ url_scan htmlContent (extractUrls htmlContent)
  /\ (forall ms, url_scan htmlContent ms -> ms = extractUrls htmlContent)
  /\ (htmlContent = Sample.broken_body ->
      extractUrls htmlContent
      = ["http://a.com/x"; "https://b.org/y?q=1"; "http://a.com/x"]
      /\ ~ List.NoDup (extractUrls htmlContent)).
Proof.
  intros Hblank Hparse.
  assert (extractUrls htmlContent = regexp.FindAllString urlRegex htmlContent) as Heq.
  { unfold extractUrls. rewrite Hparse.
    destruct (String.eqb_spec (strings.TrimSpace htmlContent) ""); [contradiction|].
    reflexivity. }
  rewrite Heq. split; [reflexivity|].
  split; [apply FindAllString_urlRegex_scan|].
  split.
  - intros ms Hms. apply (url_scan_unique htmlContent); [exact Hms|].
    apply FindAllString_urlRegex_scan.
  - intros ->.
    assert (regexp.FindAllString urlRegex Sample.broken_body
            = ["http://a.com/x"; "https://b.org/y?q=1"; "http://a.com/x"]) as ->
      by (vm_compute; reflexivity).
    split; [reflexivity|].
    intros Hnodup. apply List.NoDup_cons_iff in Hnodup as [Hnotin _].
    apply Hnotin. right. left. reflexivity.
Qed.

(** ** Claim C7 *)

(** In the concurrent variant the field [IP] is the raw header value with
    every comma turned into a line feed, and nothing else is done to it. *)
Lemma IP_of_processed `{GoLibs} (filePath : string) (rec : EmailRecord)
    (htmlContent : string) :
  processEmlFile filePath = Ok (rec, htmlContent) ->
  exists f mr,
    os_Open filePath = Ok f /\ mail_CreateReader f = Ok mr
    /\ IP rec
       = strings.ReplaceAll (h_Get (r_Header mr) "X-Originating-IP") ","
           (String "010" "").
Proof.
  intros Hrun.
  destruct (processEmlFile_Ok _ _ _ Hrun) as (f & mr & Hopen & Hreader & Hparts).
  destruct (processEmlFile_opened filePath f mr Hopen Hreader) as [_ Hok].
  destruct (Hok _ Hparts) as (rec' & Hrec' & _ & _ & Hip & _).
  assert (rec' = rec) as <- by congruence.
  exists f, mr. repeat split; assumption.
Qed.

(** C7 (the code departs from it). For a message whose X-Originating-IP
    header is [10.0.0.1] in square brackets, the concurrent variant of
    [processEmlFile] stores the value with its brackets; the brackets are not
    stripped. *)
Theorem originating_ip_keeps_brackets `{GoLibs} (filePath : string) (f : File)
    (mr : Reader Time) (htmlContent : string) :
  os_Open filePath = Ok f ->
  mail_CreateReader f = Ok mr ->
  htmlContent_of (r_Parts mr) = Ok htmlContent ->
  h_Get (r_Header mr) "X-Originating-IP" = "[10.0.0.1]" ->
  exists rec,
    processEmlFile filePath = Ok (rec, htmlContent)
    /\ IP rec = "[10.0.0.1]"
    /\ IP rec <> "10.0.0.1".
Proof.
  intros Hopen Hreader Hparts Hip.
  destruct (processEmlFile_opened filePath f mr Hopen Hreader) as [_ Hok].
  destruct (Hok _ Hparts) as (rec & Hrec & _ & _ & Hfield & _).
  exists rec. split; [exact Hrec|].
  rewrite Hfield, Hip. split; [reflexivity|discriminate].
Qed.

Example Sequential_strips_outer_brackets :
  strings.ReplaceAll (strings.Trim "[10.0.0.1]" "[]") "," (String "010" "") = "10.0.0.1".
Proof. vm_compute. reflexivity. Qed.

Example Sequential_keeps_inner_brackets :
  strings.ReplaceAll (strings.Trim "[10.0.0.1],[10.0.0.2]" "[]") "," "|"
  = "10.0.0.1]|[10.0.0.2".
Proof. vm_compute. reflexivity. Qed.

(** ** Claim C9 *)

Lemma sideEffects_renames (o : Options) (filePath : string) (rec : EmailRecord)
    (htmlContent : string) :
  let calls := sideEffects o filePath rec htmlContent in
  (renameByHeaderTo o <> "" ->
   List.filter is_renameFileTo calls
   = [call_renameFileTo filePath (inputRoot o) (renameByHeaderTo o) rec]
   /\ List.filter is_renameFile calls = [])
  /\ (renameByHeaderTo o = "" ->
      List.filter is_renameFileTo calls = []
      /\ List.filter is_renameFile calls
         = if renameByHeader o then [call_renameFile filePath rec] else []).
Proof.
  unfold sideEffects. cbn zeta.
  rewrite !List.filter_app.
  assert (forall p, (p = is_renameFile \/ p = is_renameFileTo) ->
            List.filter p
              (if negb (String.eqb (htmlOutDir o) "")
               then [call_writeHtmlFile filePath (inputRoot o) (htmlOutDir o) htmlContent]
               else []) = []) as Hhtml.
  { intros p [->| ->]; destruct (negb _); reflexivity. }
  rewrite !Hhtml by tauto. cbn [app].
  split; intros Hto.
  - apply String.eqb_neq in Hto. rewrite Hto. split; reflexivity.
  - rewrite Hto. cbn. destruct (renameByHeader o); split; reflexivity.
Qed.

(** C9. For a file that was processed, in the worker of the concurrent
    variant and in [walkDirectory] and [scanDirectoryOnce] of the sequential
    one alike: when a copy-to directory is given, the copy-and-rename is the
    one call made and no in-place rename is made, whatever the rename flag
    says; an in-place rename is made exactly when no copy-to directory is
    given and the rename flag is set.  A file that failed gets neither. *)
Theorem copy_to_takes_precedence `{GoLibs} (o : Options) (t : task) :
  let calls := snd (worker_body o t) in
  let calls' := snd (Sequential.visit_file o (path t)) in
  (renameByHeaderTo o <> "" ->
   List.filter is_renameFile calls = []
   /\ List.filter is_renameFile calls' = []
   /\ (forall rec htmlContent,
         processEmlFile (path t) = Ok (rec, htmlContent) ->
         List.filter is_renameFileTo calls
         = [call_renameFileTo (path t) (inputRoot o) (renameByHeaderTo o) rec])
   /\ (forall rec htmlContent,
         Sequential.processEmlFile (path t) = Ok (rec, htmlContent) ->
         List.filter is_renameFileTo calls'
         = [call_renameFileTo (path t) (inputRoot o) (renameByHeaderTo o) rec]))
  /\ (List.filter is_renameFile calls <> []
      <-> is_Ok (processEmlFile (path t)) = true
          /\ renameByHeaderTo o = "" /\ renameByHeader o = true)
  /\ (List.filter is_renameFile calls' <> []
      <-> is_Ok (Sequential.processEmlFile (path t)) = true
          /\ renameByHeaderTo o = "" /\ renameByHeader o = true).
Proof.
  cbn zeta. unfold worker_body, Sequential.visit_file.
  split; [intros Hto; repeat split|split].
  - destruct (processEmlFile (path t)) as [[rec h]|e]; [|reflexivity].
    apply (sideEffects_renames o (path t) rec h). exact Hto.
  - destruct (Sequential.processEmlFile (path t)) as [[rec h]|e]; [|reflexivity].
    apply (sideEffects_renames o (path t) rec h). exact Hto.
  - intros rec h ->. apply (sideEffects_renames o (path t) rec h). exact Hto.
  - intros rec h ->. apply (sideEffects_renames o (path t) rec h). exact Hto.
  - destruct (processEmlFile (path t)) as [[rec h]|e]; cbn [snd is_Ok].
    + destruct (sideEffects_renames o (path t) rec h) as [Hto Hnone].
      destruct (String.eqb_spec (renameByHeaderTo o) "") as [Heq|Hne].
      * destruct (Hnone Heq) as [_ ->].
        destruct (renameByHeader o); split; try discriminate; try tauto.
        intros (_ & _ & Hfalse). discriminate.
      * destruct (Hto Hne) as [_ ->]. split; [contradiction|tauto].
    + split; [contradiction|]. intros (Hfalse & _). discriminate.
  - destruct (Sequential.processEmlFile (path t)) as [[rec h]|e]; cbn [snd is_Ok].
    + destruct (sideEffects_renames o (path t) rec h) as [Hto Hnone].
      destruct (String.eqb_spec (renameByHeaderTo o) "") as [Heq|Hne].
      * destruct (Hnone Heq) as [_ ->].
        destruct (renameByHeader o); split; try discriminate; try tauto.
        intros (_ & _ & Hfalse). discriminate.
      * destruct (Hto Hne) as [_ ->]. split; [contradiction|tauto].
    + split; [contradiction|]. intros (Hfalse & _). discriminate.
Qed.

(** ** Claim C8 *)

Lemma rev_app_spec (s acc : string) : String.rev_app s acc = String.rev s +:+ acc.
Proof.
  unfold String.rev. revert acc. induction s as [|c s IH]; intros acc; [reflexivity|].
  cbn. rewrite (IH (String c "")), IH, app_assoc_string. reflexivity.
Qed.

Lemma rev_String (c : ascii) (s : string) :
  String.rev (String c s) = String.rev s +:+ String c "".
Proof. unfold String.rev at 1. cbn. apply rev_app_spec. Qed.

Lemma rev_app_string (s t : string) :
  String.rev (s +:+ t) = String.rev t +:+ String.rev s.
Proof.
  induction s as [|c s IH]; [rewrite app_empty_l, app_empty_r; reflexivity|].
  rewrite app_String, !rev_String, IH, app_assoc_string. reflexivity.
Qed.

Lemma rev_involutive_string (s : string) : String.rev (String.rev s) = s.
Proof.
  induction s as [|c s IH]; [reflexivity|].
  rewrite rev_String, rev_app_string, IH. reflexivity.
Qed.

Lemma bytes_rev (s : string) : strings.bytes (String.rev s) = rev (strings.bytes s).
Proof.
  induction s as [|c s IH]; [reflexivity|].
  rewrite rev_String, bytes_app, IH. reflexivity.
Qed.

Lemma leading_bytes (cs : list ascii) (c : ascii) (s : string) :
  strings.leading (map (fun a => String a "") cs) (String c s)
  = if existsb (Ascii.eqb c) cs then Some 1 else None.
Proof.
  unfold strings.leading. induction cs as [|a cs IH]; [reflexivity|].
  cbn [map find existsb]. rewrite prefix_byte, (Ascii.eqb_sym c a).
  destruct (Ascii.eqb a c); [reflexivity|exact IH].
Qed.

Lemma trim_left_bytes (cutset s : string) :
  strings.trim_left (map (fun a => String a "") (strings.bytes cutset)) s
  = strip (in_cutset cutset) s.
Proof.
  unfold strings.trim_left.
  induction s as [|c s IH]; [reflexivity|].
  cbn [strings.trim_left_from strip]. rewrite leading_bytes.
  fold (in_cutset cutset c). destruct (in_cutset cutset c); [exact IH|reflexivity].
Qed.

Lemma map_rev_bytes (cs : list ascii) :
  map String.rev (map (fun a => String a "") cs) = map (fun a => String a "") cs.
Proof. induction cs as [|a cs IH]; [reflexivity|]. cbn. f_equal. exact IH. Qed.

Lemma Trim_strip (s cutset : string) :
  strings.Trim s cutset
  = String.rev (strip (in_cutset cutset) (String.rev (strip (in_cutset cutset) s))).
Proof.
  unfold strings.Trim, strings.trim_right. cbn zeta.
  rewrite map_rev_bytes, !trim_left_bytes. reflexivity.
Qed.

Lemma strip_split (p : ascii -> bool) (s : string) :
  exists pre,
    s = pre +:+ strip p s /\ Forall (fun c => p c = true) (strings.bytes pre).
Proof.
  induction s as [|c s (pre & Hs & Hpre)]; [exists ""; split; [reflexivity|constructor]|].
  cbn [strip]. destruct (p c) eqn:Hc.
  - exists (String c pre). rewrite app_String, <- Hs. split; [reflexivity|].
    cbn. constructor; assumption.
  - exists "". split; [reflexivity|constructor].
Qed.

Lemma strip_head (p : ascii -> bool) (s : string) :
  match strip p s with "" => True | String c _ => p c = false end.
Proof.
  induction s as [|c s IH]; [exact I|]. cbn [strip].
  destruct (p c) eqn:Hc; [exact IH|exact Hc].
Qed.

(** Stripping at the far end keeps a head that is not stripped. *)
Lemma strip_rev_head (p : ascii -> bool) (c : ascii) (s : string) :
  p c = false ->
  exists s', String.rev (strip p (String.rev (String c s))) = String c s'.
Proof.
  intros Hc. destruct (strip_split p (String.rev (String c s))) as (pre & Hs & Hpre).
  apply (f_equal String.rev) in Hs.
  rewrite rev_involutive_string, rev_app_string in Hs.
  destruct (String.rev (strip p (String.rev (String c s)))) as [|c' s'] eqn:Hrev.
  - rewrite app_empty_l in Hs.
    assert (In c (strings.bytes (String.rev pre))) as Hin
      by (rewrite <- Hs; left; reflexivity).
    rewrite bytes_rev in Hin. apply in_rev in Hin.
    rewrite Forall_forall in Hpre. apply list_elem_of_In, Hpre in Hin. congruence.
  - rewrite app_String in Hs. injection Hs as <- _. exists s'. reflexivity.
Qed.

Lemma Trim_trimmed (s cutset : string) : trimmed_of cutset s (strings.Trim s cutset).
Proof.
  rewrite Trim_strip. set (p := in_cutset cutset).
  destruct (strip_split p s) as (pre & Hs & Hpre).
  destruct (strip_split p (String.rev (strip p s))) as (post & Hr & Hpost).
  apply (f_equal String.rev) in Hr.
  rewrite rev_involutive_string, rev_app_string in Hr.
  split; [|split].
  - exists pre, (String.rev post). split; [rewrite <- Hr; exact Hs|].
    split; [exact Hpre|].
    rewrite bytes_rev. apply Forall_forall. intros c Hin.
    rewrite Forall_forall in Hpost. apply Hpost.
    apply list_elem_of_In. apply list_elem_of_In, in_rev in Hin. exact Hin.
  - pose proof (strip_head p s) as Hhead.
    destruct (strip p s) as [|c u] eqn:Hu; [exact I|].
    destruct (strip_rev_head p c u Hhead) as (s' & ->). exact Hhead.
  - rewrite rev_involutive_string. apply strip_head.
Qed.

(** ** The pattern of [parseAddress] *)

Section Many.

Context {A : Type}.
Variable step : submatch.Step.
Variable k : string -> option A.

(** Where what follows fails on every rest of the text, the repetition
    fails. *)
Lemma many_fail (fuel min : nat) (s : string) :
  (forall n, k (strings.drop n s) = None) ->
  submatch.many step fuel min s k = None.
Proof.
  revert min s. induction fuel as [|fuel IH]; intros min s Hk; cbn [submatch.many].
  - destruct (min =? 0); [exact (Hk 0)|reflexivity].
  - assert ((if min =? 0 then k s else None) = None) as Hstop
      by (destruct (min =? 0); [exact (Hk 0)|reflexivity]).
    destruct (step s) as [[|w]|]; try exact Hstop.
    rewrite IH; [exact Hstop|].
    intros n. rewrite drop_drop. apply Hk.
Qed.

(** Where no item matches, the repetition ends. *)
Lemma many_here (fuel : nat) (s : string) :
  step s = None -> submatch.many step fuel 0 s k = k s.
Proof. intros Hstep. destruct fuel; cbn [submatch.many]; [|rewrite Hstep]; reflexivity. Qed.

(** Where what follows fails behind every further byte, the repetition ends
    here. *)
Lemma many_back (fuel : nat) (s : string) :
  (forall n, k (strings.drop (S n) s) = None) ->
  submatch.many step fuel 0 s k = k s.
Proof.
  intros Hk. destruct fuel as [|fuel]; [reflexivity|]. cbn [submatch.many].
  destruct (step s) as [[|w]|]; try reflexivity.
  rewrite many_fail; [reflexivity|].
  intros n. rewrite drop_drop. replace (S w + n) with (S (w + n)) by lia. apply Hk.
Qed.

(** A run of bytes that each are one item is taken whole before anything
    else is tried. *)
Lemma many_run (x y : string) (fuel min : nat) (a : A) :
  Forall (fun c => forall rest, step (String c rest) = Some 1) (strings.bytes x) ->
  min <= String.length x ->
  String.length x <= fuel ->
  submatch.many step (fuel - String.length x) 0 y k = Some a ->
  submatch.many step fuel min (x +:+ y) k = Some a.
Proof.
  revert fuel min. induction x as [|c x IH]; intros fuel min Hx Hmin Hfuel Hy.
  - cbn in Hmin. assert (min = 0) as -> by lia.
    rewrite Nat.sub_0_r in Hy. exact Hy.
  - apply Forall_cons in Hx as [Hc Hx]. cbn in Hmin, Hfuel.
    destruct fuel as [|fuel]; [lia|].
    rewrite app_String. cbn [submatch.many]. rewrite Hc.
    change (strings.drop 1 (String c (x +:+ y))) with (x +:+ y).
    rewrite (IH fuel (min - 1) Hx); [reflexivity|lia|lia|exact Hy].
Qed.

End Many.

Lemma take_all (s : string) : strings.take (String.length s) s = s.
Proof. induction s as [|c s IH]; [reflexivity|]. cbn. f_equal. exact IH. Qed.

Lemma drop_all (n : nat) (s : string) :
  String.length s <= n -> strings.drop n s = "".
Proof.
  revert s. induction n as [|n IH]; intros [|c s] Hn; cbn in *; try reflexivity; try lia.
  apply IH. lia.
Qed.

Lemma all_bytes_drop (p : ascii -> bool) (n : nat) (s : string) :
  all_bytes p s -> all_bytes p (strings.drop n s).
Proof.
  unfold all_bytes. revert s. induction n as [|n IH]; intros [|c s] Hs; try exact Hs.
  cbn. apply IH. apply Forall_cons in Hs as [_ Hs]. exact Hs.
Qed.

Lemma all_bytes_app (p : ascii -> bool) (s t : string) :
  all_bytes p s -> all_bytes p t -> all_bytes p (s +:+ t).
Proof. unfold all_bytes. rewrite bytes_app. intros Hs Ht. apply Forall_app. split; assumption. Qed.

Ltac every_byte c :=
  destruct c as [[] [] [] [] [] [] [] []]; vm_compute;
  repeat split; try reflexivity; try discriminate; try (intros; discriminate).

Lemma letter_is_domain (c : ascii) :
  Sequential.letter_byte c = true -> Sequential.domain_byte c = true.
Proof. unfold Sequential.domain_byte. intros ->. reflexivity. Qed.

Lemma domain_is_local (c : ascii) :
  Sequential.domain_byte c = true -> Sequential.local_byte c = true.
Proof. every_byte c. Qed.

(** A byte of the local part or of the domain is an ASCII byte and none of
    the bytes the pattern names between the groups. *)
Lemma local_byte_plain (c : ascii) :
  Sequential.local_byte c = true ->
  is_ascii c = true /\ c <> dquote /\ c <> "<"%char /\ c <> "@"%char
  /\ regexp.perl_space c = false.
Proof. every_byte c. Qed.

Lemma letter_byte_no_dot (c : ascii) :
  Sequential.letter_byte c = true -> c <> "."%char.
Proof. every_byte c. Qed.

Section Pattern.

Import submatch.

Lemma rune_but_ascii (q b : ascii) (rest : string) :
  is_ascii b = true -> b <> q -> rune_but q (String b rest) = Some 1.
Proof.
  intros Hb Hq. unfold rune_but.
  destruct (Ascii.eqb_spec q b) as [->|_]; [contradiction|].
  unfold utf8.width, is_ascii in *. apply Nat.ltb_lt in Hb.
  assert ((nat_of_ascii b <? 194) = true) as -> by (apply Nat.ltb_lt; lia).
  reflexivity.
Qed.

Lemma byte_same (a : ascii) (rest : string) : byte a (String a rest) = Some 1.
Proof. unfold byte. rewrite Ascii.eqb_refl. reflexivity. Qed.

Lemma byte_other (a b : ascii) (rest : string) :
  b <> a -> byte a (String b rest) = None.
Proof.
  intros Hne. unfold byte. destruct (Ascii.eqb_spec a b) as [->|_]; [contradiction|reflexivity].
Qed.

Lemma class_in (p : ascii -> bool) (wide : list string) (b : ascii) (rest : string) :
  p b = true -> class p wide (String b rest) = Some 1.
Proof. intros Hp. unfold class. rewrite Hp. reflexivity. Qed.

Lemma class_out (p : ascii -> bool) (b : ascii) (rest : string) :
  is_ascii b = true -> p b = false ->
  class p folds_to_letter (String b rest) = None
  /\ class p [] (String b rest) = None.
Proof.
  intros Hb Hp. unfold class. rewrite Hp. split; [|reflexivity].
  unfold folds_to_letter, strings.of_codes. cbn [map string_of_list_ascii List.find].
  rewrite !prefix_cons.
  assert (forall n, 128 <= n < 256 -> Ascii.eqb (ascii_of_nat n) b = false) as Hne.
  { intros n Hn. apply Ascii.eqb_neq. intros <-.
    unfold is_ascii in Hb. apply Nat.ltb_lt in Hb.
    rewrite nat_ascii_embedding in Hb; lia. }
  rewrite !Hne by lia. reflexivity.
Qed.

Lemma class_empty (p : ascii -> bool) (wide : list string) : class p wide "" = None.
Proof. reflexivity. Qed.

Lemma many_short {A} (step : Step) (fuel min : nat) (s : string)
    (k : string -> option A) :
  step s = None -> min <> 0 -> many step fuel min s k = None.
Proof.
  intros Hstep Hmin. apply Nat.eqb_neq in Hmin.
  destruct fuel; cbn [many]; rewrite ?Hstep, Hmin; reflexivity.
Qed.

Lemma many_empty {A} (step : Step) (k : string -> option A) (fuel : nat) :
  many step fuel 0 "" k = k "".
Proof.
  induction fuel as [|fuel IH]; [reflexivity|]. cbn [many Nat.eqb Nat.sub].
  destruct (step "") as [[|w]|]; try reflexivity.
  change (strings.drop (S w) "") with "". rewrite IH. destruct (k ""); reflexivity.
Qed.

Lemma many_whole {A} (step : Step) (k : string -> option A) (x : string)
    (fuel min : nat) (a : A) :
  Forall (fun c => forall rest, step (String c rest) = Some 1) (strings.bytes x) ->
  min <= String.length x ->
  String.length x <= fuel ->
  k "" = Some a ->
  many step fuel min x k = Some a.
Proof.
  intros Hx Hmin Hfuel Hk.
  pose proof (many_run step k x "" fuel min a Hx Hmin Hfuel) as Hrun.
  rewrite app_empty_r in Hrun. apply Hrun.
  rewrite many_empty. exact Hk.
Qed.

Variable c : ascii.
Variables d t : string.
Hypothesis Hc : Sequential.local_byte c = true.
Hypothesis Hd : all_bytes Sequential.domain_byte d.
Hypothesis Hd1 : d <> "".
Hypothesis Ht : all_bytes Sequential.letter_byte t.
Hypothesis Ht2 : 2 <= String.length t.

Let host : string := d +:+ String "." t.
Let address : string := String c (String "@" host).

Lemma host_bytes : all_bytes Sequential.domain_byte host.
Proof.
  apply all_bytes_app; [exact Hd|]. unfold all_bytes. cbn. constructor; [reflexivity|].
  eapply Forall_impl; [exact Ht|]. intros b. apply letter_is_domain.
Qed.

(** The second group takes an address of this shape whole. *)
Lemma addr_spec_match {A} (caps : Captures) (k : string -> Captures -> option A)
    (a : A) :
  k "" caps = Some a ->
  match_from Sequential.addr_spec address caps k = Some a.
Proof.
  intros Hk. unfold Sequential.addr_spec. cbn [match_from].
  apply (many_run _ _ (String c "") (String "@" host));
    [constructor; [intros rest; apply class_in, Hc|constructor]|cbn; lia|cbn; lia|].
  rewrite many_here
    by (apply class_out; [reflexivity|reflexivity]).
  rewrite byte_same. change (strings.drop 1 (String "@" host)) with host.
  apply (many_run _ _ d (String "." t)); [| | |].
  - eapply Forall_impl; [exact Hd|]. intros b Hb rest. apply class_in, Hb.
  - destruct d; [contradiction|cbn; lia].
  - unfold host. rewrite length_app_string. lia.
  - rewrite many_back.
    + rewrite byte_same. change (strings.drop 1 (String "." t)) with t.
      apply many_whole; [|exact Ht2|lia|exact Hk].
      eapply Forall_impl; [exact Ht|]. intros b Hb rest. apply class_in, Hb.
    + intros n. change (strings.drop (S n) (String "." t)) with (strings.drop n t).
      pose proof (all_bytes_drop _ n t Ht) as Hrest.
      destruct (strings.drop n t) as [|b rest]; [reflexivity|].
      apply Forall_cons in Hrest as [Hb _]. apply letter_byte_no_dot in Hb.
      rewrite byte_other by exact Hb. reflexivity.
Qed.

Lemma address_part_match {A} (caps : Captures) (k : string -> Captures -> option A)
    (a : A) :
  k "" ((2, address) :: caps) = Some a ->
  match_from Sequential.address_part address caps k = Some a.
Proof.
  intros Hk. unfold Sequential.address_part. cbn [match_from].
  destruct (local_byte_plain c Hc) as (_ & _ & Hlt & _).
  assert (byte "<" address = None) as -> by (apply byte_other; exact Hlt).
  rewrite (addr_spec_match _ _ a); [reflexivity|].
  cbn [byte strings.drop]. rewrite Nat.sub_0_r, take_all. exact Hk.
Qed.

(** Behind every further byte of the address the rest of the pattern
    fails. *)
Lemma address_part_fail {A} (n : nat) (caps : Captures)
    (k : string -> Captures -> option A) :
  match_from Sequential.behind_name (strings.drop (S n) address) caps
    (fun rest caps' => match_from Sequential.address_part rest caps' k) = None.
Proof.
  change (strings.drop (S n) address) with (strings.drop n (String "@" host)).
  unfold Sequential.behind_name, Sequential.address_part, Sequential.quote,
    Sequential.addr_spec.
  destruct n as [|n].
  - cbn [strings.drop match_from].
    rewrite (byte_other dquote "@") by discriminate.
    rewrite many_here by reflexivity.
    rewrite (byte_other "<" "@") by discriminate.
    apply many_short; [reflexivity|discriminate].
  - change (strings.drop (S n) (String "@" host)) with (strings.drop n host).
    pose proof (all_bytes_drop _ n host host_bytes) as Hrest.
    set (r := strings.drop n host) in *.
    assert (byte dquote r = None /\ byte "<" r = None
            /\ Sequential.white_space r = None) as (Hq & Hlt & Hsp).
    { destruct r as [|b rest]; [repeat split; reflexivity|].
      apply Forall_cons in Hrest as [Hb _].
      destruct (local_byte_plain b (domain_is_local b Hb)) as (Hascii & Hq & Hlt & _ & Hsp).
      repeat split; [apply byte_other, Hq|apply byte_other, Hlt|].
      apply class_out; assumption. }
    cbn [match_from]. rewrite Hq, (many_here _ _ _ _ Hsp), Hlt.
    apply many_fail. intros m.
    pose proof (all_bytes_drop _ m r Hrest) as Hm.
    destruct (strings.drop m r) as [|b rest]; [reflexivity|].
    apply Forall_cons in Hm as [Hb _].
    destruct (local_byte_plain b (domain_is_local b Hb)) as (_ & _ & _ & Hat & _).
    cbn [match_from]. rewrite byte_other by exact Hat. reflexivity.
Qed.

Lemma behind_name_match {A} (caps : Captures) (k : string -> Captures -> option A)
    (a : A) :
  k "" ((2, address) :: caps) = Some a ->
  match_from Sequential.behind_name address caps
    (fun rest caps' => match_from Sequential.address_part rest caps' k) = Some a.
Proof.
  intros Hk. unfold Sequential.behind_name, Sequential.quote. cbn [match_from].
  destruct (local_byte_plain c Hc) as (Hascii & Hq & _ & _ & Hsp).
  assert (byte dquote address = None) as -> by (apply byte_other; exact Hq).
  rewrite many_here by (apply class_out; assumption).
  apply address_part_match, Hk.
Qed.

(** For a text without double quotes before an address of this shape, the
    first group takes the text up to the last byte before the [@]. *)
Lemma address_regexp_cuts (pre : string) :
  plain_text pre ->
  FindStringSubmatch Sequential.address_regexp 2 (pre +:+ address)
  = [pre +:+ address; pre; address].
Proof.
  intros Hpre. unfold FindStringSubmatch.
  assert (match_from Sequential.address_regexp (pre +:+ address) [] at_end
          = Some [(2, address); (1, pre)]) as ->; [|reflexivity].
  unfold Sequential.address_regexp, Sequential.name_part. cbn [match_from].
  destruct (local_byte_plain c Hc) as (Hascii & Hq & _).
  assert (match_from Sequential.quote (pre +:+ address) []
            (fun rest caps' =>
               many (rune_but dquote) (String.length rest) 0 rest
                 (fun rest0 =>
                    match_from Sequential.behind_name rest0
                      ((1, strings.take (String.length rest - String.length rest0) rest)
                       :: caps')
                      (fun rest1 caps'0 =>
                         match_from Sequential.address_part rest1 caps'0 at_end)))
          = None) as ->.
  { unfold Sequential.quote. cbn [match_from].
    destruct pre as [|b pre'].
    - rewrite app_empty_l. unfold address. rewrite byte_other by exact Hq. reflexivity.
    - apply Forall_cons in Hpre as [[_ Hb] _].
      rewrite app_String, byte_other by exact Hb. reflexivity. }
  erewrite (many_run _ _ pre address); [reflexivity| | | |].
  - eapply Forall_impl; [exact Hpre|]. intros b [Hb Hbq] rest.
    apply rune_but_ascii; assumption.
  - lia.
  - rewrite length_app_string. lia.
  - rewrite many_back by (intros n; apply address_part_fail).
    apply behind_name_match.
    rewrite length_app_string, Nat.add_sub, take_app_length. reflexivity.
Qed.

End Pattern.

(** C8 (the code departs from it). [parseAddress] has the three stages of
    the claim: what [mail.ParseAddress] accepts is returned as parsed;
    otherwise the pattern is tried on the value without surrounding white
    space; and when the pattern finds nothing the name is empty and the
    address is the value without the spaces and double quotes at its two
    ends.  But the pattern does not split a bare display name from the
    address.  Its first group takes every byte that is not a double quote,
    as many as it can, and its second group is content with a local part of
    one byte: for a text without double quotes in front of an address, the
    name is everything up to the last byte before the [@], the rest of the
    local part included, and the address keeps that one byte.  And the
    concurrent variant has no second and no third stage: when the address
    list of the header does not parse, name and address are both empty. *)
Theorem parseAddress_cuts_the_local_part `{GoLibs} (pre : string) (c : ascii)
    (d t : string) (e : error) :
  let address := String c (String "@" (d +:+ String "." t)) in
  let input := pre +:+ address in
  plain_text pre ->
  Sequential.local_byte c = true ->
  all_bytes Sequential.domain_byte d ->
  d <> "" ->
  all_bytes Sequential.letter_byte t ->
  2 <= String.length t ->
  strings.TrimSpace input = input ->
  mail_ParseAddress input = Err e ->
  submatch.FindStringSubmatch Sequential.address_regexp 2 input = [input; pre; address]
  /\ Sequential.parseAddress input = (strings.TrimSpace pre, strings.TrimSpace address)
  /\ (forall value addr,
        mail_ParseAddress value = Ok addr ->
        Sequential.parseAddress value = (Name addr, Address addr))
  /\ (forall value e',
        mail_ParseAddress value = Err e' ->
        submatch.FindStringSubmatch Sequential.address_regexp 2 (strings.TrimSpace value)
        = [] ->
        Sequential.parseAddress value
        = ("", strings.Trim value (String " " (String dquote "")))
        /\ trimmed_of (String " " (String dquote "")) value
             (strings.Trim value (String " " (String dquote ""))))
  /\ (forall filePath f mr rec htmlContent,
        os_Open filePath = Ok f ->
        mail_CreateReader f = Ok mr ->
        processEmlFile filePath = Ok (rec, htmlContent) ->
        (forall e', h_AddressList (r_Header mr) "From" = Err e' ->
                    FromName rec = "" /\ FromEmail rec = "")
        /\ (forall e', h_AddressList (r_Header mr) "To" = Err e' ->
                       ToName rec = "" /\ ToEmail rec = "")).
Proof.
  intros address input Hpre Hc Hd Hd1 Ht Ht2 Htrim Hparse.
  pose proof (address_regexp_cuts c d t Hc Hd Hd1 Ht Ht2 pre Hpre) as Hcut.
  fold address in Hcut. fold input in Hcut.
  split; [exact Hcut|]. split; [|split; [|split]].
  - unfold Sequential.parseAddress. rewrite Hparse, Htrim, Hcut. reflexivity.
  - intros value addr Hvalue. unfold Sequential.parseAddress. rewrite Hvalue. reflexivity.
  - intros value e' Hvalue Hnone. split; [|apply Trim_trimmed].
    unfold Sequential.parseAddress. rewrite Hvalue, Hnone. reflexivity.
  - intros filePath f mr rec htmlContent Hopen Hreader Hrun.
    unfold processEmlFile in Hrun. rewrite Hopen, Hreader in Hrun.
    destruct (htmlContent_of (r_Parts mr)) as [h|e'] eqn:Hparts.
    + split; intros e' Hlist; rewrite Hlist in Hrun; cbn in Hrun;
        destruct (first_address _) in Hrun; injection Hrun as <- _; split; reflexivity.
    + destruct (first_address _) in Hrun. destruct (first_address _) in Hrun.
      discriminate.
Qed.

Example parseAddress_quoted_name :
  submatch.FindStringSubmatch Sequential.address_regexp 2
    (String dquote "Bob" +:+ String dquote " <bob@B.org")
  = [String dquote "Bob" +:+ String dquote " <bob@B.org"; "Bob"; "bob@B.org"].
Proof. vm_compute. reflexivity. Qed.

Example parseAddress_bare_address :
  submatch.FindStringSubmatch Sequential.address_regexp 2 "bob@b.org>"
  = ["bob@b.org>"; "bo"; "b@b.org"].
Proof. vm_compute. reflexivity. Qed.

Example parseAddress_no_address :
  submatch.FindStringSubmatch Sequential.address_regexp 2 "undisclosed recipients" = [].
Proof. vm_compute. reflexivity. Qed.

(** ** Claim C3 *)

Module pool_facts.

Import pool pool_spec.

Section Facts.

Context `{GoLibs}.
Variable o : Options.
Variable paths : list string.
Variable n : nat.

Lemma worker_split (ws : list Worker) (i : nat) (w : Worker) :
  ws !! i = Some w ->
  exists l1 l2, ws = l1 ++ w :: l2 /\ forall w', <[i := w']> ws = l1 ++ w' :: l2.
Proof.
  intros Hi. apply list_elem_of_split_length in Hi as (l1 & l2 & -> & ->).
  exists l1, l2. split; [reflexivity|]. intros w'.
  rewrite insert_app_r_alt by lia. rewrite Nat.sub_diag. reflexivity.
Qed.

Ltac step_cases Hstep :=
  unfold step_of, step_main, step_worker in Hstep; cbn in Hstep;
  repeat case_match; simplify_eq/=.

(** Every step brings the end closer. *)
Lemma step_measure (a : Actor) (s s' : State) :
  step_of o (length paths) a s = Some s' -> measure s' < measure s.
Proof.
  intros Hstep. destruct s as [m ts cl ws g rs snt cs recs].
  destruct a as [|i]; step_cases Hstep; unfold measure; cbn;
    rewrite ?length_app; cbn; try lia;
    match goal with
    | Hi : ws !! i = Some _ |- _ =>
        apply worker_split in Hi as (l1 & l2 & -> & Hins); rewrite Hins
    end;
    rewrite !map_app, !list_sum_app; cbn; lia.
Qed.
Lemma Inv_start (s0 : State) :
  start paths (Z.of_nat n) = Some s0 -> Inv o paths n s0.
Proof.
  unfold start. destruct (Z.ltb_spec (Z.of_nat n) 0) as [Hneg|_]; [lia|].
  rewrite Nat2Z.id. intros [= <-].
  assert (concat (map (owed_of o) (replicate n Idle)) = []) as Howed
    by (clear; induction n as [|k IH]; [reflexivity|exact IH]).
  constructor; unfold owed; cbn.
  - rewrite Howed, app_nil_r. reflexivity.
  - exists []. split; reflexivity.
  - clear. induction n as [|k IH]; cbn; [reflexivity|f_equal; exact IH].
  - split; [intros _; eexists; reflexivity|reflexivity].
  - intros (i & Hi). apply lookup_replicate in Hi as [Hi _]. discriminate.
  - intros [Hm|Hm]; discriminate.
  - discriminate.
  - apply length_replicate.
  - lia.
Qed.

Lemma filter_alive_insert (l1 l2 : list Worker) (w w' : Worker) :
  alive w = true ->
  length (List.filter alive (l1 ++ w' :: l2)) + (if alive w' then 0 else 1)
  = length (List.filter alive (l1 ++ w :: l2)).
Proof.
  intros Hw. rewrite !List.filter_app, !length_app. cbn. rewrite Hw.
  destruct (alive w'); cbn; lia.
Qed.

Lemma owed_workers_insert (l1 l2 : list Worker) (w : Worker) :
  concat (map (owed_of o) (l1 ++ w :: l2))
  = concat (map (owed_of o) l1) ++ owed_of o w ++ concat (map (owed_of o) l2).
Proof. rewrite map_app, concat_app. reflexivity. Qed.

Lemma result_of_body (t : task) (r : result) (cs : list Call) :
  worker_body o t = (r, cs) -> r = result_of o (path t).
Proof. unfold result_of. destruct t as [p]. cbn. intros ->. reflexivity. Qed.

Lemma exited_lookup_insert (l1 l2 : list Worker) (w w' : Worker) (j : nat) :
  w' <> Exited ->
  (l1 ++ w' :: l2) !! j = Some Exited ->
  exists j', (l1 ++ w :: l2) !! j' = Some Exited.
Proof.
  intros Hw' Hj.
  destruct (lookup_app_Some l1 (w' :: l2) j Exited) as [[Hl|[Hge Hr]] _]; [exact Hj| |].
  - exists j. apply lookup_app_l_Some. exact Hl.
  - destruct (j - length l1) as [|k] eqn:Hk; cbn in Hr; [congruence|].
    exists (length l1 + S k). rewrite lookup_app_r by lia.
    replace (length l1 + S k - length l1) with (S k) by lia. exact Hr.
Qed.

Lemma no_alive_all_exited (ws : list Worker) :
  length (List.filter alive ws) = 0 -> Forall (fun w => w = Exited) ws.
Proof.
  induction ws as [|w ws IH]; cbn; [constructor|].
  destruct w; cbn; try discriminate. intros Hlen. constructor; [reflexivity|auto].
Qed.

Lemma all_exited_middle (l1 l2 : list Worker) (w : Worker) :
  Forall (fun w => w = Exited) (l1 ++ w :: l2) -> w = Exited.
Proof.
  intros Hall. apply Forall_app in Hall as [_ Hall].
  apply Forall_cons in Hall as [Hw _]. exact Hw.
Qed.

Lemma successes_snoc (drained : list result) (r : result) :
  successes (drained ++ [r])
  = successes drained
    ++ match err r with None => [record r] | Some _ => [] end.
Proof. unfold successes. rewrite omap_app. cbn. destruct (err r); reflexivity. Qed.

(** Every step keeps the invariant. *)
Lemma Inv_step (a : Actor) (s s' : State) :
  Inv o paths n s -> step_of o (length paths) a s = Some s' -> Inv o paths n s'.
Proof.
  intros [Hperm (drained & Hsent & Hrecs) Hwg Hclosed Hexit Hdone Hfin Hlen Hcap] Hstep.
  destruct s as [m ts cl ws g rs snt cs recs]. unfold owed in *. cbn in *.
  destruct a as [|i]; step_cases Hstep;
    try match goal with
        | Hi : ws !! i = Some _ |- _ =>
            apply worker_split in Hi as (l1 & l2 & -> & Hins)
        end;
    try match goal with
        | Hbody : worker_body o ?t = (?r, _) |- _ =>
            apply result_of_body in Hbody; subst r
        end;
    constructor; unfold owed; cbn; rewrite ?Hins;
    try assumption; try reflexivity; try discriminate;
    try (intros [?|?]; discriminate);
    try (rewrite ?length_app in *; cbn in *; lia).
  all: try (etrans; [|exact Hperm]; rewrite ?map_app, ?concat_app; cbn;
            solve_Permutation).
  all: try (rewrite !List.filter_app, !length_app; cbn; lia).
  all: try match goal with
           | |- exists d, ?x ++ ?r :: ?l = d ++ ?l /\ _ =>
               exists (x ++ [r]); rewrite successes_snoc, <- app_assoc;
               match goal with Herr : err r = _ |- _ => rewrite Herr end;
               cbn; rewrite ?app_nil_r; split; reflexivity
           | |- exists d, _ =>
               exists drained; rewrite <- ?app_assoc; split; reflexivity
           end.
  all: try match goal with
           | |- _ <-> _ =>
               split;
               [intros Hc;
                first [solve [eauto]
                      |apply Hclosed in Hc as [? ?]; discriminate
                      |discriminate]
               |intros [? ?]; first [discriminate|apply Hclosed; eauto]]
           end.
  all: try match goal with
           | |- _ \/ _ -> Forall _ (_ ++ _ :: _) =>
               intros Hm; specialize (Hdone Hm);
               apply all_exited_middle in Hdone; first [discriminate|subst; assumption]
           | |- _ \/ _ -> Forall _ _ =>
               first [exact Hdone
                     |intros _; apply Hdone; left; reflexivity
                     |intros _; apply no_alive_all_exited, Nat.eqb_eq; assumption]
           | |- ?m = Finished -> _ =>
               intros Hm; specialize (Hdone (or_intror Hm));
               apply all_exited_middle in Hdone; discriminate
           end.
  - intros Hex. split; [apply Hexit, Hex|reflexivity].
  - intros Hex. destruct (Hexit Hex) as [_ ->].
    destruct Hclosed as [_ Hc]. discriminate Hc. eauto.
  - intros _. split; reflexivity.
  - intros (j & Hj). apply (exited_lookup_insert _ _ Idle) in Hj; [|discriminate].
    destruct (Hexit Hj) as [Hts _]. discriminate.
  - intros (j & Hj). apply (exited_lookup_insert _ _ (Running t)) in Hj; [|discriminate].
    exact (Hexit Hj).
  - intros (j & Hj). apply (exited_lookup_insert _ _ (Sending r)) in Hj; [|discriminate].
    exact (Hexit Hj).
Qed.

Lemma Inv_reachable (s0 s : State) :
  Inv o paths n s0 -> reachable o (length paths) s0 s -> Inv o paths n s.
Proof.
  intros Hinv Hreach. induction Hreach as [|s s' _ IH [a Hstep]]; [exact Hinv|].
  exact (Inv_step a s s' IH Hstep).
Qed.

Lemma alive_worker (ws : list Worker) :
  length (List.filter alive ws) <> 0 ->
  exists i w, ws !! i = Some w /\ w <> Exited.
Proof.
  induction ws as [|w ws IH]; cbn; [congruence|].
  destruct w; cbn; intros Hlen;
    try (exists 0; eexists; split; [reflexivity|discriminate]).
  destruct (IH Hlen) as (i & w & Hi & Hw). exists (S i), w. split; assumption.
Qed.

Lemma owed_length_sending (ws : list Worker) (i : nat) (r : result) :
  ws !! i = Some (Sending r) -> 0 < length (concat (map (owed_of o) ws)).
Proof.
  intros Hi. apply worker_split in Hi as (l1 & l2 & -> & _).
  rewrite owed_workers_insert, !length_app. cbn. lia.
Qed.

(** A state that is not the last one has a goroutine that can step. *)
Lemma Inv_progress (s : State) :
  Inv o paths n s -> main s <> Finished -> exists s', step o (length paths) s s'.
Proof.
  intros [Hperm (drained & Hsent & Hrecs) Hwg Hclosed Hexit Hdone Hfin Hlen Hcap] Hmain.
  destruct s as [m ts cl ws g rs snt cs recs]. unfold step, owed in *. cbn in *.
  destruct m as [[|p rest]| | |]; try contradiction.
  - eexists. exists MainG. reflexivity.
  - assert ((length ts <? length paths) = true) as Hlt
      by (apply Nat.ltb_lt; cbn in Hcap; lia).
    eexists. exists MainG. unfold step_of, step_main. cbn [main tasks].
    rewrite Hlt. reflexivity.
  - destruct (Nat.eqb_spec g 0) as [Hg|Hg].
    + eexists. exists MainG. cbn. rewrite Hg. reflexivity.
    + rewrite Hwg in Hg. destruct (alive_worker ws Hg) as (i & w & Hi & Hw).
      destruct w as [|t|r|]; [| | |contradiction].
      * destruct ts as [|t ts].
        -- assert (cl = true) as ->.
           { destruct cl; [reflexivity|]. destruct Hclosed as [Hc _].
             destruct (Hc eq_refl) as [rest Hrest]. discriminate. }
           eexists. exists (WorkerG i). unfold step_of, step_worker.
           cbn [workers tasks tasks_closed]. rewrite Hi. reflexivity.
        -- eexists. exists (WorkerG i). unfold step_of, step_worker.
           cbn [workers tasks tasks_closed]. rewrite Hi. reflexivity.
      * destruct (worker_body o t) as [r cs'] eqn:Hbody.
        eexists. exists (WorkerG i). unfold step_of, step_worker.
        cbn [workers]. rewrite Hi, Hbody. reflexivity.
      * pose proof (owed_length_sending ws i r Hi) as Howed.
        apply Permutation_length in Hperm.
        rewrite Hsent, !length_app, !length_map in Hperm. cbn in Hperm.
        assert ((length rs <? length paths) = true) as Hlt by (apply Nat.ltb_lt; lia).
        eexists. exists (WorkerG i). unfold step_of, step_worker. cbn [workers results].
        rewrite Hi, Hlt. reflexivity.
  - destruct rs as [|r rs]; eexists; exists MainG; reflexivity.
Qed.

Lemma successes_length (ps : list string) :
  length (successes (map (result_of o) ps)) + failures ps = length ps.
Proof.
  unfold successes, failures.
  induction ps as [|p ps IH]; [reflexivity|]. cbn [map List.filter length].
  change (omap ?f (?x :: ?l))
    with (match f x with Some y => y :: omap f l | None => omap f l end).
  unfold result_of at 1. unfold worker_body. cbn.
  destruct (processEmlFile p) as [[rec h]|e]; cbn; lia.
Qed.

(** What a finished run of a pool with at least one worker has produced. *)
Lemma finished_run (s0 s : State) :
  0 < n ->
  start paths (Z.of_nat n) = Some s0 ->
  reachable o (length paths) s0 s ->
  main s = Finished ->
  Permutation (sent s) (map (result_of o) paths)
  /\ records s = successes (sent s)
  /\ Permutation (records s) (successes (map (result_of o) paths))
  /\ length (records s) = length paths - failures paths.
Proof.
  intros Hn Hstart Hreach Hmain.
  pose proof (Inv_reachable s0 s (Inv_start s0 Hstart) Hreach)
    as [Hperm (drained & Hsent & Hrecs) Hwg Hclosed Hexit Hdone Hfin Hlen Hcap].
  specialize (Hdone (or_intror Hmain)). specialize (Hfin Hmain).
  assert (tasks s = []) as Hts.
  { apply Hexit. exists 0. destruct (workers s) as [|w ws]; [cbn in Hlen; lia|].
    apply Forall_cons in Hdone as [-> _]. reflexivity. }
  assert (concat (map (owed_of o) (workers s)) = []) as Hws.
  { clear -Hdone. induction Hdone as [|w ws -> _ IH]; [reflexivity|exact IH]. }
  unfold owed in Hperm. rewrite Hmain, Hts, Hws in Hperm. cbn in Hperm.
  rewrite app_nil_r in Hperm. rewrite Hfin, app_nil_r in Hsent. subst drained.
  assert (Permutation (records s) (successes (map (result_of o) paths))) as Hrp
    by (rewrite Hrecs; unfold successes; apply omap_Permutation, Hperm).
  repeat split; try assumption.
  rewrite (Permutation_length Hrp).
  pose proof (successes_length paths). lia.
Qed.

(** Some run reaches the end. *)
Lemma run_finishes (s0 s : State) :
  Inv o paths n s0 -> reachable o (length paths) s0 s ->
  exists sf, reachable o (length paths) s0 sf /\ main sf = Finished.
Proof.
  intros Hinv. remember (measure s) as k eqn:Hk. revert s Hk.
  induction k as [k IH] using lt_wf_ind. intros s Hk Hreach.
  destruct (main s) eqn:Hmain; try (exists s; split; [exact Hreach|exact Hmain]).
  all: destruct (Inv_progress s (Inv_reachable s0 s Hinv Hreach)) as (s' & Hstep);
    [rewrite Hmain; discriminate|].
  all: pose proof Hstep as [a Ha]; apply step_measure in Ha.
  all: apply (IH (measure s')) with (s := s');
    [lia|reflexivity|exact (reach_step _ _ _ _ _ Hreach Hstep)].
Qed.

End Facts.

End pool_facts.

(** ** The pool in a changing file tree *)

Module pool_fs_facts.

Import pool pool_spec pool_fs pool_fs_spec.

Section Shape.

Context `{GoLibs}.
Variable o : Options.
Variable paths : list string.
Variable n : nat.

Ltac step_cases Hstep :=
  unfold pool.step_of, step_main, step_worker in Hstep; cbn in Hstep;
  repeat case_match; simplify_eq/=.

Lemma Shape_start (s0 : State) :
  pool.start paths (Z.of_nat n) = Some s0 -> Shape paths n s0.
Proof.
  unfold pool.start. destruct (Z.ltb_spec (Z.of_nat n) 0) as [Hneg|_]; [lia|].
  rewrite Nat2Z.id. intros [= <-].
  assert (list_sum (map busy (replicate n Idle)) = 0) as Hbusy
    by (clear; induction n as [|k IH]; [reflexivity|exact IH]).
  constructor; unfold owing; cbn -[list_sum].
  - rewrite Hbusy. lia.
  - exists []. split; reflexivity.
  - clear. induction n as [|k IH]; cbn; [reflexivity|f_equal; exact IH].
  - split; [intros _; eexists; reflexivity|reflexivity].
  - intros (i & Hi). apply lookup_replicate in Hi as [Hi _]. discriminate.
  - intros [Hm|Hm]; discriminate.
  - discriminate.
  - apply length_replicate.
  - lia.
Qed.

(** Every step keeps the shape, whatever the pipeline returns. *)
Lemma Shape_step (a : Actor) (s s' : State) :
  Shape paths n s -> pool.step_of o (length paths) a s = Some s' -> Shape paths n s'.
Proof.
  intros [Hcount (drained & Hsent & Hrecs) Hwg Hclosed Hexit Hdone Hfin Hlen Hcap] Hstep.
  destruct s as [m ts cl ws g rs snt cs recs]. unfold owing in *. cbn in *.
  destruct a as [|i]; step_cases Hstep;
    try match goal with
        | Hi : ws !! i = Some _ |- _ =>
            apply pool_facts.worker_split in Hi as (l1 & l2 & -> & Hins)
        end;
    constructor; unfold owing; cbn; rewrite ?Hins;
    try assumption; try reflexivity; try discriminate;
    try (intros [?|?]; discriminate);
    try (rewrite ?length_app, ?map_app, ?list_sum_app in *; cbn in *; lia).
  all: try (rewrite !List.filter_app, !length_app; cbn; lia).
  all: try match goal with
           | |- exists d, ?x ++ ?r :: ?l = d ++ ?l /\ _ =>
               exists (x ++ [r]); rewrite pool_facts.successes_snoc, <- app_assoc;
               match goal with Herr : err r = _ |- _ => rewrite Herr end;
               cbn; rewrite ?app_nil_r; split; reflexivity
           | |- exists d, _ =>
               exists drained; rewrite <- ?app_assoc; split; reflexivity
           end.
  all: try match goal with
           | |- _ <-> _ =>
               split;
               [intros Hc;
                first [solve [eauto]
                      |apply Hclosed in Hc as [? ?]; discriminate
                      |discriminate]
               |intros [? ?]; first [discriminate|apply Hclosed; eauto]]
           end.
  all: try match goal with
           | |- _ \/ _ -> Forall _ (_ ++ _ :: _) =>
               intros Hm; specialize (Hdone Hm);
               apply pool_facts.all_exited_middle in Hdone;
               first [discriminate|subst; assumption]
           | |- _ \/ _ -> Forall _ _ =>
               first [exact Hdone
                     |intros _; apply Hdone; left; reflexivity
                     |intros _; apply pool_facts.no_alive_all_exited, Nat.eqb_eq; assumption]
           | |- ?m = Finished -> _ =>
               intros Hm; specialize (Hdone (or_intror Hm));
               apply pool_facts.all_exited_middle in Hdone; discriminate
           end.
  - intros Hex. split; [apply Hexit, Hex|reflexivity].
  - intros Hex. destruct (Hexit Hex) as [_ ->].
    destruct Hclosed as [_ Hc]. discriminate Hc. eauto.
  - intros _. split; reflexivity.
  - intros (j & Hj).
    apply (pool_facts.exited_lookup_insert _ _ Idle) in Hj; [|discriminate].
    destruct (Hexit Hj) as [Hts _]. discriminate.
  - intros (j & Hj).
    apply (pool_facts.exited_lookup_insert _ _ (Running t)) in Hj; [|discriminate].
    exact (Hexit Hj).
  - intros (j & Hj).
    apply (pool_facts.exited_lookup_insert _ _ (Sending r)) in Hj; [|discriminate].
    exact (Hexit Hj).
Qed.

Lemma busy_sending (ws : list Worker) (i : nat) (r : result) :
  ws !! i = Some (Sending r) -> 0 < list_sum (map busy ws).
Proof.
  intros Hi. apply pool_facts.worker_split in Hi as (l1 & l2 & -> & _).
  rewrite map_app, list_sum_app. cbn. lia.
Qed.

(** A state that is not the last one has a goroutine that can step. *)
Lemma Shape_progress (s : State) :
  Shape paths n s -> main s <> Finished ->
  exists a s', pool.step_of o (length paths) a s = Some s'.
Proof.
  intros [Hcount (drained & Hsent & Hrecs) Hwg Hclosed Hexit Hdone Hfin Hlen Hcap] Hmain.
  destruct s as [m ts cl ws g rs snt cs recs]. unfold owing in *. cbn in *.
  destruct m as [[|p rest]| | |]; try contradiction.
  - exists MainG. eexists. reflexivity.
  - assert ((length ts <? length paths) = true) as Hlt
      by (apply Nat.ltb_lt; cbn in Hcap; lia).
    exists MainG. eexists. unfold pool.step_of, step_main. cbn [main tasks].
    rewrite Hlt. reflexivity.
  - destruct (Nat.eqb_spec g 0) as [Hg|Hg].
    + exists MainG. eexists. cbn. rewrite Hg. reflexivity.
    + rewrite Hwg in Hg. destruct (pool_facts.alive_worker ws Hg) as (i & w & Hi & Hw).
      destruct w as [|t|r|]; [| | |contradiction].
      * destruct ts as [|t ts].
        -- assert (cl = true) as ->.
           { destruct cl; [reflexivity|]. destruct Hclosed as [Hc _].
             destruct (Hc eq_refl) as [rest Hrest]. discriminate. }
           exists (WorkerG i). eexists. unfold pool.step_of, step_worker.
           cbn [workers tasks tasks_closed]. rewrite Hi. reflexivity.
        -- exists (WorkerG i). eexists. unfold pool.step_of, step_worker.
           cbn [workers tasks tasks_closed]. rewrite Hi. reflexivity.
      * destruct (worker_body o t) as [r cs'] eqn:Hbody.
        exists (WorkerG i). eexists. unfold pool.step_of, step_worker.
        cbn [workers]. rewrite Hi, Hbody. reflexivity.
      * pose proof (busy_sending ws i r Hi) as Hbusy. unfold list_sum in Hbusy.
        rewrite Hsent, !length_app in Hcount.
        assert ((length rs <? length paths) = true) as Hlt by (apply Nat.ltb_lt; lia).
        exists (WorkerG i). eexists. unfold pool.step_of, step_worker.
        cbn [workers results]. rewrite Hi, Hlt. reflexivity.
  - destruct rs as [|r rs]; exists MainG; eexists; reflexivity.
Qed.

End Shape.

Section Ledger.

Context `{GoLibs}.
Variable World : Type.
Variable look : World -> string -> Res File.
Variable effect : World -> Call -> World.
Variable o : Options.
Variable paths : list string.

#[local] Abbreviation step_of := (pool_fs.step_of World look effect o (length paths)).
#[local] Abbreviation reachable := (pool_fs.reachable World look effect o (length paths)).
#[local] Abbreviation libs_in := (pool_fs.libs_in World look).
#[local] Abbreviation outcome := (pool_fs_spec.outcome World look).
#[local] Abbreviation pipeline_calls := (pool_fs_spec.pipeline_calls World look o).
#[local] Abbreviation pipeline_record := (pool_fs_spec.pipeline_record World look).
#[local] Abbreviation pipeline_fails := (pool_fs_spec.pipeline_fails World look).
#[local] Abbreviation log_records := (pool_fs_spec.log_records World look).
#[local] Abbreviation log_failures := (pool_fs_spec.log_failures World look).
#[local] Abbreviation records_in := (pool_fs_spec.records_in World look).
#[local] Abbreviation failures_in := (pool_fs_spec.failures_in World look).
#[local] Abbreviation Ledger := (pool_fs_spec.Ledger World look).

Ltac step_cases Hstep :=
  unfold pool.step_of, step_main, step_worker in Hstep; cbn in Hstep;
  repeat case_match; simplify_eq/=.

(** The loop body in a tree: the result and the calls of the pipeline
    there. *)
Lemma worker_body_in (w : World) (t : task) :
  worker_body (H := libs_in w) o t = (outcome (path t, w), pipeline_calls w (path t)).
Proof.
  unfold worker_body, pool_fs_spec.outcome, pool_fs_spec.pipeline_calls. cbn [fst snd].
  destruct (processEmlFile (path t)) as [[rec h]|e]; reflexivity.
Qed.

(** A step of the batch is a step of the pool in the tree as it is. *)
Lemma step_pool (a : Actor) (b b' : Batch World) :
  step_of a b = Some b' ->
  pool.step_of (H := libs_in (world b)) o (length paths) a (st b) = Some (st b')
  /\ match in_hand a (st b) with
     | Some t =>
         world b' = fold_left effect (pipeline_calls (world b) (path t)) (world b)
         /\ log b' = log b ++ [(path t, world b)]
     | None => world b' = world b /\ log b' = log b
     end.
Proof.
  unfold pool_fs.step_of.
  destruct (pool.step_of o (length paths) a (st b)) as [s'|]; [|discriminate].
  destruct (in_hand a (st b)) as [t|]; intros [= <-]; cbn;
    rewrite ?worker_body_in; repeat split; reflexivity.
Qed.

Lemma pool_step_lifts (a : Actor) (b : Batch World) (s' : State) :
  pool.step_of (H := libs_in (world b)) o (length paths) a (st b) = Some s' ->
  exists b', step_of a b = Some b' /\ st b' = s'.
Proof.
  intros Hstep. unfold pool_fs.step_of. rewrite Hstep.
  destruct (in_hand a (st b)); eexists; split; reflexivity.
Qed.

Variable n : nat.
Variable w0 : World.

Lemma start_batch (b0 : Batch World) :
  pool_fs.start World paths (Z.of_nat n) w0 = Some b0 ->
  exists s0,
    pool.start paths (Z.of_nat n) = Some s0 /\ b0 = mkBatch s0 w0 []
    /\ s0 = mkState (Enqueue paths) [] false (replicate n Idle) n [] [] [] [].
Proof.
  unfold pool_fs.start, pool.start.
  destruct (Z.ltb_spec (Z.of_nat n) 0) as [Hneg|_]; [lia|].
  rewrite Nat2Z.id. intros [= <-]. eexists. repeat split.
Qed.

Lemma Shape_reachable (b0 b : Batch World) :
  pool_fs.start World paths (Z.of_nat n) w0 = Some b0 ->
  reachable b0 b ->
  Shape paths n (st b).
Proof.
  intros Hstart Hreach. induction Hreach as [|b b' _ IH [a Hstep]].
  - destruct (start_batch b0 Hstart) as (s0 & Hs0 & -> & _).
    exact (Shape_start paths n s0 Hs0).
  - apply step_pool in Hstep as [Hstep _].
    exact (Shape_step (H := libs_in (world b)) o paths n a _ _ IH Hstep).
Qed.

(** Every step brings the end closer, and a state that is not the last one
    has a goroutine that can step. *)
Lemma step_closer (b b' : Batch World) :
  pool_fs.step World look effect o (length paths) b b' ->
  measure (st b') < measure (st b).
Proof.
  intros [a Hstep]. apply step_pool in Hstep as [Hstep _].
  exact (pool_facts.step_measure (H := libs_in (world b)) o paths a _ _ Hstep).
Qed.

Lemma progress (b0 b : Batch World) :
  pool_fs.start World paths (Z.of_nat n) w0 = Some b0 ->
  reachable b0 b ->
  main (st b) <> Finished ->
  exists b', pool_fs.step World look effect o (length paths) b b'.
Proof.
  intros Hstart Hreach Hmain.
  destruct (Shape_progress (H := libs_in (world b)) o paths n (st b)
              (Shape_reachable b0 b Hstart Hreach) Hmain) as (a & s' & Hstep).
  destruct (pool_step_lifts a b s' Hstep) as (b' & Hb' & _).
  exists b', a. exact Hb'.
Qed.

(** Some run reaches the end. *)
Lemma batch_finishes (b0 b : Batch World) :
  pool_fs.start World paths (Z.of_nat n) w0 = Some b0 ->
  reachable b0 b ->
  exists bf, reachable b0 bf /\ main (st bf) = Finished.
Proof.
  intros Hstart. remember (measure (st b)) as k eqn:Hk. revert b Hk.
  induction k as [k IH] using lt_wf_ind. intros b Hk Hreach.
  destruct (main (st b)) eqn:Hmain; try (exists b; split; [exact Hreach|exact Hmain]).
  all: destruct (progress b0 b Hstart Hreach) as (b' & Hstep);
    [rewrite Hmain; discriminate|].
  all: pose proof (step_closer b b' Hstep) as Hless.
  all: apply (IH (measure (st b'))) with (b := b');
    [lia|reflexivity|exact (pool_fs.reach_step _ _ _ _ _ _ _ _ Hreach Hstep)].
Qed.

Lemma hands_insert (l1 l2 : list Worker) (w : Worker) :
  concat (map hand (l1 ++ w :: l2))
  = concat (map hand l1) ++ hand w ++ concat (map hand l2).
Proof. rewrite map_app, concat_app. reflexivity. Qed.

Lemma outbound_insert (l1 l2 : list Worker) (w : Worker) :
  concat (map outbound (l1 ++ w :: l2))
  = concat (map outbound l1) ++ outbound w ++ concat (map outbound l2).
Proof. rewrite map_app, concat_app. reflexivity. Qed.

Lemma result_in (w : World) (t : task) (r : result) (cs : list Call) :
  worker_body (H := libs_in w) o t = (r, cs) -> r = outcome (path t, w).
Proof. rewrite worker_body_in. intros [= <- _]. reflexivity. Qed.

Lemma Ledger_start (b0 : Batch World) :
  pool_fs.start World paths (Z.of_nat n) w0 = Some b0 -> Ledger paths b0.
Proof.
  intros Hstart. destruct (start_batch b0 Hstart) as (s0 & _ & -> & ->).
  assert (forall k, concat (map hand (replicate k Idle)) = []
                    /\ concat (map outbound (replicate k Idle)) = []) as Hidle
    by (intros k; induction k as [|k IH]; [split; reflexivity|exact IH]).
  constructor; cbn; rewrite (proj1 (Hidle n)) || rewrite (proj2 (Hidle n)); reflexivity.
Qed.

Lemma Ledger_step (a : Actor) (b b' : Batch World) :
  Ledger paths b -> step_of a b = Some b' -> Ledger paths b'.
Proof.
  intros [Hpaths Hsent] Hstep. apply step_pool in Hstep as [Hstep Hlog].
  destruct b as [s w l], b' as [s' w' l']. cbn [st world log] in *.
  destruct s as [m ts cl ws g rs snt cs recs].
  destruct a as [|i]; cbn [in_hand workers] in Hlog.
  - destruct Hlog as [-> ->]. step_cases Hstep; constructor; cbn in *;
      try assumption.
    etrans; [|exact Hpaths]. rewrite map_app. cbn. solve_Permutation.
  - step_cases Hstep;
      match goal with
      | Hi : ws !! i = Some _ |- _ =>
          try rewrite Hi in Hlog; cbn in Hlog;
          apply pool_facts.worker_split in Hi as (l1 & l2 & -> & Hins)
      end;
      try match goal with
          | Hbody : worker_body o ?t = (?r, _) |- _ => apply result_in in Hbody; subst r
          end;
      destruct Hlog as [-> ->]; constructor; cbn in *;
      rewrite ?Hins, ?hands_insert, ?outbound_insert in *; cbn in *;
      rewrite ?map_app in *; cbn in *; try assumption.
    all: try (etrans; [|exact Hpaths]; solve_Permutation).
    all: try (etrans; [|apply Permutation_app_tail; exact Hsent]; solve_Permutation).
    all: try (etrans; [|exact Hsent]; solve_Permutation).
Qed.

Lemma Ledger_reachable (b0 b : Batch World) :
  pool_fs.start World paths (Z.of_nat n) w0 = Some b0 ->
  reachable b0 b ->
  Ledger paths b.
Proof.
  intros Hstart Hreach. induction Hreach as [|b b' _ IH [a Hstep]].
  - exact (Ledger_start b0 Hstart).
  - exact (Ledger_step a b b' IH Hstep).
Qed.

Lemma successes_outcome (l : list (string * World)) :
  successes (map outcome l) = log_records l.
Proof.
  unfold successes, pool_fs_spec.log_records.
  induction l as [|e l IH]; [reflexivity|]. cbn [map].
  change (omap ?f (?x :: ?l'))
    with (match f x with Some y => y :: omap f l' | None => omap f l' end).
  rewrite IH. unfold pool_fs_spec.outcome, pool_fs_spec.pipeline_record.
  destruct (processEmlFile e.1) as [[rec h]|err]; reflexivity.
Qed.

Lemma log_records_length (l : list (string * World)) :
  length (log_records l) + log_failures l = length l.
Proof.
  unfold pool_fs_spec.log_records, pool_fs_spec.log_failures.
  induction l as [|e l IH]; [reflexivity|]. cbn [List.filter length].
  change (omap ?f (?x :: ?l'))
    with (match f x with Some y => y :: omap f l' | None => omap f l' end).
  unfold pool_fs_spec.pipeline_record at 1, pool_fs_spec.pipeline_fails at 1.
  destruct (processEmlFile e.1) as [[rec h]|err]; cbn; lia.
Qed.

(** What a finished run with at least one worker has produced. *)
Lemma finished (b0 b : Batch World) :
  0 < n ->
  pool_fs.start World paths (Z.of_nat n) w0 = Some b0 ->
  reachable b0 b ->
  main (st b) = Finished ->
  Permutation (map fst (log b)) paths
  /\ Permutation (sent (st b)) (map outcome (log b))
  /\ records (st b) = successes (sent (st b))
  /\ Permutation (records (st b)) (log_records (log b))
  /\ length (records (st b)) = length paths - log_failures (log b).
Proof.
  intros Hn Hstart Hreach Hmain.
  pose proof (Shape_reachable b0 b Hstart Hreach)
    as [_ (drained & Hsent & Hrecs) _ _ Hexit Hdone Hfin Hlen _].
  pose proof (Ledger_reachable b0 b Hstart Hreach) as [Hpaths Hled].
  specialize (Hdone (or_intror Hmain)). specialize (Hfin Hmain).
  assert (tasks (st b) = []) as Hts.
  { apply Hexit. exists 0. destruct (workers (st b)) as [|w ws]; [cbn in Hlen; lia|].
    apply Forall_cons in Hdone as [-> _]. reflexivity. }
  assert (concat (map hand (workers (st b))) = []
          /\ concat (map outbound (workers (st b))) = []) as [Hhands Hout]
    by (clear -Hdone; induction Hdone as [|w ws -> _ IH]; [split; reflexivity|exact IH]).
  rewrite Hmain, Hts, Hhands in Hpaths. cbn in Hpaths. rewrite app_nil_r in Hpaths.
  rewrite Hout, app_nil_r in Hled.
  rewrite Hfin, app_nil_r in Hsent. subst drained.
  assert (Permutation (records (st b)) (log_records (log b))) as Hperm.
  { rewrite Hrecs, <- successes_outcome. unfold successes.
    apply omap_Permutation, Hled. }
  split; [exact Hpaths|]. split; [exact Hled|]. split; [exact Hrecs|].
  split; [exact Hperm|].
  rewrite (Permutation_length Hperm).
  pose proof (log_records_length (log b)) as Hlen'.
  rewrite <- (Permutation_length Hpaths), length_map. lia.
Qed.

End Ledger.

Section Calm.

Context `{GoLibs}.
Variable World : Type.
Variable look : World -> string -> Res File.
Variable effect : World -> Call -> World.
Variable o : Options.
Variable paths : list string.
Variable n : nat.
Variable w0 : World.

#[local] Abbreviation step_of := (pool_fs.step_of World look effect o (length paths)).
#[local] Abbreviation reachable := (pool_fs.reachable World look effect o (length paths)).
#[local] Abbreviation libs_in := (pool_fs.libs_in World look).
#[local] Abbreviation outcome := (pool_fs_spec.outcome World look).
#[local] Abbreviation pipeline_calls := (pool_fs_spec.pipeline_calls World look o).
#[local] Abbreviation pipeline_record := (pool_fs_spec.pipeline_record World look).
#[local] Abbreviation pipeline_fails := (pool_fs_spec.pipeline_fails World look).
#[local] Abbreviation log_records := (pool_fs_spec.log_records World look).
#[local] Abbreviation log_failures := (pool_fs_spec.log_failures World look).
#[local] Abbreviation log_calls := (pool_fs_spec.log_calls World look o).
#[local] Abbreviation records_in := (pool_fs_spec.records_in World look).
#[local] Abbreviation failures_in := (pool_fs_spec.failures_in World look).
#[local] Abbreviation replay := (pool_fs_spec.replay World look effect o).
#[local] Abbreviation undisturbed := (pool_fs_spec.undisturbed World look effect o).

Ltac step_cases Hstep :=
  unfold pool.step_of, step_main, step_worker in Hstep; cbn in Hstep;
  repeat case_match; simplify_eq/=.

(** The pipeline reads the tree at its path only. *)
Lemma processEmlFile_look (w w' : World) (p : string) :
  look w p = look w' p ->
  processEmlFile (H := libs_in w) p = processEmlFile (H := libs_in w') p.
Proof.
  intros Hlook. unfold processEmlFile. cbn [os_Open pool_fs.libs_in].
  rewrite Hlook. reflexivity.
Qed.

Lemma pipeline_look (w w' : World) (p : string) :
  look w p = look w' p ->
  pipeline_record w p = pipeline_record w' p
  /\ pipeline_fails w p = pipeline_fails w' p
  /\ pipeline_calls w p = pipeline_calls w' p
  /\ outcome (p, w) = outcome (p, w').
Proof.
  intros Hlook.
  unfold pool_fs_spec.pipeline_record, pool_fs_spec.pipeline_fails,
    pool_fs_spec.pipeline_calls, pool_fs_spec.outcome. cbn [fst snd].
  rewrite (processEmlFile_look w w' p Hlook). repeat split.
Qed.

Lemma in_hand_path (a : Actor) (b : Batch World) (t : task) :
  pool_fs_spec.Ledger World look paths b ->
  in_hand a (st b) = Some t -> In (path t) paths.
Proof.
  intros [Hpaths _] Hhand. destruct a as [|i]; [discriminate|]. cbn in Hhand.
  destruct (workers (st b) !! i) as [[|t'| |]|] eqn:Hi; try discriminate.
  injection Hhand as ->.
  apply pool_facts.worker_split in Hi as (l1 & l2 & Hws & _).
  apply (Permutation_in _ Hpaths). rewrite Hws, hands_insert.
  apply in_or_app. right. apply in_or_app. left.
  apply in_or_app. right. left. reflexivity.
Qed.

(** The calls of a loop body were made, in the order of the log. *)
Lemma calls_logged (b0 b : Batch World) :
  pool_fs.start World paths (Z.of_nat n) w0 = Some b0 ->
  reachable b0 b ->
  calls (st b) = log_calls (log b)
  /\ replay w0 (map fst (log b)) = (log b, world b).
Proof.
  intros Hstart Hreach. induction Hreach as [|b b' _ [IHc IHr] [a Hstep]].
  - destruct (start_batch World paths n w0 b0 Hstart) as (s0 & _ & -> & ->).
    split; reflexivity.
  - apply (step_pool World look effect o paths) in Hstep as [Hstep Hlog].
    destruct b as [s w l], b' as [s' w' l']. cbn [st world log] in *.
    destruct (in_hand a s) as [t|] eqn:Hhand.
    + destruct Hlog as [-> ->].
      destruct a as [|i]; [discriminate|]. cbn in Hhand.
      destruct (workers s !! i) as [[|t'| |]|] eqn:Hi; try discriminate.
      injection Hhand as ->.
      unfold pool.step_of, step_worker in Hstep. rewrite Hi in Hstep.
      rewrite (worker_body_in World look o) in Hstep. injection Hstep as <-.
      cbn [calls]. split.
      * unfold pool_fs_spec.log_calls in *. rewrite map_app, concat_app, IHc.
        cbn. rewrite app_nil_r. reflexivity.
      * rewrite map_app. cbn [map fst].
        clear -IHr. revert IHr. generalize w0 as v. generalize (path t) as p.
        induction l as [|[q u] l IH]; intros p v Hl; cbn in *.
        -- injection Hl as <-. reflexivity.
        -- destruct (pool_fs_spec.replay World look effect o _ (map fst l))
             as [l0 v0] eqn:Hrest.
           injection Hl as <- <- <-.
           rewrite (IH p _ Hrest). reflexivity.
    + destruct Hlog as [-> ->]. split; [|exact IHr]. rewrite <- IHc.
      destruct s as [m ts cl ws g rs snt cs recs].
      destruct a as [|i]; step_cases Hstep; try reflexivity.
      cbn in Hhand.
      match goal with Hi : ws !! i = Some _ |- _ => rewrite Hi in Hhand end.
      discriminate.
Qed.

Hypothesis Hcalm : undisturbed w0 paths.

Lemma fold_calm (q : string) (w : World) (p : string) :
  In q paths -> In p paths ->
  look (fold_left effect (pipeline_calls w0 q) w) p = look w p.
Proof.
  intros Hq Hp.
  assert (forall cs, (forall c, In c cs -> In c (pipeline_calls w0 q)) ->
                     forall v, look (fold_left effect cs v) p = look v p) as Hfold.
  { induction cs as [|c cs IH]; intros Hcs v; [reflexivity|]. cbn [fold_left].
    rewrite IH by (intros c' Hc'; apply Hcs; right; exact Hc').
    apply (Hcalm v q c p Hq); [apply Hcs; left; reflexivity|exact Hp]. }
  apply Hfold. auto.
Qed.

(** In an undisturbed batch every loop body finds at its path what the
    first tree has there. *)
Lemma calm_reachable (b0 b : Batch World) :
  pool_fs.start World paths (Z.of_nat n) w0 = Some b0 ->
  reachable b0 b ->
  (forall p, In p paths -> look (world b) p = look w0 p)
  /\ Forall (fun e => look (snd e) (fst e) = look w0 (fst e)) (log b).
Proof.
  intros Hstart Hreach.
  pose proof (Ledger_reachable World look effect o paths n w0 b0) as Hledger.
  induction Hreach as [|b b' Hreach [IHw IHl] [a Hstep]].
  - destruct (start_batch World paths n w0 b0 Hstart) as (s0 & _ & -> & _).
    split; [reflexivity|constructor].
  - specialize (Hledger b Hstart Hreach).
    apply (step_pool World look effect o paths) in Hstep as [_ Hlog].
    destruct (in_hand a (st b)) as [t|] eqn:Hhand.
    + destruct Hlog as [-> ->].
      pose proof (in_hand_path a b t Hledger Hhand) as Ht.
      destruct (pipeline_look (world b) w0 (path t) (IHw _ Ht)) as (_ & _ & -> & _).
      split.
      * intros p Hp. rewrite (fold_calm _ _ _ Ht Hp). apply IHw, Hp.
      * apply Forall_app. split; [exact IHl|].
        constructor; [apply IHw, Ht|constructor].
    + destruct Hlog as [-> ->]. split; assumption.
Qed.

Lemma calm_log (l : list (string * World)) :
  Forall (fun e => look (snd e) (fst e) = look w0 (fst e)) l ->
  log_records l = records_in w0 (map fst l)
  /\ log_failures l = failures_in w0 (map fst l)
  /\ log_calls l = concat (map (pipeline_calls w0) (map fst l)).
Proof.
  unfold pool_fs_spec.log_records, pool_fs_spec.log_failures, pool_fs_spec.log_calls,
    pool_fs_spec.records_in, pool_fs_spec.failures_in.
  induction 1 as [|[p w] l Hlook _ (IHr & IHf & IHc)]; [repeat split|].
  cbn [fst snd] in Hlook.
  destruct (pipeline_look w w0 p Hlook) as (Hrec & Hfail & Hcalls & _).
  cbn [map fst snd List.filter concat].
  change (omap ?f (?x :: ?l'))
    with (match f x with Some y => y :: omap f l' | None => omap f l' end).
  cbn [fst snd]. rewrite Hrec, Hfail, Hcalls, IHr, IHc.
  split; [reflexivity|]. split; [|reflexivity].
  destruct (pool_fs_spec.pipeline_fails World look w0 p); cbn [length]; rewrite IHf;
    reflexivity.
Qed.

Lemma failures_in_perm (l l' : list string) :
  Permutation l l' -> failures_in w0 l = failures_in w0 l'.
Proof.
  intros Hperm. unfold pool_fs_spec.failures_in.
  apply Permutation_length. induction Hperm as [|p l1 l2 _ IH|p q l1|l1 l2 l3 _ IH1 _ IH2].
  - reflexivity.
  - cbn. destruct (pool_fs_spec.pipeline_fails World look w0 p);
      [apply Permutation_cons; [reflexivity|exact IH]|exact IH].
  - cbn. destruct (pool_fs_spec.pipeline_fails World look w0 p),
      (pool_fs_spec.pipeline_fails World look w0 q);
      try reflexivity. apply perm_swap.
  - etrans; eassumption.
Qed.

(** What a finished run of an undisturbed batch has produced. *)
Lemma finished_calm (b0 b : Batch World) :
  0 < n ->
  pool_fs.start World paths (Z.of_nat n) w0 = Some b0 ->
  reachable b0 b ->
  main (st b) = Finished ->
  Permutation (records (st b)) (records_in w0 paths)
  /\ length (records (st b)) = length paths - failures_in w0 paths
  /\ Permutation (calls (st b)) (concat (map (pipeline_calls w0) paths)).
Proof.
  intros Hn Hstart Hreach Hmain.
  destruct (finished World look effect o paths n w0 b0 b Hn Hstart Hreach Hmain)
    as (Hpaths & _ & _ & Hrecs & Hlen).
  destruct (calm_reachable b0 b Hstart Hreach) as [_ Hlog].
  destruct (calm_log (log b) Hlog) as (Hr & Hf & Hc).
  destruct (calls_logged b0 b Hstart Hreach) as [Hcalls _].
  split; [|split].
  - rewrite Hrecs, Hr. unfold pool_fs_spec.records_in. apply omap_Permutation, Hpaths.
  - rewrite Hlen, Hf. rewrite (failures_in_perm _ _ Hpaths). reflexivity.
  - rewrite Hcalls, Hc, <- !flat_map_concat_map, Hpaths. reflexivity.
Qed.

End Calm.

Section Runs.

Context `{GoLibs}.
Variable World : Type.
Variable look : World -> string -> Res File.
Variable effect : World -> Call -> World.
Variable o : Options.


Lemma start_count (paths : list string) (workerCount : Z) (w0 : World) :
  (0 <= workerCount)%Z ->
  exists b0,
    pool_fs.start World paths workerCount w0 = Some b0
    /\ pool_fs.start World paths (Z.of_nat (Z.to_nat workerCount)) w0 = Some b0.
Proof.
  intros Hpos. rewrite Z2Nat.id by exact Hpos.
  unfold pool_fs.start, pool.start.
  destruct (Z.ltb_spec workerCount 0) as [Hneg|_]; [lia|]. eexists. split; reflexivity.
Qed.


End Runs.

End pool_fs_facts.


(** ** The model at work *)

Example formatTime_canonical : formatTime "2024-03-26 15:30:15" = "2024-03-26_153015".
Proof. reflexivity. Qed.

Example formatTime_three_pieces : formatTime "a b c" = "a_b".
Proof. reflexivity. Qed.

Example newName_end_to_end : newName SampleRun.dated = "2024-03-26_153015 Re_ Q1.eml".
Proof. vm_compute. reflexivity. Qed.

Example Split_edges : strings.Split " a  b " " " = [""; "a"; ""; "b"; ""].
Proof. reflexivity. Qed.

Example ReplaceAll_overlap : strings.ReplaceAll "aaaa" "aa" "b" = "bb".
Proof. reflexivity. Qed.

Example TrimSpace_mixed :
  strings.TrimSpace (String "009" (" x y " +:+ strings.of_codes [194; 160; 10])) = "x y".
Proof. vm_compute. reflexivity. Qed.

Example FindAllString_leftmost :
  regexp.FindAllString urlRegex "httpss://x https://y http://'z httphttp://q"
  = ["https://y"; "http://q"].
Proof. vm_compute. reflexivity. Qed.

Example pool_one_worker :
  SampleRun.records_of 1 (SampleRun.fair 1) = ["in/a.eml"; "in/c.eml"].
Proof. vm_compute. reflexivity. Qed.

Example pool_two_workers :
  SampleRun.records_of 2 (SampleRun.fair 2) = ["in/a.eml"; "in/c.eml"].
Proof. vm_compute. reflexivity. Qed.

(** The order of the records is the order of arrival, not that of the
    paths. *)
Example pool_arrival_order :
  SampleRun.records_of 2 SampleRun.second_first = ["in/c.eml"; "in/a.eml"].
Proof. vm_compute. reflexivity. Qed.

(** With no worker nothing is processed, and a negative count panics. *)
Example pool_no_worker : SampleRun.records_of 0 (SampleRun.fair 1) = [].
Proof. vm_compute. reflexivity. Qed.

Example pool_negative_count : pool.start SampleRun.batch (-1) = None.
Proof. reflexivity. Qed.

(** The two variants on the same bracketed header value. *)
Example variants_differ_on_brackets :
  match processEmlFile (H := Sample.libs) "in/a.eml",
        Sequential.processEmlFile (H := Sample.libs) "in/a.eml" with
  | Ok (rec, _), Ok (rec', _) => IP rec = "[10.0.0.1]" /\ IP rec' = "10.0.0.1"
  | _, _ => False
  end.
Proof. vm_compute. split; reflexivity. Qed.

(** ** The claims at concrete inputs *)

Lemma urlDomains_follow_urls_witness :
  let urls := ["http://a.com/x"; "http://a b.com/"; "https://b.org/y"] in
  length (urlDomains_of (H := Sample.libs) urls) <= length urls
  /\ (exists u, In u urls /\ parses (H := Sample.libs) u = false).
Proof.
  cbn zeta.
  pose proof (urlDomains_follow_urls (H := Sample.libs)
                ["http://a.com/x"; "http://a b.com/"; "https://b.org/y"])
    as (Hle & _ & Hiff & _).
  split; [exact Hle|]. apply Hiff. vm_compute. discriminate.
Defined.

Lemma extractUrls_dom_path_witness :
  strings.TrimSpace Sample.example_body <> ""
  /\ html_Parse (GoLibs := Sample.libs) Sample.example_body = Ok Sample.example_doc
  /\ extractUrls (H := Sample.libs) Sample.example_body = ["http://a.com/x"]
  /\ urlDomains_of (H := Sample.libs) (extractUrls (H := Sample.libs) Sample.example_body)
     = ["a.com"].
Proof.
  assert (strings.TrimSpace Sample.example_body <> "") as Hblank
    by (vm_compute; discriminate).
  assert (html_Parse (GoLibs := Sample.libs) Sample.example_body = Ok Sample.example_doc)
    as Hparse by reflexivity.
  split; [exact Hblank|]. split; [exact Hparse|].
  destruct (extractUrls_dom_path (H := Sample.libs) Sample.example_body
              Sample.example_doc Hblank Hparse) as (_ & _ & _ & Hexample).
  destruct (Hexample eq_refl eq_refl) as [Hurls Hdomains].
  split; [exact Hurls|].
  apply (Hdomains (mkURL "a.com")); reflexivity.
Defined.



Lemma newName_deterministic_idempotent_clean_witness :
  SentDate SampleRun.dated = SentDate SampleRun.dated_elsewhere
  /\ Subject SampleRun.dated = Subject SampleRun.dated_elsewhere
  /\ newName SampleRun.dated = newName SampleRun.dated_elsewhere
  /\ sanitizeFilename (newName SampleRun.dated) = newName SampleRun.dated
  /\ ~ In ":"%char (strings.bytes (newName SampleRun.dated)).
Proof.
  split; [reflexivity|]. split; [reflexivity|].
  destruct (newName_deterministic_idempotent_clean SampleRun.dated
              SampleRun.dated_elsewhere eq_refl eq_refl) as (Hsame & _ & Hidem & Hclean).
  split; [exact Hsame|]. split; [exact Hidem|].
  apply Hclean. right. right. left. reflexivity.
Defined.

Lemma absent_date_gives_zero_time_witness :
  os_Open (GoLibs := Sample.libs) "in/b.eml" = Ok "B"
  /\ h_Get (r_Header (mkReader (Sample.sample_header "hello" "" "[10.0.0.1],[10.0.0.2]")
                        [Sample.html_part Sample.broken_body])) "Date" = ""
  /\ exists rec,
       processEmlFile (H := Sample.libs) "in/b.eml" = Ok (rec, Sample.broken_body)
       /\ SentDate rec = "0001-01-01 00:00:00"
       /\ newName rec = "0001-01-01_000000 hello.eml".
Proof.
  split; [reflexivity|]. split; [reflexivity|].
  destruct (absent_date_gives_zero_time (H := Sample.libs) "in/b.eml" "B"
              (mkReader (Sample.sample_header "hello" "" "[10.0.0.1],[10.0.0.2]")
                 [Sample.html_part Sample.broken_body])
              Sample.broken_body eq_refl eq_refl eq_refl) as (Hzero & _).
  destruct (Hzero Sample.zero_time eq_refl eq_refl)
    as (rec & Hrec & Hdate & _ & _ & _ & Hname).
  exists rec. split; [exact Hrec|]. split; [exact Hdate|].
  rewrite Hname. vm_compute in Hrec. injection Hrec as <-. vm_compute. reflexivity.
Defined.

Lemma extractUrls_fallback_witness :
  strings.TrimSpace Sample.broken_body <> ""
  /\ html_Parse (GoLibs := Sample.libs) Sample.broken_body = Err "html: cannot read"
  /\ extractUrls (H := Sample.libs) Sample.broken_body
     = ["http://a.com/x"; "https://b.org/y?q=1"; "http://a.com/x"].
Proof.
  assert (strings.TrimSpace Sample.broken_body <> "") as Hblank
    by (vm_compute; discriminate).
  split; [exact Hblank|]. split; [reflexivity|].
  destruct (extractUrls_fallback (H := Sample.libs) Sample.broken_body
              "html: cannot read" Hblank eq_refl) as (_ & _ & _ & Hexample).
  apply (Hexample eq_refl).
Defined.

Lemma originating_ip_keeps_brackets_witness :
  exists rec,
    processEmlFile (H := Sample.libs) "in/a.eml" = Ok (rec, Sample.example_body)
    /\ IP rec = "[10.0.0.1]".
Proof.
  destruct (originating_ip_keeps_brackets (H := Sample.libs) "in/a.eml" "A"
              (mkReader
                 (Sample.sample_header "Re: Q1" "2024-03-26 15:30:15" "[10.0.0.1]")
                 [Sample.plain_part "x"; Sample.html_part Sample.example_body])
              Sample.example_body eq_refl eq_refl eq_refl eq_refl)
    as (rec & Hrec & Hip & _).
  exists rec. split; assumption.
Defined.

Lemma parseAddress_cuts_the_local_part_witness :
  mail_ParseAddress (GoLibs := Sample.libs) "Bob bob@b.org" = Err "mail: no angle-addr"
  /\ Sequential.parseAddress (H := Sample.libs) "Bob bob@b.org" = ("Bob bo", "b@b.org")
  /\ Sequential.parseAddress (H := Sample.libs) "Ann <ann@a.com>" = ("Ann", "ann@a.com")
  /\ Sequential.parseAddress (H := Sample.libs) SampleRun.quoted_junk = ("", "junk")
  /\ exists rec,
       processEmlFile (H := Sample.libs) "in/a.eml" = Ok (rec, Sample.example_body)
       /\ ToName rec = "" /\ ToEmail rec = "".
Proof.
  assert (plain_text "Bob bo") as Hpre
    by (repeat constructor; discriminate).
  destruct (parseAddress_cuts_the_local_part (H := Sample.libs) "Bob bo" "b" "b" "org"
              "mail: no angle-addr" Hpre eq_refl
              ltac:(repeat constructor) ltac:(discriminate)
              ltac:(repeat constructor) ltac:(cbn; lia)
              ltac:(vm_compute; reflexivity) eq_refl)
    as (_ & Hcut & Hfirst & Hthird & Hconcurrent).
  split; [reflexivity|]. split; [exact Hcut|]. split; [|split].
  - apply (Hfirst "Ann <ann@a.com>" (mkMailAddress "Ann" "ann@a.com")). reflexivity.
  - apply (Hthird SampleRun.quoted_junk "mail: no angle-addr");
      [reflexivity|vm_compute; reflexivity].
  - destruct (processEmlFile (H := Sample.libs) "in/a.eml") as [[rec htmlContent]|e']
      eqn:Hfile; [|vm_compute in Hfile; discriminate].
    assert (htmlContent = Sample.example_body) as ->
      by (vm_compute in Hfile; injection Hfile as _ <-; reflexivity).
    exists rec. split; [reflexivity|].
    refine (proj2 (Hconcurrent "in/a.eml" "A"
                     (mkReader
                        (Sample.sample_header "Re: Q1" "2024-03-26 15:30:15" "[10.0.0.1]")
                        [Sample.plain_part "x"; Sample.html_part Sample.example_body])
                     rec Sample.example_body eq_refl eq_refl Hfile)
              "mail: missing '@' or angle-addr" eq_refl).
Defined.

Lemma copy_to_takes_precedence_witness :
  renameByHeaderTo Sample.both_renames <> ""
  /\ renameByHeader Sample.both_renames = true
  /\ List.filter is_renameFile
       (snd (worker_body (H := Sample.libs) Sample.both_renames (mkTask "in/a.eml"))) = []
  /\ length (List.filter is_renameFileTo
               (snd (worker_body (H := Sample.libs) Sample.both_renames
                       (mkTask "in/a.eml")))) = 1.
Proof.
  assert (renameByHeaderTo Sample.both_renames <> "") as Hto by discriminate.
  split; [exact Hto|]. split; [reflexivity|].
  destruct (copy_to_takes_precedence (H := Sample.libs) Sample.both_renames
              (mkTask "in/a.eml")) as [Hcopy _].
  destruct (Hcopy Hto) as (Hnone & _ & Hone & _).
  split; [exact Hnone|].
  destruct (processEmlFile (H := Sample.libs) "in/a.eml") as [[rec h]|e] eqn:Hrun;
    [|vm_compute in Hrun; discriminate].
  rewrite (Hone rec h Hrun). reflexivity.
Defined.

Lemma formatTime_without_space_witness :
  "2024-03-26" <> ""
  /\ ~ In " "%char (strings.bytes "2024-03-26")
  /\ formatTime "2024-03-26" = "2024-03-26".
Proof.
  assert (~ In " "%char (strings.bytes "2024-03-26")) as Hnospace.
  { cbn. intros Hin.
    repeat (destruct Hin as [Hin|Hin]; [discriminate Hin|]). exact Hin. }
  split; [discriminate|]. split; [exact Hnospace|].
  apply (formatTime_without_space "2024-03-26"); [discriminate|exact Hnospace].
Defined.

(** * Further properties *)

(** ** [strings.Split], [strings.Join], [strings.ReplaceAll] on one byte *)

Lemma Split_byte_cons (a c : ascii) (s : string) :
  strings.Split (String c s) (String a "")
  = if Ascii.eqb a c then "" :: strings.Split s (String a "")
    else match strings.Split s (String a "") with
         | piece :: pieces => String c piece :: pieces
         | [] => [String c ""]
         end.
Proof.
  unfold strings.Split.
  change (strings.split_from (String a "") 0 (String c s))
    with (if String.prefix (String a "") (String c s)
          then "" :: strings.split_from (String a "") 0 s
          else match strings.split_from (String a "") 0 s with
               | piece :: pieces => String c piece :: pieces
               | [] => [String c ""]
               end).
  rewrite prefix_byte. reflexivity.
Qed.

Lemma Split_byte_nonempty (a : ascii) (s : string) :
  strings.Split s (String a "") <> [].
Proof.
  induction s as [|c s IH]; [discriminate|]. rewrite Split_byte_cons.
  destruct (Ascii.eqb a c); [discriminate|].
  destruct (strings.Split s (String a "")); discriminate.
Qed.

(** A piece in front of the first separator. *)
Lemma Split_byte_app (a : ascii) (d r : string) :
  ~ has_byte a d ->
  strings.Split (d +:+ String a r) (String a "") = d :: strings.Split r (String a "").
Proof.
  unfold has_byte. induction d as [|c d IH]; intros Hd.
  - rewrite app_empty_l, Split_byte_cons, Ascii.eqb_refl. reflexivity.
  - rewrite app_String, Split_byte_cons.
    destruct (Ascii.eqb_spec a c) as [->|Hne]; [exfalso; apply Hd; left; reflexivity|].
    rewrite IH; [reflexivity|]. intros Hin. apply Hd. right. exact Hin.
Qed.

(** No piece holds the separator. *)
Lemma Split_byte_pieces (a : ascii) (s : string) :
  Forall (fun piece => ~ has_byte a piece) (strings.Split s (String a "")).
Proof.
  unfold has_byte. induction s as [|c s IH].
  - constructor; [intros []|constructor].
  - rewrite Split_byte_cons. destruct (Ascii.eqb_spec a c) as [->|Hne].
    + constructor; [intros []|exact IH].
    + destruct (strings.Split s (String a "")) as [|piece pieces].
      * constructor; [|constructor]. cbn. intros [Hc|[]]. congruence.
      * apply Forall_cons in IH as [Hpiece Hpieces].
        constructor; [|exact Hpieces]. cbn. intros [Hc|Hin]; [congruence|].
        exact (Hpiece Hin).
Qed.

(** Joining the pieces with the separator gives the string back. *)
Lemma Join_Split_byte (a : ascii) (s : string) :
  strings.Join (strings.Split s (String a "")) (String a "") = s.
Proof.
  induction s as [|c s IH]; [reflexivity|]. rewrite Split_byte_cons.
  pose proof (Split_byte_nonempty a s) as Hne.
  destruct (Ascii.eqb_spec a c) as [->|Hac].
  - destruct (strings.Split s (String c "")) as [|piece pieces] eqn:Hs; [contradiction|].
    change (strings.Join ("" :: piece :: pieces) (String c ""))
      with ("" +:+ String c "" +:+ strings.Join (piece :: pieces) (String c "")).
    rewrite IH. reflexivity.
  - destruct (strings.Split s (String a "")) as [|piece pieces] eqn:Hs; [contradiction|].
    destruct pieces as [|piece' pieces].
    + cbn in *. rewrite IH. reflexivity.
    + change (strings.Join (String c piece :: piece' :: pieces) (String a ""))
        with (String c piece +:+ String a "" +:+ strings.Join (piece' :: pieces) (String a "")).
      change (strings.Join (piece :: piece' :: pieces) (String a ""))
        with (piece +:+ String a "" +:+ strings.Join (piece' :: pieces) (String a "")) in IH.
      rewrite app_String, IH. reflexivity.
Qed.

(** Splitting what was joined gives the pieces back, if there is a piece and
    no piece holds the separator. *)
Lemma Split_Join_byte (a : ascii) (l : list string) :
  l <> [] ->
  Forall (fun piece => ~ has_byte a piece) l ->
  strings.Split (strings.Join l (String a "")) (String a "") = l.
Proof.
  intros Hne Hall. induction Hall as [|piece pieces Hpiece _ IH]; [contradiction|].
  destruct pieces as [|piece' pieces].
  - cbn [strings.Join]. apply Split_byte_absent. exact Hpiece.
  - change (strings.Join (piece :: piece' :: pieces) (String a ""))
      with (piece +:+ String a "" +:+ strings.Join (piece' :: pieces) (String a "")).
    change (String a "" +:+ strings.Join (piece' :: pieces) (String a ""))
      with (String a (strings.Join (piece' :: pieces) (String a ""))).
    rewrite Split_byte_app by exact Hpiece. f_equal. apply IH. discriminate.
Qed.

(** Replacing one byte by one byte is a map over the bytes. *)
Lemma ReplaceAll_byte_map (a b : ascii) (s : string) :
  strings.bytes (strings.ReplaceAll s (String a "") (String b ""))
  = map (fun c => if Ascii.eqb a c then b else c) (strings.bytes s).
Proof.
  induction s as [|c s IH]; [reflexivity|].
  rewrite ReplaceAll_byte_cons, bytes_app. cbn [map strings.bytes list_ascii_of_string].
  change (list_ascii_of_string ?x) with (strings.bytes x). rewrite IH.
  destruct (Ascii.eqb a c); reflexivity.
Qed.

(** Replacing one byte by nothing removes it and keeps the rest. *)
Lemma ReplaceAll_byte_remove (a : ascii) (s : string) :
  strings.bytes (strings.ReplaceAll s (String a "") "")
  = List.filter (fun c => negb (Ascii.eqb a c)) (strings.bytes s).
Proof.
  induction s as [|c s IH]; [reflexivity|].
  rewrite ReplaceAll_byte_cons, bytes_app. cbn [List.filter strings.bytes list_ascii_of_string].
  change (list_ascii_of_string ?x) with (strings.bytes x). rewrite IH.
  destruct (Ascii.eqb a c); reflexivity.
Qed.

(** ** [formatTime] *)

(** X1. For a date and a time without spaces, joined by one space and
    followed by nothing or by a space and anything, [formatTime] gives the
    date, an underscore, and the time without its colons; what comes behind a
    second space is dropped. *)
Theorem formatTime_date_time (datePart timePart rest : string) :
  ~ has_byte " " datePart ->
  ~ has_byte " " timePart ->
  rest = "" \/ (exists r, rest = String " " r) ->
  formatTime (datePart +:+ String " " (timePart +:+ rest))
  = datePart +:+ "_" +:+ strings.ReplaceAll timePart ":" ""
  /\ strings.bytes (strings.ReplaceAll timePart ":" "")
     = List.filter (fun c => negb (Ascii.eqb ":" c)) (strings.bytes timePart).
Proof.
  intros Hd Ht Hrest. split; [|apply ReplaceAll_byte_remove].
  unfold formatTime.
  assert (String.eqb (datePart +:+ String " " (timePart +:+ rest)) "" = false) as ->
    by (destruct datePart; reflexivity).
  rewrite Split_byte_app by exact Hd.
  destruct Hrest as [->|[r ->]].
  - rewrite app_empty_r, Split_byte_absent by exact Ht. reflexivity.
  - rewrite Split_byte_app by exact Ht. reflexivity.
Qed.

(** X2. Whatever the sent date is, the token [formatTime] returns holds no
    space. *)
Theorem formatTime_no_space (sentDate : string) :
  ~ has_byte " " (formatTime sentDate).
Proof.
  unfold formatTime, has_byte.
  destruct (String.eqb_spec sentDate "") as [->|Hne].
  - cbn. intros Hin. repeat (destruct Hin as [Hin|Hin]; [discriminate Hin|]). exact Hin.
  - pose proof (Split_byte_pieces " " sentDate) as Hpieces.
    pose proof (Join_Split_byte " " sentDate) as Hjoin.
    pose proof (Split_byte_nonempty " " sentDate) as Hsome.
    destruct (strings.Split sentDate " ") as [|d [|t pieces]].
    + contradiction.
    + cbn in Hjoin. subst d. apply Forall_cons in Hpieces as [Hd _]. exact Hd.
    + apply Forall_cons in Hpieces as [Hd Hpieces].
      apply Forall_cons in Hpieces as [Ht _].
      rewrite !bytes_app, ReplaceAll_byte_remove. intros Hin.
      apply in_app_or in Hin as [Hin|Hin]; [exact (Hd Hin)|].
      apply in_app_or in Hin as [Hin|Hin].
      * cbn in Hin. destruct Hin as [Hin|[]]. discriminate.
      * apply filter_In in Hin as [Hin _]. exact (Ht Hin).
Qed.

(** ** [sanitizeFilename] *)

(** X3. [sanitizeFilename] keeps the length of a name, and it returns a name
    as it is exactly when the name holds none of the bytes it replaces. *)
Theorem sanitizeFilename_length_fixed (name : string) :
  String.length (sanitizeFilename name) = String.length name
  /\ (sanitizeFilename name = name
      <-> forall c, has_byte c name -> invalid_byte c = false).
Proof.
  unfold has_byte. induction name as [|c s [IHlen IHfix]].
  - split; [reflexivity|]. split; [intros _ c []|reflexivity].
  - rewrite sanitizeFilename_cons. split; [cbn; f_equal; exact IHlen|]. split.
    + intros Heq. injection Heq as Hc Hs. intros x [<-|Hin].
      * unfold sanitize_byte in Hc. destruct (invalid_byte c) eqn:Hinv; [|reflexivity].
        subst c. discriminate Hinv.
      * apply IHfix; assumption.
    + intros Hall. f_equal.
      * apply sanitize_byte_fixed, Hall. left. reflexivity.
      * apply IHfix. intros x Hin. apply Hall. right. exact Hin.
Qed.

(** ** [shouldProcessFile] *)

Lemma match_behind_star_stem (chunk stem : string) :
  stem <> "" ->
  ~ has_byte filepath.Separator stem ->
  filepath.match_behind_star chunk (stem +:+ chunk) = true.
Proof.
  unfold has_byte. induction stem as [|c stem IH]; intros Hne Hsep; [contradiction|].
  rewrite app_String. cbn [filepath.match_behind_star].
  destruct (Ascii.eqb_spec c filepath.Separator) as [->|_];
    [exfalso; apply Hsep; left; reflexivity|].
  destruct (String.eqb (stem +:+ chunk) chunk) eqn:Heq; [reflexivity|].
  apply IH.
  - intros ->. rewrite app_empty_l, String.eqb_refl in Heq. discriminate.
  - intros Hin. apply Hsep. right. exact Hin.
Qed.

Lemma match_behind_star_inv (chunk name : string) :
  filepath.match_behind_star chunk name = true ->
  exists stem, name = stem +:+ chunk /\ ~ has_byte filepath.Separator stem.
Proof.
  unfold has_byte. induction name as [|c rest IH]; [discriminate|].
  cbn [filepath.match_behind_star].
  destruct (Ascii.eqb_spec c filepath.Separator) as [|Hc]; [discriminate|].
  destruct (String.eqb_spec rest chunk) as [->|_].
  - intros _. exists (String c ""). split; [reflexivity|].
    cbn. intros [Heq|[]]. congruence.
  - intros Hrest. destruct (IH Hrest) as (stem & -> & Hstem).
    exists (String c stem). split; [reflexivity|].
    cbn. intros [Heq|Hin]; [congruence|exact (Hstem Hin)].
Qed.

Lemma shouldProcessFile_stem (stem : string) :
  ~ has_byte "/" stem -> shouldProcessFile (stem +:+ ".eml") = true.
Proof.
  intros Hstem. unfold shouldProcessFile, filepath.Match_star.
  destruct (String.eqb (stem +:+ ".eml") ".eml") eqn:Heq; [reflexivity|].
  apply match_behind_star_stem; [|exact Hstem].
  intros ->. discriminate.
Qed.

(** X4. A name is a candidate exactly when it is some stem without a slash
    followed by the four bytes .eml; the comparison is by bytes, so another
    case of the extension does not count. *)
Theorem shouldProcessFile_iff (name : string) :
  shouldProcessFile name = true
  <-> exists stem, name = stem +:+ ".eml" /\ ~ has_byte "/" stem.
Proof.
  unfold shouldProcessFile, filepath.Match_star. split.
  - destruct (String.eqb_spec name ".eml") as [->|_].
    + intros _. exists "". split; [reflexivity|intros []].
    + apply match_behind_star_inv.
  - intros (stem & -> & Hstem). exact (shouldProcessFile_stem stem Hstem).
Qed.

(** X5. The name derived for a record is a candidate again: it ends in .eml
    and holds no slash, so a file that was renamed is picked up by the next
    run. *)
Theorem newName_is_candidate (rec : EmailRecord) :
  shouldProcessFile (newName rec) = true
  /\ HasSuffix (newName rec) ".eml" = true.
Proof.
  unfold newName.
  set (stem := formatTime (SentDate rec) +:+ " " +:+ Subject rec).
  assert (sanitizeFilename (formatTime (SentDate rec) +:+ " " +:+ Subject rec +:+ ".eml")
          = sanitizeFilename stem +:+ ".eml") as ->.
  { replace (formatTime (SentDate rec) +:+ " " +:+ Subject rec +:+ ".eml")
      with (stem +:+ ".eml") by (unfold stem; rewrite !app_assoc_string; reflexivity).
    rewrite sanitizeFilename_app. reflexivity. }
  split.
  - apply shouldProcessFile_stem.
    intros Hin. apply sanitizeFilename_clean in Hin. discriminate.
  - unfold HasSuffix.
    rewrite length_app_string, Nat.add_sub, drop_app_length.
    apply andb_true_iff. split; [apply Nat.leb_le; lia|reflexivity].
Qed.

(** ** [extractUrls] *)

Lemma anchor_hrefs_http (n : html.Node) (u : string) :
  In u (anchor_hrefs n) -> strings.HasPrefix u "http" = true.
Proof.
  induction n as [type data attr children IH] using Node_induction.
  change (anchor_hrefs (html.mkNode type data attr children))
    with ((if is_anchor (html.mkNode type data attr children)
           then omap http_href attr else [])
          ++ concat (map anchor_hrefs children)).
  intros Hin. apply in_app_or in Hin as [Hin|Hin].
  - destruct (is_anchor _); [|destruct Hin].
    apply list_elem_of_In, list_elem_of_omap in Hin as (a & _ & Ha).
    unfold http_href in Ha.
    destruct (String.eqb (html.Key a) "href") eqn:Hkey; cbn in Ha; [|discriminate].
    destruct (strings.HasPrefix (html.Val a) "http") eqn:Hpre; [|discriminate].
    injection Ha as <-. exact Hpre.
  - apply in_concat in Hin as (l & Hl & Hu). apply in_map_iff in Hl as (c & <- & Hc).
    rewrite Forall_forall in IH. apply (IH c); [apply list_elem_of_In, Hc|exact Hu].
Qed.

Lemma url_match_here_bytes (s m : string) :
  url_match_here s m ->
  (String.prefix "http://" m = true \/ String.prefix "https://" m = true)
  /\ Forall (fun c => url_char c = true) (strings.bytes m).
Proof.
  intros (scheme & run & rest & Hsch & -> & _ & _ & Hrun & _).
  rewrite bytes_app. split.
  - destruct Hsch as [->| ->]; [left|right]; apply prefix_app.
  - apply Forall_app. split; [|exact Hrun].
    destruct Hsch as [->| ->]; cbn; repeat constructor.
Qed.

Lemma url_scan_matches (s : string) (ms : list string) :
  url_scan s ms ->
  Forall (fun m =>
            (String.prefix "http://" m = true \/ String.prefix "https://" m = true)
            /\ Forall (fun c => url_char c = true) (strings.bytes m)) ms.
Proof.
  induction 1 as [|c s ms _ _ IH|m rest ms Hm _ IH]; [constructor|exact IH|].
  constructor; [exact (url_match_here_bytes _ _ Hm)|exact IH].
Qed.

Lemma prefix_shorter (p q s : string) :
  String.prefix (p +:+ q) s = true -> String.prefix p s = true.
Proof.
  revert s. induction p as [|a p IH]; intros s; [intros _; apply prefix_empty|].
  rewrite app_String. destruct s as [|c s]; [discriminate|].
  rewrite !prefix_cons. intros Hpq. apply andb_true_iff in Hpq as [-> Hpq].
  exact (IH _ Hpq).
Qed.

(** X6. Whatever the text is and whichever path is taken, every URL that
    [extractUrls] returns starts with http; a text of white space only gives
    no URL. *)
Theorem extractUrls_http `{GoLibs} (htmlContent : string) :
  (strings.TrimSpace htmlContent = "" -> extractUrls htmlContent = [])
  /\ (forall u, In u (extractUrls htmlContent) -> strings.HasPrefix u "http" = true).
Proof.
  unfold extractUrls. split.
  - intros ->. reflexivity.
  - intros u. destruct (String.eqb (strings.TrimSpace htmlContent) ""); [intros []|].
    destruct (html_Parse htmlContent) as [doc|e].
    + rewrite unique_loop_first_occurrences, crawler_anchor_hrefs, !app_nil_l.
      rewrite first_occurrences_In, filter_In. intros [Hin _].
      exact (anchor_hrefs_http doc u Hin).
    + intros Hin.
      pose proof (url_scan_matches _ _ (FindAllString_urlRegex_scan htmlContent)) as Hall.
      rewrite Forall_forall in Hall. apply list_elem_of_In, Hall in Hin as [Hpre _].
      unfold strings.HasPrefix.
      destruct Hpre as [Hpre|Hpre].
      * apply (prefix_shorter "http" "://"). exact Hpre.
      * apply (prefix_shorter "http" "s://"). exact Hpre.
Qed.

(** On the fallback path no URL holds white space or a quote, so the URLs
    joined by line feeds split back into the URL list. *)
Lemma fallback_urls_split_back `{GoLibs} (htmlContent : string) (e : error) :
  strings.TrimSpace htmlContent <> "" ->
  html_Parse htmlContent = Err e ->
  Forall (fun u => Forall (fun c => url_char c = true) (strings.bytes u))
    (extractUrls htmlContent)
  /\ (extractUrls htmlContent <> [] ->
      strings.Split (strings.Join (extractUrls htmlContent) (String "010" ""))
        (String "010" "")
      = extractUrls htmlContent).
Proof.
  intros Hblank Hparse.
  assert (extractUrls htmlContent = regexp.FindAllString urlRegex htmlContent) as ->.
  { unfold extractUrls. rewrite Hparse.
    destruct (String.eqb_spec (strings.TrimSpace htmlContent) ""); [contradiction|].
    reflexivity. }
  pose proof (url_scan_matches _ _ (FindAllString_urlRegex_scan htmlContent)) as Hall.
  assert (Forall (fun u => Forall (fun c => url_char c = true) (strings.bytes u))
            (regexp.FindAllString urlRegex htmlContent)) as Hbytes.
  { eapply Forall_impl; [exact Hall|]. intros u [_ Hu]. exact Hu. }
  split; [exact Hbytes|].
  intros Hne. apply Split_Join_byte; [exact Hne|].
  eapply Forall_impl; [exact Hbytes|]. intros u Hu Hin.
  rewrite Forall_forall in Hu. apply list_elem_of_In, Hu in Hin. discriminate.
Qed.

(** ** The loop over the parts *)

(** X7. The loop over the parts stops at the first part that is HTML and
    whose body can be read, and returns that body; what [NextPart] would
    return after it, an error included, is never looked at.  Without such a
    part the HTML is empty, and an error of [NextPart] before such a part is
    the error of the file. *)
Theorem htmlContent_of_first_html (before : list Part) :
  Forall (fun p => passed_over p = true) before ->
  (forall p body rest,
      strings.HasPrefix (p_Header_Get p "Content-Type") "text/html" = true ->
      p_Body p = Ok body ->
      htmlContent_of (map Ok before ++ Ok p :: rest) = Ok body)
  /\ htmlContent_of (map Ok before) = Ok ""
  /\ (forall e rest, htmlContent_of (map Ok before ++ Err e :: rest) = Err e).
Proof.
  intros Hbefore.
  assert (forall tail, htmlContent_of (map Ok before ++ tail) = htmlContent_of tail)
    as Hskip.
  { intros tail. induction Hbefore as [|p before Hp _ IH]; [reflexivity|].
    cbn [map app htmlContent_of]. unfold passed_over in Hp.
    destruct (strings.HasPrefix (p_Header_Get p "Content-Type") "text/html");
      [|exact IH].
    destruct (p_Body p); [discriminate|exact IH]. }
  split; [|split].
  - intros p body rest Hct Hbody. rewrite Hskip. cbn. rewrite Hct, Hbody. reflexivity.
  - rewrite <- (app_nil_r (map Ok before)), Hskip. reflexivity.
  - intros e rest. rewrite Hskip. reflexivity.
Qed.

(** ** [processEmlFile] *)

(** The record of a file whose parts could be read. *)
Lemma processEmlFile_record `{GoLibs} (filePath : string) (f : File)
    (mr : Reader Time) (htmlContent : string) :
  os_Open filePath = Ok f ->
  mail_CreateReader f = Ok mr ->
  htmlContent_of (r_Parts mr) = Ok htmlContent ->
  processEmlFile filePath
  = Ok ({| Folder := filepath_Base (filepath_Dir filePath);
           Subject := match h_Subject (r_Header mr) with Ok s => s | Err _ => "" end;
           FromName := fst (first_address (h_AddressList (r_Header mr) "From"));
           FromEmail := snd (first_address (h_AddressList (r_Header mr) "From"));
           ToName := fst (first_address (h_AddressList (r_Header mr) "To"));
           ToEmail := snd (first_address (h_AddressList (r_Header mr) "To"));
           SentDate := match h_Date (r_Header mr) with
                       | Ok date => Time_Format date "2006-01-02 15:04:05"
                       | Err _ => ""
                       end;
           IP := strings.ReplaceAll (h_Get (r_Header mr) "X-Originating-IP") ","
                   (String "010" "");
           URLs := strings.Join (extractUrls htmlContent) (String "010" "");
           URLDomains :=
             strings.Join (urlDomains_of (extractUrls htmlContent)) (String "010" "");
           OriginalFile := filepath_Base filePath |},
        htmlContent).
Proof.
  intros Hopen Hreader Hparts. unfold processEmlFile.
  rewrite Hopen, Hreader, Hparts.
  destruct (first_address (h_AddressList (r_Header mr) "From")).
  destruct (first_address (h_AddressList (r_Header mr) "To")).
  reflexivity.
Qed.

(** X8. [processEmlFile] fails for three reasons only: the file does not
    open, the reader cannot be created, or reading the parts fails.  A
    subject, an address list or a date that the header cannot give never
    fails the file; the field is left empty, as are the name and the
    address when the list parses to no address. *)
Theorem processEmlFile_fails_only_on `{GoLibs} (filePath : string) :
  (is_Ok (processEmlFile filePath) = true
   <-> exists f mr,
         os_Open filePath = Ok f /\ mail_CreateReader f = Ok mr
         /\ is_Ok (htmlContent_of (r_Parts mr)) = true)
  /\ (forall f mr rec htmlContent,
        os_Open filePath = Ok f ->
        mail_CreateReader f = Ok mr ->
        processEmlFile filePath = Ok (rec, htmlContent) ->
        (is_Ok (h_Subject (r_Header mr)) = false -> Subject rec = "")
        /\ (is_Ok (h_Date (r_Header mr)) = false -> SentDate rec = "")
        /\ (forall e, h_AddressList (r_Header mr) "From" = Err e ->
                      FromName rec = "" /\ FromEmail rec = "")
        /\ (h_AddressList (r_Header mr) "From" = Ok [] ->
            FromName rec = "" /\ FromEmail rec = "")
        /\ (forall e, h_AddressList (r_Header mr) "To" = Err e ->
                      ToName rec = "" /\ ToEmail rec = "")
        /\ (h_AddressList (r_Header mr) "To" = Ok [] ->
            ToName rec = "" /\ ToEmail rec = "")).
Proof.
  split.
  - split.
    + destruct (processEmlFile filePath) as [[rec h]|e] eqn:Hrun; [|discriminate].
      intros _. destruct (processEmlFile_Ok _ _ _ Hrun) as (f & mr & Ho & Hr & Hp).
      exists f, mr. rewrite Hp. repeat split; assumption.
    + intros (f & mr & Ho & Hr & Hp).
      destruct (htmlContent_of (r_Parts mr)) as [h|e] eqn:Hparts; [|discriminate].
      rewrite (processEmlFile_record filePath f mr h Ho Hr Hparts). reflexivity.
  - intros f mr rec htmlContent Ho Hr Hrun.
    destruct (processEmlFile_Ok _ _ _ Hrun) as (f' & mr' & Ho' & Hr' & Hp).
    assert (f' = f) as -> by congruence. assert (mr' = mr) as -> by congruence.
    rewrite (processEmlFile_record filePath f mr htmlContent Ho Hr Hp) in Hrun.
    injection Hrun as <-. cbn.
    split; [destruct (h_Subject (r_Header mr)); [discriminate|reflexivity]|].
    split; [destruct (h_Date (r_Header mr)); [discriminate|reflexivity]|].
    split; [intros e ->; split; reflexivity|].
    split; [intros ->; split; reflexivity|].
    split; [intros e ->; split; reflexivity|].
    intros ->. split; reflexivity.
Qed.

(** ** The joined fields of the record *)

(** X9. The URL field of a record is the URL list joined by line feeds.  It
    is empty when there is no URL, and it splits back into the URL list at
    the line feeds when there is one and no URL holds a line feed, which is
    so for every URL of the fallback path; a URL of the document tree that
    holds a line feed is cut in two by the split. *)
Theorem URLs_field_splits_back `{GoLibs} (filePath : string) (rec : EmailRecord)
    (htmlContent : string) :
  processEmlFile filePath = Ok (rec, htmlContent) ->
  let urls := extractUrls htmlContent in
  (urls = [] -> URLs rec = "")
  /\ (urls <> [] ->
      Forall (fun u => ~ has_byte "010" u) urls ->
      strings.Split (URLs rec) (String "010" "") = urls)
  /\ (forall e,
        urls <> [] ->
        strings.TrimSpace htmlContent <> "" ->
        html_Parse htmlContent = Err e ->
        strings.Split (URLs rec) (String "010" "") = urls)
  /\ (forall u v,
        urls = [u +:+ String "010" v] ->
        ~ has_byte "010" u ->
        ~ has_byte "010" v ->
        strings.Split (URLs rec) (String "010" "") = [u; v]).
Proof.
  intros Hrun. cbn zeta.
  destruct (processEmlFile_Ok _ _ _ Hrun) as (f & mr & Ho & Hr & Hp).
  rewrite (processEmlFile_record filePath f mr htmlContent Ho Hr Hp) in Hrun.
  injection Hrun as <-. cbn [URLs].
  split; [intros ->; reflexivity|].
  split; [intros Hne Hall; apply Split_Join_byte; assumption|].
  split.
  - intros e Hne Hblank Hparse.
    apply (fallback_urls_split_back htmlContent e Hblank Hparse). exact Hne.
  - intros u v -> Hu Hv. cbn [strings.Join].
    rewrite Split_byte_app by exact Hu. rewrite Split_byte_absent by exact Hv.
    reflexivity.
Qed.

(** X10. No comma is left in the IP field, in either variant, and the field
    is as long as the header value it was made from: every comma became one
    line feed and every other byte stayed. *)
Theorem IP_field_has_no_comma `{GoLibs} (filePath : string) :
  (forall rec htmlContent,
      processEmlFile filePath = Ok (rec, htmlContent) ->
      ~ has_byte "," (IP rec)
      /\ exists f mr,
           os_Open filePath = Ok f /\ mail_CreateReader f = Ok mr
           /\ strings.bytes (IP rec)
              = map (fun c => if Ascii.eqb "," c then "010"%char else c)
                  (strings.bytes (h_Get (r_Header mr) "X-Originating-IP")))
  /\ (forall rec htmlContent,
        Sequential.processEmlFile filePath = Ok (rec, htmlContent) ->
        ~ has_byte "," (IP rec)).
Proof.
  assert (forall raw,
             ~ has_byte "," (strings.ReplaceAll raw "," (String "010" ""))) as Hnone.
  { intros raw Hin. unfold has_byte in Hin. rewrite ReplaceAll_byte_map in Hin.
    apply in_map_iff in Hin as (c & Hc & _).
    destruct (Ascii.eqb "," c) eqn:Heq; [discriminate Hc|].
    apply Ascii.eqb_neq in Heq. congruence. }
  split.
  - intros rec htmlContent Hrun.
    destruct (processEmlFile_Ok _ _ _ Hrun) as (f & mr & Ho & Hr & Hp).
    rewrite (processEmlFile_record filePath f mr htmlContent Ho Hr Hp) in Hrun.
    injection Hrun as <-. cbn [IP]. split; [apply Hnone|].
    exists f, mr. split; [exact Ho|]. split; [exact Hr|]. apply ReplaceAll_byte_map.
  - intros rec htmlContent Hrun.
    destruct (os_Open filePath) as [file|e] eqn:Ho.
    2:{ unfold Sequential.processEmlFile in Hrun. rewrite Ho in Hrun. discriminate. }
    destruct (enmime_ReadEnvelope file) as [env|e] eqn:Henv.
    2:{ unfold Sequential.processEmlFile in Hrun. rewrite Ho, Henv in Hrun.
        discriminate. }
    destruct (Sequential_processed filePath file env Ho Henv) as (rec' & Hrec' & _ & Hip).
    assert (rec' = rec) as <- by congruence.
    rewrite Hip. apply Hnone.
Qed.

(** ** The worker pool, further *)

Module pool_more_facts.

Import pool pool_spec pool_more.

Section Facts.

Context `{GoLibs}.
Variable o : Options.
Variable paths : list string.

Ltac step_cases Hstep :=
  unfold step_of, step_main, step_worker in Hstep; cbn in Hstep;
  repeat case_match; simplify_eq/=.


Lemma calls_owed_insert (l1 l2 : list Worker) (w : Worker) :
  concat (map (calls_owed_of o) (l1 ++ w :: l2))
  = concat (map (calls_owed_of o) l1) ++ calls_owed_of o w
    ++ concat (map (calls_owed_of o) l2).
Proof. rewrite map_app, concat_app. reflexivity. Qed.





(** Without workers nothing is ever sent. *)
Lemma idle_pool_step (a : Actor) (s s' : State) :
  workers s = [] /\ sent s = [] /\ results s = [] /\ records s = [] /\ calls s = [] ->
  step_of o (length paths) a s = Some s' ->
  workers s' = [] /\ sent s' = [] /\ results s' = [] /\ records s' = [] /\ calls s' = [].
Proof.
  intros (Hw & Hs & Hr & Hrec & Hc) Hstep. destruct s as [m ts cl ws g rs snt cs recs].
  cbn in *. subst. destruct a as [|i]; step_cases Hstep; repeat split; reflexivity.
Qed.

End Facts.

End pool_more_facts.

Lemma start_workers (paths : list string) (workerCount : Z) (s0 : pool.State) :
  pool.start paths workerCount = Some s0 ->
  workerCount = Z.of_nat (Z.to_nat workerCount)
  /\ s0 = pool.mkState (pool.Enqueue paths) [] false
            (replicate (Z.to_nat workerCount) pool.Idle) (Z.to_nat workerCount)
            [] [] [] [].
Proof.
  unfold pool.start. destruct (Z.ltb_spec workerCount 0) as [Hneg|Hpos]; [discriminate|].
  intros [= <-]. split; [lia|reflexivity].
Qed.

Lemma start_Inv `{GoLibs} (o : Options) (paths : list string) (workerCount : Z)
    (s0 : pool.State) :
  pool.start paths workerCount = Some s0 ->
  pool_spec.Inv o paths (Z.to_nat workerCount) s0.
Proof.
  intros Hstart. destruct (start_workers _ _ _ Hstart) as [Hw _].
  rewrite Hw in Hstart. exact (pool_facts.Inv_start o paths _ s0 Hstart).
Qed.

(** X11. Neither channel is ever asked to hold more than its capacity, the
    number of paths: whenever the main goroutine has a path left to send the
    task channel has room, and whenever a worker has a result to send the
    result channel has room, so no send of a run ever blocks. *)
Theorem pool_sends_never_block `{GoLibs} (o : Options) (paths : list string)
    (workerCount : Z) (s0 s : pool.State) :
  pool.start paths workerCount = Some s0 ->
  pool.reachable o (length paths) s0 s ->
  length (pool.tasks s) <= length paths
  /\ length (pool.results s) <= length paths
  /\ (forall p rest, pool.main s = pool.Enqueue (p :: rest) ->
        length (pool.tasks s) < length paths
        /\ exists s', pool.step_of o (length paths) pool.MainG s = Some s')
  /\ (forall i r, pool.workers s !! i = Some (pool.Sending r) ->
        length (pool.results s) < length paths
        /\ exists s', pool.step_of o (length paths) (pool.WorkerG i) s = Some s').
Proof.
  intros Hstart Hreach.
  pose proof (pool_facts.Inv_reachable o paths _ s0 s (start_Inv o _ _ _ Hstart) Hreach)
    as [Hperm (drained & Hsent & Hrecs) _ _ _ _ _ _ Hcap].
  apply Permutation_length in Hperm.
  rewrite length_map, length_app, Hsent, length_app in Hperm.
  unfold pool_spec.owed in Hperm. rewrite !length_app in Hperm.
  split; [lia|]. split; [lia|]. split.
  - intros p rest Hmain. rewrite Hmain in Hcap. cbn in Hcap.
    assert (length (pool.tasks s) < length paths) as Hlt by lia.
    split; [exact Hlt|].
    unfold pool.step_of, pool.step_main. rewrite Hmain.
    apply Nat.ltb_lt in Hlt. rewrite Hlt. eexists. reflexivity.
  - intros i r Hi. pose proof (pool_facts.owed_length_sending o _ _ _ Hi) as Howed.
    assert (length (pool.results s) < length paths) as Hlt by lia.
    split; [exact Hlt|].
    unfold pool.step_of, pool.step_worker. rewrite Hi.
    apply Nat.ltb_lt in Hlt. rewrite Hlt. eexists. reflexivity.
Qed.






(** X13. A worker count of zero is accepted and leaves every path
    unprocessed: the run ends, returns no record and makes no file-system
    call; a negative count aborts the run before anything is processed. *)
Theorem no_worker_no_record `{GoLibs} (o : Options) (paths : list string) :
  (forall recs, pool.processFilesConcurrently paths 0 o recs <-> recs = [])
  /\ (forall s0 s,
        pool.start paths 0 = Some s0 ->
        pool.reachable o (length paths) s0 s ->
        pool.calls s = [] /\ pool.sent s = [])
  /\ (forall workerCount recs,
        (workerCount < 0)%Z ->
        ~ pool.processFilesConcurrently paths workerCount o recs).
Proof.
  assert (forall s0 s,
             pool.start paths 0 = Some s0 ->
             pool.reachable o (length paths) s0 s ->
             pool.workers s = [] /\ pool.sent s = [] /\ pool.results s = []
             /\ pool.records s = [] /\ pool.calls s = []) as Hidle.
  { intros s0 s Hstart Hreach. destruct (start_workers _ _ _ Hstart) as [_ ->].
    induction Hreach as [|s s' _ IH [a Hstep]]; [repeat split; reflexivity|].
    exact (pool_more_facts.idle_pool_step o paths a s s' IH Hstep). }
  split; [|split].
  - intros recs. split.
    + intros (s0 & s & Hstart & Hreach & _ & <-).
      destruct (Hidle s0 s Hstart Hreach) as (_ & _ & _ & Hrecs & _). exact Hrecs.
    + intros ->. assert (exists s0, pool.start paths 0 = Some s0) as [s0 Hstart]
        by (eexists; reflexivity).
      destruct (pool_facts.run_finishes o paths _ s0 s0 (start_Inv o _ _ _ Hstart)
                  (pool.reach_start _ _ _)) as (sf & Hreach & Hmain).
      exists s0, sf. split; [exact Hstart|]. split; [exact Hreach|].
      split; [exact Hmain|].
      destruct (Hidle s0 sf Hstart Hreach) as (_ & _ & _ & Hrecs & _). exact Hrecs.
  - intros s0 s Hstart Hreach.
    destruct (Hidle s0 s Hstart Hreach) as (_ & Hsent & _ & _ & Hcalls).
    split; assumption.
  - intros workerCount recs Hneg (s0 & s & Hstart & _).
    unfold pool.start in Hstart. apply Z.ltb_lt in Hneg. rewrite Hneg in Hstart.
    discriminate.
Qed.






(** ** The sequential variant against the concurrent one *)

Lemma candidates_cons `{GoLibs} (root : string) (entry : DirEntry)
    (entries : list DirEntry) :
  pool_more.candidates root (entry :: entries)
  = (if negb (d_IsDir entry) && shouldProcessFile (d_Name entry)
     then [filepath_Join root (d_Name entry)] else [])
    ++ pool_more.candidates root entries.
Proof.
  unfold pool_more.candidates.
  change (omap ?f (?x :: ?l))
    with (match f x with Some y => y :: omap f l | None => omap f l end).
  cbn beta.
  destruct (negb (d_IsDir entry) && shouldProcessFile (d_Name entry)); reflexivity.
Qed.

Lemma collect_fold `{GoLibs} (root : string) (entries : list DirEntry)
    (acc : list string) :
  fold_left
    (fun paths entry =>
       if negb (d_IsDir entry) && shouldProcessFile (d_Name entry)
       then paths ++ [filepath_Join root (d_Name entry)]
       else paths)
    entries acc
  = acc ++ pool_more.candidates root entries.
Proof.
  revert acc. induction entries as [|entry entries IH]; intros acc; cbn [fold_left].
  - unfold pool_more.candidates. cbn. rewrite app_nil_r. reflexivity.
  - rewrite IH, candidates_cons.
    destruct (negb (d_IsDir entry) && shouldProcessFile (d_Name entry));
      [rewrite <- app_assoc|]; reflexivity.
Qed.

Lemma collect_candidates `{GoLibs} (root : string) (entries : list DirEntry) :
  collectFilePathsNonRecursive (Ok entries) root
  = Ok (pool_more.candidates root entries).
Proof. unfold collectFilePathsNonRecursive. rewrite collect_fold. reflexivity. Qed.



(** ** One worker, and the sequential variant *)

Module pool_fs_single.

Import pool pool_spec pool_fs pool_fs_spec pool_fs_facts.

Section Single.

Context `{GoLibs}.
Variable World : Type.
Variable look : World -> string -> Res File.
Variable effect : World -> Call -> World.
Variable o : Options.
Variable paths : list string.
Variable w0 : World.

#[local] Abbreviation step_of := (pool_fs.step_of World look effect o (length paths)).
#[local] Abbreviation reachable := (pool_fs.reachable World look effect o (length paths)).
#[local] Abbreviation libs_in := (pool_fs.libs_in World look).
#[local] Abbreviation outcome := (pool_fs_spec.outcome World look).
#[local] Abbreviation pipeline_calls := (pool_fs_spec.pipeline_calls World look o).
#[local] Abbreviation log_records := (pool_fs_spec.log_records World look).
#[local] Abbreviation log_calls := (pool_fs_spec.log_calls World look o).
#[local] Abbreviation replay := (pool_fs_spec.replay World look effect o).

Ltac step_cases Hstep :=
  unfold pool.step_of, step_main, step_worker in Hstep; cbn in Hstep;
  repeat case_match; simplify_eq/=.

(** With one worker every step keeps the paths in line. *)
Lemma single_worker_step (a : Actor) (b b' : Batch World) :
  length (workers (st b)) = 1 ->
  step_of a b = Some b' ->
  length (workers (st b')) = 1
  /\ map fst (log b') ++ concat (map hand (workers (st b')))
     ++ map path (tasks (st b')) ++ pending (main (st b'))
     = map fst (log b) ++ concat (map hand (workers (st b)))
       ++ map path (tasks (st b)) ++ pending (main (st b)).
Proof.
  intros Hone Hstep. apply (step_pool World look effect o paths) in Hstep as [Hstep Hlog].
  destruct b as [s w l], b' as [s' w' l']. cbn [st world log] in *.
  destruct s as [m ts cl ws g rs snt cs recs]. cbn in Hone.
  destruct ws as [|v [|v' ws]]; try discriminate.
  destruct a as [|[|i]]; cbn [in_hand workers] in Hlog; cbn in Hlog.
  - destruct Hlog as [-> ->]. step_cases Hstep; split; try reflexivity.
    rewrite map_app, <- !app_assoc. reflexivity.
  - destruct v as [|t|r|]; destruct Hlog as [-> ->]; step_cases Hstep;
      split; try reflexivity.
    rewrite map_app, <- !app_assoc. reflexivity.
  - step_cases Hstep.
Qed.

Lemma single_worker_line (b0 b : Batch World) :
  pool_fs.start World paths 1 w0 = Some b0 ->
  reachable b0 b ->
  length (workers (st b)) = 1
  /\ map fst (log b) ++ concat (map hand (workers (st b)))
     ++ map path (tasks (st b)) ++ pending (main (st b))
     = paths.
Proof.
  intros Hstart Hreach. induction Hreach as [|b b' _ [IHone IHline] [a Hstep]].
  - destruct (start_batch World paths 1 w0 b0 Hstart) as (s0 & _ & -> & ->).
    split; reflexivity.
  - destruct (single_worker_step a b b' IHone Hstep) as [Hone Hline].
    split; [exact Hone|]. rewrite Hline. exact IHline.
Qed.

(** The loop bodies run one after the other give the records, the calls
    and the tree of the sequential variant. *)
Lemma replay_cons (w : World) (p : string) (ps : list string) :
  replay w (p :: ps)
  = ((p, w) :: fst (replay (fold_left effect (pipeline_calls w p) w) ps),
     snd (replay (fold_left effect (pipeline_calls w p) w) ps)).
Proof. cbn. destruct (pool_fs_spec.replay World look effect o _ ps). reflexivity. Qed.

Lemma log_records_cons (e : string * World) (l : list (string * World)) :
  log_records (e :: l)
  = match pool_fs_spec.pipeline_record World look (snd e) (fst e) with
    | Some rec => rec :: log_records l
    | None => log_records l
    end.
Proof. reflexivity. Qed.

Lemma visit_file_replay (p : string) (recs : list EmailRecord) (cs : list Call)
    (w : World) :
  sequential_fs.visit_file World look effect o p (recs, cs, w)
  = (recs ++ log_records [(p, w)], cs ++ pipeline_calls w p,
     fold_left effect (pipeline_calls w p) w).
Proof.
  rewrite log_records_cons.
  unfold sequential_fs.visit_file, pool_fs_spec.pipeline_record,
    pool_fs_spec.pipeline_calls. cbn [fst snd].
  destruct (processEmlFile p) as [[rec h]|e]; [reflexivity|].
  cbn. rewrite !app_nil_r. reflexivity.
Qed.

Lemma scan_fold (entries : list DirEntry) (recs : list EmailRecord)
    (cs : list Call) (w : World) :
  fold_left
    (fun acc entry =>
       if d_IsDir entry then acc
       else if shouldProcessFile (d_Name entry)
            then sequential_fs.visit_file World look effect o
                   (filepath_Join (inputRoot o) (d_Name entry)) acc
            else acc)
    entries (recs, cs, w)
  = (recs ++ log_records (fst (replay w (pool_more.candidates (inputRoot o) entries))),
     cs ++ log_calls (fst (replay w (pool_more.candidates (inputRoot o) entries))),
     snd (replay w (pool_more.candidates (inputRoot o) entries))).
Proof.
  revert recs cs w. induction entries as [|entry entries IH]; intros recs cs w;
    cbn [fold_left].
  - cbn. rewrite !app_nil_r. reflexivity.
  - rewrite candidates_cons.
    destruct (d_IsDir entry); cbn [negb andb]; [apply IH|].
    destruct (shouldProcessFile (d_Name entry)); [|apply IH].
    rewrite visit_file_replay, IH. cbn [app]. rewrite replay_cons. cbn [fst snd].
    rewrite !log_records_cons. unfold pool_fs_spec.log_calls.
    cbn [map concat fst snd].
    destruct (pool_fs_spec.pipeline_record World look w _);
      rewrite <- ?app_assoc; cbn [app]; rewrite ?app_nil_r; reflexivity.
Qed.

(** With one worker the results are sent in the order of the log. *)
Lemma sent_in_line (b0 b : Batch World) :
  pool_fs.start World paths 1 w0 = Some b0 ->
  reachable b0 b ->
  length (workers (st b)) = 1
  /\ sent (st b) ++ concat (map outbound (workers (st b))) = map outcome (log b).
Proof.
  intros Hstart Hreach. induction Hreach as [|b b' _ [Hone Hs] [a Hstep]].
  - destruct (start_batch World paths 1 w0 b0 Hstart) as (s0 & _ & -> & ->).
    split; reflexivity.
  - apply (step_pool World look effect o paths) in Hstep as [Hstep Hlog].
    destruct b as [s w l], b' as [s' w' l']. cbn [st world log] in *.
    destruct s as [m ts cl ws g rs snt cs recs]. cbn in Hone.
    destruct ws as [|v [|v' ws]]; try discriminate.
    destruct a as [|[|i]]; cbn [in_hand workers] in Hlog; cbn in Hlog.
    + destruct Hlog as [-> ->]. cbn in *.
      step_cases Hstep; (split; [reflexivity|assumption]).
    + cbn in *. destruct v as [|t|r|]; destruct Hlog as [-> ->]; step_cases Hstep;
        (split; [reflexivity|]); cbn in *; try assumption.
      * match goal with
        | Hbody : worker_body o ?t = (?r, _) |- _ =>
            apply (result_in World look o) in Hbody; subst r
        end.
        rewrite map_app, <- Hs. cbn. rewrite app_nil_r. reflexivity.
      * rewrite <- Hs, <- app_assoc. reflexivity.
    + step_cases Hstep.
Qed.

(** What a finished run with one worker has produced. *)
Lemma finished_single (b0 b : Batch World) :
  pool_fs.start World paths 1 w0 = Some b0 ->
  reachable b0 b ->
  main (st b) = Finished ->
  replay w0 paths = (log b, world b)
  /\ records (st b) = log_records (log b)
  /\ calls (st b) = log_calls (log b).
Proof.
  intros Hstart Hreach Hmain.
  pose proof (Shape_reachable World look effect o paths 1 w0 b0 b Hstart Hreach)
    as [_ (drained & Hd & Hrecs) _ _ Hexit Hdone Hfin Hlen _].
  destruct (single_worker_line b0 b Hstart Hreach) as [_ Hline].
  destruct (sent_in_line b0 b Hstart Hreach) as [_ Hsent].
  destruct (calls_logged World look effect o paths 1 w0 b0 b Hstart Hreach)
    as [Hcalls Hreplay].
  specialize (Hdone (or_intror Hmain)). specialize (Hfin Hmain).
  assert (tasks (st b) = []) as Hts.
  { apply Hexit. exists 0. destruct (workers (st b)) as [|w ws]; [cbn in Hlen; lia|].
    apply Forall_cons in Hdone as [-> _]. reflexivity. }
  assert (concat (map hand (workers (st b))) = []
          /\ concat (map outbound (workers (st b))) = []) as [Hhands Hout]
    by (clear -Hdone; induction Hdone as [|w ws -> _ IH]; [split; reflexivity|exact IH]).
  rewrite Hmain, Hts, Hhands in Hline. cbn in Hline. rewrite app_nil_r in Hline.
  rewrite Hline in Hreplay.
  split; [exact Hreplay|]. split; [|exact Hcalls].
  rewrite Hout, app_nil_r in Hsent. rewrite Hfin, app_nil_r in Hd. subst drained.
  rewrite Hrecs, Hsent. apply successes_outcome.
Qed.

End Single.

End pool_fs_single.

(** X15. On one directory the sequential go-message variant and the
    concurrent one do the same work.  [scanDirectoryOnce] fails exactly when
    [collectFilePathsNonRecursive] fails, with the same error.  Otherwise a
    concurrent run over the collected paths with one worker returns the very
    records of [scanDirectoryOnce], makes the same calls in the same order
    and leaves the same file tree, whatever the calls do to the files.  With
    more workers the records and the calls are the same up to their order
    when no call of the batch changes what a collected path holds. *)
Theorem concurrent_agrees_with_sequential `{GoLibs} (World : Type)
    (look : World -> string -> Res File) (effect : World -> Call -> World)
    (o : Options) (readDir : Res (list DirEntry)) (w0 : World) :
  match collectFilePathsNonRecursive readDir (inputRoot o) with
  | Err e => sequential_fs.scanDirectoryOnce World look effect o readDir w0 = Err e
  | Ok paths =>
      exists recs calls w',
        sequential_fs.scanDirectoryOnce World look effect o readDir w0
        = Ok (recs, calls, w')
        /\ (forall b0 b,
              pool_fs.start World paths 1 w0 = Some b0 ->
              pool_fs.reachable World look effect o (length paths) b0 b ->
              pool.main (pool_fs.st b) = pool.Finished ->
              pool.records (pool_fs.st b) = recs
              /\ pool.calls (pool_fs.st b) = calls
              /\ pool_fs.world b = w')
        /\ (pool_fs_spec.undisturbed World look effect o w0 paths ->
            forall workerCount b0 b,
              (0 < workerCount)%Z ->
              pool_fs.start World paths workerCount w0 = Some b0 ->
              pool_fs.reachable World look effect o (length paths) b0 b ->
              pool.main (pool_fs.st b) = pool.Finished ->
              Permutation (pool.records (pool_fs.st b)) recs
              /\ Permutation (pool.calls (pool_fs.st b)) calls)
  end.
Proof.
  destruct readDir as [entries|e]; [|reflexivity].
  rewrite collect_candidates. unfold sequential_fs.scanDirectoryOnce.
  rewrite pool_fs_single.scan_fold. cbn [app].
  set (paths := pool_more.candidates (inputRoot o) entries).
  assert (forall b0 b,
             pool_fs.start World paths 1 w0 = Some b0 ->
             pool_fs.reachable World look effect o (length paths) b0 b ->
             pool.main (pool_fs.st b) = pool.Finished ->
             pool.records (pool_fs.st b)
             = pool_fs_spec.log_records World look
                 (fst (pool_fs_spec.replay World look effect o w0 paths))
             /\ pool.calls (pool_fs.st b)
                = pool_fs_spec.log_calls World look o
                    (fst (pool_fs_spec.replay World look effect o w0 paths))
             /\ pool_fs.world b
                = snd (pool_fs_spec.replay World look effect o w0 paths)) as Hone.
  { intros b0 b Hstart Hreach Hmain.
    destruct (pool_fs_single.finished_single World look effect o paths w0 b0 b
                Hstart Hreach Hmain) as (-> & Hrecs & Hcalls).
    repeat split; assumption. }
  eexists _, _, _. split; [reflexivity|]. split; [exact Hone|].
  intros Hquiet workerCount b0 b Hpos Hstart Hreach Hmain.
  destruct (pool_fs_facts.start_count World paths 1 w0 ltac:(lia))
    as (c0 & Hc0 & Hc0').
  destruct (pool_fs_facts.batch_finishes World look effect o paths 1 w0 c0 c0 Hc0'
              (pool_fs.reach_start _ _ _ _ _ _)) as (c & Hc & Hcmain).
  destruct (Hone c0 c Hc0 Hc Hcmain) as (<- & <- & _).
  destruct (pool_fs_facts.finished_calm World look effect o paths 1 w0 Hquiet c0 c
              ltac:(lia) Hc0' Hc Hcmain) as (Hr1 & _ & Hc1).
  destruct (pool_fs_facts.start_count World paths workerCount w0 ltac:(lia))
    as (b0' & Hb0 & Hb0').
  assert (b0' = b0) as -> by congruence.
  destruct (pool_fs_facts.finished_calm World look effect o paths
              (Z.to_nat workerCount) w0 Hquiet b0 b ltac:(lia) Hb0' Hreach Hmain)
    as (Hr & _ & Hcs).
  split; (etrans; [eassumption|symmetry; assumption]).
Qed.

(** ** The recursive walk *)




(** ** The file-system procedures *)

Lemma HasSuffix_app (stem suffix : string) : HasSuffix (stem +:+ suffix) suffix = true.
Proof.
  unfold HasSuffix. rewrite length_app_string.
  replace (String.length stem + String.length suffix - String.length suffix)
    with (String.length stem) by lia.
  rewrite drop_app_length, String.eqb_refl, andb_true_r.
  apply Nat.leb_le. lia.
Qed.

Lemma TrimSuffix_app (stem suffix : string) : TrimSuffix (stem +:+ suffix) suffix = stem.
Proof.
  unfold TrimSuffix. rewrite HasSuffix_app, length_app_string.
  replace (String.length stem + String.length suffix - String.length suffix)
    with (String.length stem) by lia.
  apply take_app_length.
Qed.

(** X17. When the path of the file relative to the input root is a stem
    followed by what [filepath.Ext] returns for it, [writeHtmlFile] writes
    the HTML content to the stem followed by .html under the output
    directory, with mode 0644, and only after the directory of that path has
    been made; it makes no other call, and it succeeds exactly when both
    calls do. *)
Theorem writeHtmlFile_replaces_extension `{GoLibs} (os : OS)
    (filePath inputRoot htmlOutDir htmlContent relPath stem : string) :
  filepath_Rel inputRoot filePath = Ok relPath ->
  relPath = stem +:+ filepath_Ext relPath ->
  let outPath := filepath_Join htmlOutDir (stem +:+ ".html") in
  let mkdir := sys_MkdirAll (filepath_Dir outPath) 493 in
  let write := sys_WriteFile outPath htmlContent 420 in
  let '(trace, e) := writeHtmlFile os filePath inputRoot htmlOutDir htmlContent in
  (trace = [mkdir] \/ trace = [mkdir; write])
  /\ (In write trace <-> os mkdir = None)
  /\ (e = None <-> os mkdir = None /\ os write = None).
Proof.
  intros Hrel Hext. unfold writeHtmlFile. rewrite Hrel.
  pose proof (TrimSuffix_app stem (filepath_Ext relPath)) as Htrim.
  rewrite <- Hext in Htrim. rewrite Htrim. cbn zeta.
  destruct (os (sys_MkdirAll _ 493)) as [e|] eqn:Hmk.
  - split; [left; reflexivity|]. split.
    + split; [intros [Hin|[]]; discriminate|discriminate].
    + split; [discriminate|intros [Hno _]; discriminate].
  - split; [right; reflexivity|]. split.
    + split; [reflexivity|intros _; right; left; reflexivity].
    + split; [intros Hw; split; [reflexivity|exact Hw]|intros [_ Hw]; exact Hw].
Qed.

(** X18. [renameFileTo] only copies.  Whatever the operating system
    answers, every handle it opens is closed again before it returns, the
    one opened last first, and it closes nothing else; it asks for the copy
    only after the directory was made and both files were opened; nothing it
    asks changes what is stored under a path other than the new one; and it
    succeeds exactly when the four calls before the closing succeed. *)
Theorem renameFileTo_copies_and_closes `{GoLibs} (os : OS)
    (filePath inputRoot outputDir : string) (rec : EmailRecord) :
  let '(trace, e) := renameFileTo os filePath inputRoot outputDir rec in
  open_handles os trace [] = Some []
  /\ match renameFileTo_newPath filePath inputRoot outputDir rec with
     | Err e' => trace = [] /\ e = Some e'
     | Ok newPath =>
         let mkdir := sys_MkdirAll (filepath_Dir newPath) 493 in
         (forall c p, In c trace -> overwrites p c = true -> p = newPath)
         /\ (forall dst src, In (sys_Copy dst src) trace ->
               dst = newPath /\ src = filePath
               /\ os mkdir = None /\ os (sys_Open filePath) = None
               /\ os (sys_Create newPath) = None)
         /\ (e = None <->
             os mkdir = None /\ os (sys_Open filePath) = None
             /\ os (sys_Create newPath) = None
             /\ os (sys_Copy newPath filePath) = None)
     end.
Proof.
  unfold renameFileTo.
  destruct (renameFileTo_newPath filePath inputRoot outputDir rec) as [newPath|e'];
    [|split; [reflexivity|split; reflexivity]].
  cbn zeta.
  assert (forall c p, In c [sys_MkdirAll (filepath_Dir newPath) 493; sys_Open filePath;
                            sys_Create newPath; sys_Copy newPath filePath;
                            sys_Close newPath; sys_Close filePath] ->
                      overwrites p c = true -> p = newPath) as Hover.
  { intros c p Hin Hc. cbn in Hin.
    destruct Hin as [<-|[<-|[<-|[<-|[<-|[<-|[]]]]]]]; cbn in Hc; try discriminate;
      apply String.eqb_eq in Hc; exact Hc. }
  destruct (os (sys_MkdirAll _ 493)) as [e1|] eqn:Hmk.
  { split; [reflexivity|]. split; [|split].
    - intros c p Hin. apply Hover. cbn in *. tauto.
    - intros dst src [Hin|[]]. discriminate.
    - split; [discriminate|intros [Hno _]; discriminate]. }
  destruct (os (sys_Open filePath)) as [e2|] eqn:Hop.
  { split; [cbn; rewrite Hop; reflexivity|]. split; [|split].
    - intros c p Hin. apply Hover. cbn in *. tauto.
    - intros dst src [Hin|[Hin|[]]]; discriminate.
    - split; [discriminate|intros (_ & Hno & _); discriminate]. }
  destruct (os (sys_Create newPath)) as [e3|] eqn:Hcr.
  { split; [cbn; rewrite Hop, Hcr, String.eqb_refl; reflexivity|]. split; [|split].
    - intros c p Hin. apply Hover. cbn in *. tauto.
    - intros dst src [Hin|[Hin|[Hin|[Hin|[]]]]]; discriminate.
    - split; [discriminate|intros (_ & _ & Hno & _); discriminate]. }
  split; [cbn; rewrite Hop, Hcr, !String.eqb_refl; reflexivity|]. split; [|split].
  - exact Hover.
  - intros dst src [Hin|[Hin|[Hin|[Hin|[Hin|[Hin|[]]]]]]]; try discriminate.
    injection Hin as <- <-. repeat split; reflexivity.
  - split; [intros Hc; repeat split; exact Hc|intros (_ & _ & _ & Hc); exact Hc].
Qed.

(** X19. [renameFileTo] does not look whether the new path is the path of
    the file itself.  When it is, and the directory can be made and the file
    opened, the function asks to create the very file it has just opened for
    reading, before it copies from it, and then to copy the file onto
    itself. *)
Theorem renameFileTo_creates_over_its_source `{GoLibs} (os : OS)
    (filePath inputRoot outputDir : string) (rec : EmailRecord) :
  renameFileTo_newPath filePath inputRoot outputDir rec = Ok filePath ->
  os (sys_MkdirAll (filepath_Dir filePath) 493) = None ->
  os (sys_Open filePath) = None ->
  exists rest,
    fst (renameFileTo os filePath inputRoot outputDir rec)
    = [sys_MkdirAll (filepath_Dir filePath) 493; sys_Open filePath;
       sys_Create filePath] ++ rest
    /\ (os (sys_Create filePath) = None ->
        rest = [sys_Copy filePath filePath; sys_Close filePath; sys_Close filePath]).
Proof.
  intros Hnew Hmk Hop. unfold renameFileTo. rewrite Hnew. cbn zeta.
  rewrite Hmk, Hop. destruct (os (sys_Create filePath)) as [e|].
  - eexists. split; [reflexivity|discriminate].
  - eexists. split; [reflexivity|reflexivity].
Qed.

(** X20. Which system calls a worker makes for a file follows from the
    options alone: a file is written only when an HTML directory is given,
    and what is written is the HTML content; a copy is made only when a
    copy directory is given, and it is read from the file; the file is
    renamed only when renaming is asked for and no copy directory is given;
    without any option no call is made at all. *)
Theorem worker_syscalls_follow_options `{GoLibs} (os : OS) (o : Options)
    (filePath : string) (rec : EmailRecord) (htmlContent : string) :
  (forall p content perm,
      In (sys_WriteFile p content perm)
        (worker_syscalls os o filePath rec htmlContent) ->
      htmlOutDir o <> "" /\ content = htmlContent)
  /\ (forall dst src,
        In (sys_Copy dst src) (worker_syscalls os o filePath rec htmlContent) ->
        renameByHeaderTo o <> "" /\ src = filePath)
  /\ (forall old new,
        In (sys_Rename old new) (worker_syscalls os o filePath rec htmlContent) ->
        renameByHeaderTo o = "" /\ renameByHeader o = true
        /\ old = filePath /\ new = renameFile_newPath filePath rec)
  /\ (htmlOutDir o = "" -> renameByHeaderTo o = "" -> renameByHeader o = false ->
      worker_syscalls os o filePath rec htmlContent = []).
Proof.
  unfold worker_syscalls, sideEffects.
  assert (forall c, In c (fst (writeHtmlFile os filePath (inputRoot o) (htmlOutDir o)
                                 htmlContent)) ->
                    (exists p, c = sys_MkdirAll p 493)
                    \/ (exists p, c = sys_WriteFile p htmlContent 420)) as Hwrite.
  { intros c. unfold writeHtmlFile.
    destruct (filepath_Rel (inputRoot o) filePath) as [relPath|e]; [|intros []].
    cbn zeta. destruct (os (sys_MkdirAll _ 493)); cbn; intros Hin;
      repeat (destruct Hin as [<-|Hin]; [eauto|]); destruct Hin. }
  assert (forall c, In c (fst (renameFileTo os filePath (inputRoot o) (renameByHeaderTo o)
                                 rec)) ->
                    (exists p, c = sys_MkdirAll p 493) \/ c = sys_Open filePath
                    \/ (exists p, c = sys_Create p) \/ (exists p, c = sys_Copy p filePath)
                    \/ (exists p, c = sys_Close p)) as Hcopy.
  { intros c. unfold renameFileTo.
    destruct (renameFileTo_newPath filePath (inputRoot o) (renameByHeaderTo o) rec)
      as [newPath|e]; [|intros []].
    cbn zeta.
    destruct (os (sys_MkdirAll _ 493)); [|destruct (os (sys_Open filePath));
      [|destruct (os (sys_Create newPath))]]; cbn; intros Hin;
      repeat (destruct Hin as [<-|Hin]; [eauto 6|]); destruct Hin. }
  destruct (String.eqb_spec (htmlOutDir o) "") as [Hhtml|Hhtml];
    destruct (String.eqb_spec (renameByHeaderTo o) "") as [Hto|Hto];
    destruct (renameByHeader o) eqn:Hin_place; cbn [negb app map concat perform];
    rewrite ?app_nil_r.
  all: repeat split; try congruence; try (intros; contradiction).
  all: intros; repeat match goal with
         | Hin : In _ (_ ++ _) |- _ => apply in_app_or in Hin as [Hin|Hin]
         | Hin : In _ (fst (writeHtmlFile _ _ _ _ _)) |- _ =>
             apply Hwrite in Hin as [[? Hin]|[? Hin]]
         | Hin : In _ (fst (renameFileTo _ _ _ _ _)) |- _ =>
             apply Hcopy in Hin as [[? Hin]|[Hin|[[? Hin]|[[? Hin]|[? Hin]]]]]
         | Hin : In _ (fst (renameFile _ _ _)) |- _ => cbn in Hin; destruct Hin as [Hin|[]]
         | Hin : In _ [] |- _ => destruct Hin
         end; try discriminate; try congruence.
Qed.

(** ** The IP field of the enmime based variant *)

Lemma outside_cutset_brackets (c : ascii) :
  in_cutset "[]" c = false -> c <> "["%char /\ c <> "]"%char.
Proof.
  unfold in_cutset. cbn. intros Hcut.
  apply orb_false_elim in Hcut as [Hopen Hcut].
  apply orb_false_elim in Hcut as [Hclose _].
  apply Ascii.eqb_neq in Hopen, Hclose. split; congruence.
Qed.

Lemma head_bytes (t : string) (c : ascii) :
  head (strings.bytes t) = Some c -> exists t', t = String c t'.
Proof. destruct t as [|x t']; [discriminate|]. intros [= <-]. eexists. reflexivity. Qed.

Lemma last_bytes (t : string) (c : ascii) :
  last (strings.bytes t) = Some c -> exists t', String.rev t = String c t'.
Proof.
  intros Hlast. apply last_Some in Hlast as [l Hl].
  pose proof (bytes_rev t) as Hrev. rewrite Hl, rev_unit in Hrev.
  destruct (String.rev t) as [|x t']; [discriminate|].
  cbn in Hrev. injection Hrev as -> _. eexists. reflexivity.
Qed.

(** X21. In the enmime based variant the IP field is the header value
    without the square brackets at its two ends, as many as there are, with
    every comma replaced by a line feed: the field neither starts nor ends
    with a bracket, while a bracket inside the value stays. *)
Theorem enmime_IP_field_trimmed `{GoLibs} (filePath : string) (rec : EmailRecord)
    (htmlContent : string) :
  Sequential.processEmlFile filePath = Ok (rec, htmlContent) ->
  exists file env raw,
    os_Open filePath = Ok file
    /\ enmime_ReadEnvelope file = Ok env
    /\ trimmed_of "[]" (Root_Header_Get env "X-Originating-IP") raw
    /\ strings.bytes (IP rec)
       = map (fun c => if Ascii.eqb "," c then "010"%char else c) (strings.bytes raw)
    /\ (forall c, head (strings.bytes (IP rec)) = Some c ->
                  c <> "["%char /\ c <> "]"%char)
    /\ (forall c, last (strings.bytes (IP rec)) = Some c ->
                  c <> "["%char /\ c <> "]"%char).
Proof.
  intros Hrun.
  destruct (os_Open filePath) as [file|e] eqn:Ho.
  2:{ unfold Sequential.processEmlFile in Hrun. rewrite Ho in Hrun. discriminate. }
  destruct (enmime_ReadEnvelope file) as [env|e] eqn:Henv.
  2:{ unfold Sequential.processEmlFile in Hrun. rewrite Ho, Henv in Hrun.
      discriminate. }
  destruct (Sequential_processed filePath file env Ho Henv) as (rec' & Hrec' & _ & Hip).
  assert (rec' = rec) as <- by congruence.
  pose proof (Trim_trimmed (Root_Header_Get env "X-Originating-IP") "[]")
    as Htrim.
  set (raw := strings.Trim (Root_Header_Get env "X-Originating-IP") "[]") in *.
  assert (strings.bytes (IP rec')
          = map (fun c => if Ascii.eqb "," c then "010"%char else c) (strings.bytes raw))
    as Hbytes by (rewrite Hip; apply ReplaceAll_byte_map).
  assert (forall c x, (if Ascii.eqb "," x then "010"%char else x) = c ->
                      in_cutset "[]" x = false ->
                      c <> "["%char /\ c <> "]"%char) as Hkept.
  { intros c x Hc Hx. destruct (Ascii.eqb "," x); subst c.
    - split; discriminate.
    - apply outside_cutset_brackets, Hx. }
  exists file, env, raw. split; [reflexivity|]. split; [exact Henv|].
  split; [exact Htrim|]. split; [exact Hbytes|].
  destruct Htrim as (_ & Hfirst & Hlast). rewrite Hbytes. split.
  - intros c Hc. rewrite head_lookup, list_lookup_fmap, <- head_lookup in Hc.
    destruct (head (strings.bytes raw)) as [x|] eqn:Hx; [|discriminate].
    injection Hc as Hc. apply head_bytes in Hx as [raw' Hraw].
    rewrite Hraw in Hfirst. exact (Hkept c x Hc Hfirst).
  - intros c Hc. rewrite fmap_last in Hc.
    destruct (last (strings.bytes raw)) as [x|] eqn:Hx; [|discriminate].
    injection Hc as Hc. apply last_bytes in Hx as [raw' Hraw].
    rewrite Hraw in Hlast. exact (Hkept c x Hc Hlast).
Qed.

(** ** The further properties at work *)

Lemma run_reachable `{GoLibs} (o : Options) (cap : nat) (schedule : list pool.Actor)
    (s0 s : pool.State) :
  pool.reachable o cap s0 s -> pool.reachable o cap s0 (pool.run o cap schedule s).
Proof.
  revert s. induction schedule as [|a schedule IH]; intros s Hreach; [exact Hreach|].
  cbn [pool.run]. destruct (pool.step_of o cap a s) as [s'|] eqn:Hstep.
  - apply IH. apply (pool.reach_step _ _ _ s s' Hreach). exists a. exact Hstep.
  - apply IH. exact Hreach.
Qed.

Lemma formatTime_date_time_witness :
  ~ has_byte " " "2024-03-26"
  /\ ~ has_byte " " "15:30:15"
  /\ formatTime "2024-03-26 15:30:15 +0900" = "2024-03-26_153015".
Proof.
  assert (~ has_byte " " "2024-03-26") as Hdate
    by (unfold has_byte; cbn; intuition discriminate).
  assert (~ has_byte " " "15:30:15") as Htime
    by (unfold has_byte; cbn; intuition discriminate).
  split; [exact Hdate|]. split; [exact Htime|].
  destruct (formatTime_date_time "2024-03-26" "15:30:15" " +0900" Hdate Htime
              (or_intror (ex_intro _ "+0900" eq_refl))) as [Hformat _].
  exact Hformat.
Defined.

Lemma htmlContent_of_first_html_witness :
  Forall (fun p => passed_over p = true) [mkPart (fun _ => "text/plain") (Ok "x")]
  /\ htmlContent_of
       [Sample.plain_part "x"; Sample.html_part Sample.example_body;
        Err "multipart: NextPart: EOF"]
     = Ok Sample.example_body.
Proof.
  assert (Forall (fun p => passed_over p = true)
            [mkPart (fun _ => "text/plain") (Ok "x")]) as Hbefore
    by (constructor; [reflexivity|constructor]).
  split; [exact Hbefore|].
  destruct (htmlContent_of_first_html _ Hbefore) as (Hfirst & _ & _).
  apply (Hfirst (mkPart (fun _ => "text/html; charset=utf-8") (Ok Sample.example_body)));
    reflexivity.
Defined.

Lemma URLs_field_splits_back_witness :
  match processEmlFile (H := Sample.libs) "in/b.eml" with
  | Ok (rec, htmlContent) =>
      strings.Split (URLs rec) (String "010" "")
      = extractUrls (H := Sample.libs) htmlContent
  | Err _ => False
  end.
Proof.
  destruct (processEmlFile (H := Sample.libs) "in/b.eml") as [[rec htmlContent]|e]
    eqn:Hfile; [|vm_compute in Hfile; discriminate].
  assert (htmlContent = Sample.broken_body) as Hbody
    by (vm_compute in Hfile; injection Hfile as _ <-; reflexivity).
  destruct (URLs_field_splits_back (H := Sample.libs) "in/b.eml" rec htmlContent Hfile)
    as (_ & _ & Hfallback & _).
  subst htmlContent.
  apply (Hfallback "html: cannot read");
    [vm_compute; discriminate|vm_compute; discriminate|reflexivity].
Defined.

Lemma pool_sends_never_block_witness :
  exists s0,
    pool.start SampleRun.batch 2 = Some s0
    /\ let s := pool.run (H := Sample.libs) Sample.no_options 3
                  SampleFlat.one_result_ready s0 in
       pool.reachable (H := Sample.libs) Sample.no_options 3 s0 s
       /\ pool.workers s !! 0 = Some (pool.Sending (pool_spec.result_of
                                       (H := Sample.libs) Sample.no_options "in/a.eml"))
       /\ length (pool.results s) < 3.
Proof.
  eexists. split; [reflexivity|]. cbn zeta.
  match goal with
  | |- pool.reachable _ _ ?s0 ?s /\ _ =>
      assert (pool.reachable (H := Sample.libs) Sample.no_options
                (length SampleRun.batch) s0 s) as Hreach
        by (apply run_reachable; apply pool.reach_start)
  end.
  split; [exact Hreach|].
  match type of Hreach with
  | pool.reachable _ _ ?s0 ?s =>
      assert (pool.workers s !! 0
              = Some (pool.Sending (pool_spec.result_of (H := Sample.libs)
                                      Sample.no_options "in/a.eml"))) as Hsending
        by (vm_compute; reflexivity);
      destruct (pool_sends_never_block (H := Sample.libs) Sample.no_options
                  SampleRun.batch 2 s0 s eq_refl Hreach) as (_ & _ & _ & Hsend)
  end.
  split; [exact Hsending|]. exact (proj1 (Hsend _ _ Hsending)).
Defined.


Lemma writeHtmlFile_replaces_extension_witness :
  filepath_Rel (GoLibs := SampleFlat.libs) "in" "in/a.eml" = Ok "a.eml"
  /\ "a.eml" = "a" +:+ filepath_Ext (GoLibs := SampleFlat.libs) "a.eml"
  /\ In (sys_WriteFile "out/a.html" "<p>hi</p>" 420)
       (fst (writeHtmlFile (H := SampleFlat.libs) SampleFlat.willing
               "in/a.eml" "in" "out" "<p>hi</p>")).
Proof.
  split; [reflexivity|]. split; [reflexivity|].
  pose proof (writeHtmlFile_replaces_extension (H := SampleFlat.libs) SampleFlat.willing
                "in/a.eml" "in" "out" "<p>hi</p>" "a.eml" "a" eq_refl eq_refl) as Hwrite.
  cbn zeta in Hwrite.
  destruct (writeHtmlFile (H := SampleFlat.libs) SampleFlat.willing
              "in/a.eml" "in" "out" "<p>hi</p>") as [trace e].
  destruct Hwrite as (_ & Hin & _). apply Hin. reflexivity.
Defined.

Lemma renameFileTo_creates_over_its_source_witness :
  renameFileTo_newPath (H := SampleFlat.libs) SampleFlat.renamed "in" "in"
    SampleFlat.undated = Ok SampleFlat.renamed
  /\ In (sys_Create SampleFlat.renamed)
       (fst (renameFileTo (H := SampleFlat.libs) SampleFlat.willing SampleFlat.renamed
               "in" "in" SampleFlat.undated)).
Proof.
  assert (renameFileTo_newPath (H := SampleFlat.libs) SampleFlat.renamed "in" "in"
            SampleFlat.undated = Ok SampleFlat.renamed) as Hsame
    by (vm_compute; reflexivity).
  split; [exact Hsame|].
  destruct (renameFileTo_creates_over_its_source (H := SampleFlat.libs)
              SampleFlat.willing SampleFlat.renamed "in" "in" SampleFlat.undated
              Hsame eq_refl eq_refl) as (rest & -> & _).
  right. right. left. reflexivity.
Defined.

Lemma shouldProcessFile_iff_witness :
  shouldProcessFile "Re: Q1.eml" = true /\ shouldProcessFile "Re: Q1.EML" = false.
Proof.
  split.
  - apply shouldProcessFile_iff. exists "Re: Q1". split; [reflexivity|].
    unfold has_byte. cbn. intuition discriminate.
  - destruct (shouldProcessFile "Re: Q1.EML") eqn:Hmatch; [|reflexivity].
    apply shouldProcessFile_iff in Hmatch as (stem & Hname & _).
    assert (strings.drop 6 "Re: Q1.EML" = strings.drop 6 (stem +:+ ".eml")) as Hdrop
      by (rewrite <- Hname; reflexivity).
    assert (String.length "Re: Q1.EML" = String.length (stem +:+ ".eml")) as Hlen
      by (rewrite <- Hname; reflexivity).
    rewrite length_app_string in Hlen. cbn in Hlen.
    assert (String.length stem = 6) as Hstem by lia.
    pose proof (drop_app_length stem ".eml") as Hsuffix.
    rewrite Hstem in Hsuffix. rewrite Hsuffix in Hdrop. vm_compute in Hdrop.
    discriminate.
Defined.

Lemma extractUrls_http_witness :
  extractUrls (H := Sample.libs) Sample.broken_body <> []
  /\ Forall (fun u => strings.HasPrefix u "http" = true)
       (extractUrls (H := Sample.libs) Sample.broken_body).
Proof.
  split; [vm_compute; discriminate|].
  apply List.Forall_forall.
  exact (proj2 (extractUrls_http (H := Sample.libs) Sample.broken_body)).
Defined.

Lemma processEmlFile_fails_only_on_witness :
  is_Ok (processEmlFile (H := Sample.libs) "in/b.eml") = true
  /\ is_Ok (processEmlFile (H := Sample.libs) "in/bad.eml") = false.
Proof.
  destruct (processEmlFile_fails_only_on (H := Sample.libs) "in/b.eml") as [[_ Hgood] _].
  destruct (processEmlFile_fails_only_on (H := Sample.libs) "in/bad.eml") as [[Hbad _] _].
  split.
  - apply Hgood. eexists _, _. split; [reflexivity|]. split; reflexivity.
  - destruct (is_Ok (processEmlFile (H := Sample.libs) "in/bad.eml")); [|reflexivity].
    destruct (Hbad eq_refl) as (f & mr & Hopen & Hreader & _).
    injection Hopen as <-. discriminate.
Defined.

Lemma IP_field_has_no_comma_witness :
  match processEmlFile (H := Sample.libs) "in/b.eml" with
  | Ok (rec, _) => ~ has_byte "," (IP rec) /\ String.length (IP rec) = 21
  | Err _ => False
  end.
Proof.
  destruct (IP_field_has_no_comma (H := Sample.libs) "in/b.eml") as [Hip _].
  destruct (processEmlFile (H := Sample.libs) "in/b.eml") as [[rec htmlContent]|e]
    eqn:Hfile; [|vm_compute in Hfile; discriminate].
  destruct (Hip rec htmlContent eq_refl) as [Hcomma _].
  split; [exact Hcomma|].
  vm_compute in Hfile. injection Hfile as <- _. reflexivity.
Defined.


Lemma no_worker_no_record_witness :
  pool.processFilesConcurrently (H := Sample.libs) SampleRun.batch 0
    Sample.no_options [].
Proof.
  apply (proj1 (no_worker_no_record (H := Sample.libs) Sample.no_options SampleRun.batch)).
  reflexivity.
Defined.

(** Writing the HTML bodies of the sample batch to a directory of their own
    changes none of its files. *)
Example html_output_undisturbed :
  pool_fs_spec.undisturbed (H := Sample.libs) SampleWorld.World SampleWorld.look
    SampleWorld.effect SampleDir.with_html Sample.sample_Open SampleRun.batch.
Proof.
  intros w q c p Hq Hc Hp. cbn in Hq, Hp.
  destruct Hq as [<-|[<-|[<-|[]]]]; vm_compute in Hc; try contradiction;
    destruct Hc as [<-|[]]; destruct Hp as [<-|[<-|[<-|[]]]];
    vm_compute; reflexivity.
Qed.

Lemma concurrent_agrees_with_sequential_witness :
  collectFilePathsNonRecursive (H := Sample.libs) (Ok SampleDir.entries) "in"
  = Ok SampleRun.batch
  /\ exists recs calls w',
       sequential_fs.scanDirectoryOnce (H := Sample.libs) SampleWorld.World
         SampleWorld.look SampleWorld.effect SampleDir.with_html
         (Ok SampleDir.entries) Sample.sample_Open = Ok (recs, calls, w')
       /\ map Subject recs = ["Re: Q1"; "no html"]
       /\ length calls = 2
       /\ (forall recs',
             pool_fs.processFilesConcurrently (H := Sample.libs) SampleWorld.World
               SampleWorld.look SampleWorld.effect SampleRun.batch 1
               SampleDir.with_html Sample.sample_Open recs' ->
             recs' = recs)
       /\ (forall recs',
             pool_fs.processFilesConcurrently (H := Sample.libs) SampleWorld.World
               SampleWorld.look SampleWorld.effect SampleRun.batch 2
               SampleDir.with_html Sample.sample_Open recs' ->
             Permutation recs' recs).
Proof.
  assert (collectFilePathsNonRecursive (H := Sample.libs) (Ok SampleDir.entries)
            (inputRoot SampleDir.with_html) = Ok SampleRun.batch) as Hpaths
    by (vm_compute; reflexivity).
  split; [exact Hpaths|].
  pose proof (concurrent_agrees_with_sequential (H := Sample.libs) SampleWorld.World
                SampleWorld.look SampleWorld.effect SampleDir.with_html
                (Ok SampleDir.entries) Sample.sample_Open) as Hagree.
  rewrite Hpaths in Hagree.
  destruct Hagree as (recs & calls & w' & Hscan & Hone & Hmany).
  exists recs, calls, w'. split; [exact Hscan|].
  assert (map Subject recs = ["Re: Q1"; "no html"] /\ length calls = 2) as [Hrecs Hcalls].
  { unfold sequential_fs.scanDirectoryOnce in Hscan.
    injection Hscan as Hr Hc _. rewrite <- Hr, <- Hc.
    split; vm_compute; reflexivity. }
  split; [exact Hrecs|]. split; [exact Hcalls|]. split.
  - intros recs' (b0 & b & Hstart & Hreach & Hmain & <-).
    apply (Hone b0 b Hstart Hreach Hmain).
  - intros recs' (b0 & b & Hstart & Hreach & Hmain & <-).
    apply (Hmany html_output_undisturbed 2%Z b0 b ltac:(lia) Hstart Hreach Hmain).
Defined.


Lemma renameFileTo_copies_and_closes_witness :
  let trace :=
    fst (renameFileTo (H := SampleFlat.libs) SampleDir.read_only "in/a.eml" "in" "out"
           SampleRun.dated) in
  trace = [sys_MkdirAll "out" 493; sys_Open "in/a.eml";
           sys_Create "out/2024-03-26_153015 Re_ Q1.eml"; sys_Close "in/a.eml"]
  /\ open_handles SampleDir.read_only trace [] = Some [].
Proof.
  cbn zeta. split; [vm_compute; reflexivity|].
  pose proof (renameFileTo_copies_and_closes (H := SampleFlat.libs) SampleDir.read_only
                "in/a.eml" "in" "out" SampleRun.dated) as Hcloses.
  destruct (renameFileTo (H := SampleFlat.libs) SampleDir.read_only "in/a.eml" "in" "out"
              SampleRun.dated) as [trace e].
  exact (proj1 Hcloses).
Defined.

Lemma worker_syscalls_follow_options_witness :
  (forall old new,
      ~ In (sys_Rename old new)
          (worker_syscalls (H := SampleFlat.libs) SampleFlat.willing Sample.both_renames
             "in/a.eml" SampleRun.dated "<p>hi</p>"))
  /\ worker_syscalls (H := SampleFlat.libs) SampleFlat.willing Sample.no_options
       "in/a.eml" SampleRun.dated "<p>hi</p>" = [].
Proof.
  destruct (worker_syscalls_follow_options (H := SampleFlat.libs) SampleFlat.willing
              Sample.both_renames "in/a.eml" SampleRun.dated "<p>hi</p>")
    as (_ & _ & Hrename & _).
  destruct (worker_syscalls_follow_options (H := SampleFlat.libs) SampleFlat.willing
              Sample.no_options "in/a.eml" SampleRun.dated "<p>hi</p>")
    as (_ & _ & _ & Hnone).
  split.
  - intros old new Hin. destruct (Hrename old new Hin) as [Hto _]. discriminate.
  - apply Hnone; reflexivity.
Defined.

Lemma enmime_IP_field_trimmed_witness :
  match Sequential.processEmlFile (H := Sample.libs) "in/a.eml" with
  | Ok (rec, _) =>
      IP rec = "10.0.0.1"
      /\ forall c, last (strings.bytes (IP rec)) = Some c -> c <> "]"%char
  | Err _ => False
  end.
Proof.
  destruct (Sequential.processEmlFile (H := Sample.libs) "in/a.eml")
    as [[rec htmlContent]|e] eqn:Hfile; [|vm_compute in Hfile; discriminate].
  destruct (enmime_IP_field_trimmed (H := Sample.libs) "in/a.eml" rec htmlContent Hfile)
    as (_ & _ & _ & _ & _ & _ & _ & _ & Hlast).
  split; [vm_compute in Hfile; injection Hfile as <- _; reflexivity|].
  intros c Hc. exact (proj2 (Hlast c Hc)).
Defined.
